(** * RAG indexing and retrieval pipeline: chunker, index store, retriever,
      crawler and rebuild orchestration of the site-chat API.

    The development embeds [src/rag.ts], [src/db.ts] and [src/scraper.ts],
    and the index state of [src/server.ts], as executable Rocq functions
    and proves the properties the specification states about them, and
    further properties of the code.

    Modelling conventions.
    - A JavaScript string is a sequence of code units; the code units below
      256 are modelled, as [list ascii]. [length] is [String.prototype.length].
    - JavaScript numbers that hold lengths, counters and indices are [nat];
      the numeric knobs read from the environment are [Z] (a variable that
      [parseInt] cannot read, which gives NaN, is outside the model).
    - Loops that the source does not bound run on fuel: [None] means that the
      fuel ran out before the loop left, never that the code returned.
    - A thrown [Error] is the [Throw] outcome; the store it leaves behind is
      returned next to it.
    - The SQLite tables with a one-column primary key are [gmap]s keyed by
      it; [rag_chunks], whose key has three columns and which is read back
      in sorted order, is the list of its rows. *)

From Stdlib Require Import ZArith Lia Ascii String.
From stdpp Require Import base option list sorting gmap strings.

Local Open Scope Z_scope.

(** ** JavaScript strings *)

Module Js.

Abbreviation jstring := (list ascii).

(** String literals of the source. *)
Definition str (s : string) : jstring := list_ascii_of_string s.

Definition code (c : ascii) : N := N_of_ascii c.

(** The class [\s] of a regular expression and the characters [trim]
    removes: TAB, LF, VT, FF, CR, SPACE and NBSP below 256. *)
Definition is_space (c : ascii) : bool :=
  ((9 <=? code c) && (code c <=? 13) || (code c =? 32) || (code c =? 160))%N.

Definition space : ascii := ascii_of_N 32.

(** [s.replace(/\s+/g, " ")]: every maximal run of white space becomes one
    space. [in_run] tells that the previous character was white space. *)
Fixpoint collapse_go (in_run : bool) (s : jstring) : jstring :=
  match s with
  | [] => []
  | c :: s' =>
      if is_space c
      then (if in_run then collapse_go true s' else space :: collapse_go true s')
      else c :: collapse_go false s'
  end.

Definition collapse_ws (s : jstring) : jstring := collapse_go false s.

Fixpoint trim_start (s : jstring) : jstring :=
  match s with
  | c :: s' => if is_space c then trim_start s' else s
  | [] => []
  end.

Definition trim_end (s : jstring) : jstring := rev (trim_start (rev s)).

(** [s.trim()] *)
Definition trim (s : jstring) : jstring := trim_end (trim_start s).

(** A string with a character that is not white space. *)
Definition has_text (s : jstring) : Prop := ∃ c, c ∈ s ∧ is_space c = false.

(** [s.slice(b, e)] for integer arguments: a negative index counts from the
    end, both are clamped to the string. *)
Definition slice (s : jstring) (b e : Z) : jstring :=
  let len := Z.of_nat (length s) in
  let from := if b <? 0 then Z.max (len + b) 0 else Z.min b len in
  let to := if e <? 0 then Z.max (len + e) 0 else Z.min e len in
  take (Z.to_nat (to - from)) (drop (Z.to_nat from) s).

(** [s.toLowerCase()] on code units below 256: A-Z, and the Latin-1
    capitals U+00C0..U+00DE without the multiplication sign U+00D7. *)
Definition lower_char (c : ascii) : ascii :=
  let n := code c in
  if ((65 <=? n) && (n <=? 90) || (192 <=? n) && (n <=? 222) && negb (n =? 215))%N
  then ascii_of_N (n + 32) else c.

Definition toLowerCase (s : jstring) : jstring := lower_char <$> s.

(** [s.startsWith(t)] *)
Fixpoint starts_with (t s : jstring) : bool :=
  match t, s with
  | [], _ => true
  | a :: t', b :: s' => if decide (a = b) then starts_with t' s' else false
  | _ :: _, [] => false
  end.

(** [s.includes(t)] *)
Fixpoint includes (s t : jstring) : bool :=
  starts_with t s ||
  match s with
  | [] => false
  | _ :: s' => includes s' t
  end.

(** [s.split(t).length - 1] for a non-empty separator [t]: the number of
    occurrences of [t] found from left to right, each search resuming after
    the previous match. [skip] counts the characters of the current match
    still to step over. *)
Fixpoint occurrences_go (t : jstring) (skip : nat) (s : jstring) : nat :=
  match s with
  | [] => 0
  | _ :: s' =>
      match skip with
      | S k => occurrences_go t k s'
      | O => if starts_with t s
             then S (occurrences_go t (pred (length t)) s')
             else occurrences_go t 0 s'
      end
  end.

Definition occurrences (s t : jstring) : nat := occurrences_go t 0 s.

(** [parts.join(sep)] *)
Fixpoint join (sep : jstring) (parts : list jstring) : jstring :=
  match parts with
  | [] => []
  | [p] => p
  | p :: rest => p ++ sep ++ join sep rest
  end.

(** Decimal digits of a number, as [String(n)] prints an index. *)
Fixpoint digits_go (fuel n : nat) (acc : jstring) : jstring :=
  match fuel with
  | O => acc
  | S f =>
      let d := ascii_of_nat (48 + n mod 10) in
      if decide (n / 10 = 0)%nat then d :: acc else digits_go f (n / 10)%nat (d :: acc)
  end.

Definition of_nat (n : nat) : jstring := digits_go (S n) n [].

(** [a || b] on strings: the empty string is falsy. *)
Definition or_else (a b : jstring) : jstring :=
  match a with [] => b | _ => a end.

(** White space shows only as single plain spaces: [prev] tells that the
    previous character was white space. *)
Fixpoint single_spaced (prev : bool) (s : jstring) : bool :=
  match s with
  | [] => true
  | c :: s' =>
      if is_space c then negb prev && bool_decide (c = space) && single_spaced true s'
      else single_spaced false s'
  end.

(** [s.replace(/pat/g, rep)] for a pattern [pat] that is a non-empty
    literal: the matches are found from left to right, each search resuming
    after the previous match. [skip] counts the characters of the current
    match still to step over. *)
Fixpoint replace_all_go (pat rep : jstring) (skip : nat) (s : jstring) : jstring :=
  match s with
  | [] => []
  | c :: s' =>
      match skip with
      | S k => replace_all_go pat rep k s'
      | O => if starts_with pat s
             then rep ++ replace_all_go pat rep (pred (length pat)) s'
             else c :: replace_all_go pat rep 0 s'
      end
  end.

Definition replace_all (pat rep s : jstring) : jstring := replace_all_go pat rep 0 s.

End Js.

Import Js.

(** ** Outcome of a call that may throw *)

Inductive outcome (A : Type) : Type :=
  | Return (a : A)
  | Throw (message : jstring).
Arguments Return {A} a.
Arguments Throw {A} message.

(** ** Configuration read from the environment ([process.env]) *)

Record RagEnv := {
  CHUNK_SIZE : Z;
  CHUNK_OVERLAP : Z;
  TOP_K : Z;
  MAX_CONTEXT_CHARS : Z;
  RAG_MIN_TOPIC_SCORE : Z
}.

(** The values [parseInt] gives when no variable is set. *)
Definition default_env : RagEnv := {|
  CHUNK_SIZE := 1100;
  CHUNK_OVERLAP := 180;
  TOP_K := 8;
  MAX_CONTEXT_CHARS := 12000;
  RAG_MIN_TOPIC_SCORE := 2
|}.

(** ** Chunker ([chunkText], rag.ts) *)

Module Chunker.

(** [text.replace(/\s+/g, " ").trim()] *)
Definition normalize (text : jstring) : jstring := trim (collapse_ws text).

(** One turn of the [while] loop: either the loop leaves with the chunks
    ([Break], by the loop condition or the [break]), or it goes round again
    with a new [start]. *)
Inductive turn : Type :=
  | Continue (start : Z) (chunks : list jstring)
  | Break (chunks : list jstring).

Section WithEnv.
Variable env : RagEnv.

Definition chunk_turn (normalized : jstring) (start : Z) (chunks : list jstring) : turn :=
  let len := Z.of_nat (length normalized) in
  if start <? len then
    let end_ := Z.min len (start + CHUNK_SIZE env) in
    let chunks' := chunks ++ [slice normalized start end_] in
    if end_ >=? len then Break chunks'
    else Continue (Z.max 0 (end_ - CHUNK_OVERLAP env)) chunks'
  else Break chunks.

Fixpoint chunk_loop (fuel : nat) (normalized : jstring) (start : Z)
    (chunks : list jstring) : option (list jstring) :=
  match fuel with
  | O => None
  | S fuel' =>
      match chunk_turn normalized start chunks with
      | Break chunks' => Some chunks'
      | Continue start' chunks' => chunk_loop fuel' normalized start' chunks'
      end
  end.

Definition chunkText (fuel : nat) (text : jstring) : option (list jstring) :=
  let normalized := normalize text in
  match normalized with
  | [] => Some []
  | _ =>
      if Z.of_nat (length normalized) <=? CHUNK_SIZE env then Some [normalized]
      else chunk_loop fuel normalized 0 []
  end.

(** The windows the loop cuts from [start] on: all but the last are full
    and stop short of the end of the text, the last one reaches it. *)
Inductive chain (s : jstring) : Z → list jstring → Prop :=
  | chain_last start :
      Z.of_nat (length s) <= start + CHUNK_SIZE env →
      chain s start [slice s start (start + CHUNK_SIZE env)]
  | chain_more start rest :
      start + CHUNK_SIZE env < Z.of_nat (length s) →
      chain s (start + (CHUNK_SIZE env - CHUNK_OVERLAP env)) rest →
      chain s start (slice s start (start + CHUNK_SIZE env) :: rest).

End WithEnv.

End Chunker.

(** ** Index store ([db.ts]) *)

Module Db.

Record SiteFacts := {
  ownerName : option jstring;
  ownerTitle : option jstring;
  phones : list jstring;
  emails : list jstring;
  addresses : list jstring;
  hours : option jstring;
  services : list jstring
}.

(** A row of [rag_chunks]; the primary key is (domain, url, chunk_id). *)
Record RagChunk := {
  row_domain : jstring;
  row_url : jstring;
  row_title : jstring;
  row_chunkId : nat;
  row_content : jstring;
  row_updatedAt : jstring
}.

(** A row of [rag_meta], without its key [domain]. *)
Record RagMeta := {
  meta_siteName : option jstring;
  meta_pageCount : nat;
  meta_chunkCount : nat;
  meta_indexedAt : jstring
}.

(** A row of [site_facts], without its key; [data] holds the facts that
    [JSON.stringify] wrote. *)
Record FactsRow := {
  facts_data : SiteFacts;
  facts_updated_at : jstring
}.

Record Database := {
  site_facts : gmap jstring FactsRow;
  rag_chunks : list RagChunk;
  rag_meta : gmap jstring RagMeta
}.

Definition empty_db : Database :=
  {| site_facts := ∅; rag_chunks := []; rag_meta := ∅ |}.

(** The argument of [replaceRagChunks]: a page with its chunks. *)
Record PreparedPage := {
  prep_url : jstring;
  prep_title : jstring;
  prep_chunks : list jstring
}.

Record Stats := {
  pageCount : nat;
  chunkCount : nat
}.

Definition untitled : jstring := str "Untitled".

(** [putSiteFacts]: insert, or overwrite on conflict. [now] is the reading
    of [datetime('now')]. *)
Definition putSiteFacts (now : jstring) (domain : jstring) (facts : SiteFacts)
    (db : Database) : Database :=
  {| site_facts := <[domain := {| facts_data := facts; facts_updated_at := now |}]> (site_facts db);
     rag_chunks := rag_chunks db;
     rag_meta := rag_meta db |}.

Definition getSiteFacts (domain : jstring) (db : Database) : option SiteFacts :=
  facts_data <$> site_facts db !! domain.

(** The row [insertStmt.run(domain, page.url, page.title || "Untitled", i, chunk)]
    writes. *)
Definition new_row (now domain url title : jstring) (i : nat) (c : jstring) : RagChunk :=
  {| row_domain := domain; row_url := url; row_title := or_else title untitled;
     row_chunkId := i; row_content := c; row_updatedAt := now |}.

Definition same_key (a b : RagChunk) : bool :=
  bool_decide (row_domain a = row_domain b ∧ row_url a = row_url b
               ∧ row_chunkId a = row_chunkId b).

(** [INSERT INTO rag_chunks]: [None] when the primary key is taken, which
    SQLite raises as a constraint error. *)
Definition insert_chunk (r : RagChunk) (rows : list RagChunk) : option (list RagChunk) :=
  if existsb (same_key r) rows then None else Some (rows ++ [r]).

(** The inner [for] loop of the transaction, from index [i] on. *)
Fixpoint insert_chunks (now domain url title : jstring) (i : nat) (chunks : list jstring)
    (rows : list RagChunk) (chunkCount : nat) : option (list RagChunk * nat) :=
  match chunks with
  | [] => Some (rows, chunkCount)
  | c :: rest =>
      match insert_chunk (new_row now domain url title i c) rows with
      | None => None
      | Some rows' => insert_chunks now domain url title (S i) rest rows' (S chunkCount)
      end
  end.

(** The outer [for] loop of the transaction. *)
Fixpoint insert_pages (now domain : jstring) (pages : list PreparedPage)
    (rows : list RagChunk) (pageCount chunkCount : nat) : option (list RagChunk * nat * nat) :=
  match pages with
  | [] => Some (rows, pageCount, chunkCount)
  | page :: rest =>
      match insert_chunks now domain (prep_url page) (prep_title page) 0
              (prep_chunks page) rows chunkCount with
      | None => None
      | Some (rows', chunkCount') =>
          insert_pages now domain rest rows' (S pageCount) chunkCount'
      end
  end.

Definition constraint_failed : jstring :=
  str "UNIQUE constraint failed: rag_chunks.domain, rag_chunks.url, rag_chunks.chunk_id".

(** [replaceRagChunks]: one transaction that deletes the rows of the
    domain, inserts the new ones and upserts the meta row. A statement that
    raises rolls the transaction back: the store is the one before the
    call. [now] is what [datetime('now')] reads during the call, taken to be
    the same second for all its statements. *)
Definition replaceRagChunks (now : jstring) (domain : jstring) (siteName : option jstring)
    (pages : list PreparedPage) (db : Database) : outcome Stats * Database :=
  let kept := filter (λ r, row_domain r ≠ domain) (rag_chunks db) in
  match insert_pages now domain pages kept 0 0 with
  | None => (Throw constraint_failed, db)
  | Some (rows, pageCount, chunkCount) =>
      (Return {| pageCount := pageCount; chunkCount := chunkCount |},
       {| site_facts := site_facts db;
          rag_chunks := rows;
          rag_meta := <[domain := {| meta_siteName := siteName;
                                     meta_pageCount := pageCount;
                                     meta_chunkCount := chunkCount;
                                     meta_indexedAt := now |}]> (rag_meta db) |})
  end.

(** The order of [ORDER BY url, chunk_id]: urls compare as byte strings
    (SQLite's BINARY collation), then chunk ids as integers. *)
Definition url_le (u v : jstring) : Prop :=
  String.le (string_of_list_ascii u) (string_of_list_ascii v).

Definition row_le (a b : RagChunk) : Prop :=
  if decide (row_url a = row_url b) then (row_chunkId a ≤ row_chunkId b)%nat
  else url_le (row_url a) (row_url b).

#[global] Instance row_le_dec : RelDecision row_le.
Proof. intros a b. unfold row_le, url_le. destruct (decide (row_url a = row_url b)); apply _. Defined.

(** [getRagChunks]: the rows of the domain, sorted. *)
Definition getRagChunks (domain : jstring) (db : Database) : list RagChunk :=
  merge_sort row_le (filter (λ r, row_domain r = domain) (rag_chunks db)).

Definition getRagMeta (domain : jstring) (db : Database) : option RagMeta :=
  rag_meta db !! domain.

(** The rows a rebuild writes for one page, and for all of them. *)
Definition page_rows (now domain : jstring) (p : PreparedPage) : list RagChunk :=
  imap (new_row now domain (prep_url p) (prep_title p)) (prep_chunks p).

Definition new_rows (now domain : jstring) (pages : list PreparedPage) : list RagChunk :=
  mjoin (page_rows now domain <$> pages).

(** The primary key of a row of [rag_chunks]. *)
Definition row_key (r : RagChunk) : jstring * jstring * nat :=
  (row_domain r, row_url r, row_chunkId r).

(** A store as the code keeps it: no two rows of [rag_chunks] share a
    primary key, and the chunk count of a domain's meta row is the number
    of its rows (no meta row, no rows). *)
Definition consistent (d : Database) : Prop :=
  NoDup (row_key <$> rag_chunks d)
  ∧ ∀ domain, length (getRagChunks domain d)
              = from_option meta_chunkCount 0%nat (getRagMeta domain d).

(** The pages for which the transaction inserts a row. *)
Definition with_chunks (pages : list PreparedPage) : list PreparedPage :=
  filter (λ p, prep_chunks p ≠ []) pages.

End Db.

Import Db.

(** ** Retriever ([rag.ts]) *)

Module Retriever.

Definition is_alnum_lower (c : ascii) : bool :=
  ((97 <=? code c) && (code c <=? 122) || (48 <=? code c) && (code c <=? 57))%N.

Definition non_space_next (s : jstring) : bool :=
  match s with
  | c :: _ => negb (is_space c)
  | [] => false
  end.

(** Does a match of [/https?:\/\/[^\s]+/] start at the head of [s]? *)
Definition url_starts (s : jstring) : bool :=
  (starts_with (str "http://") s && non_space_next (drop 7 s))
  || (starts_with (str "https://") s && non_space_next (drop 8 s)).

(** [s.replace(/https?:\/\/[^\s]+/g, " ")]: a match runs to the next white
    space; [inside] tells that the scan is within a match. *)
Fixpoint strip_urls_go (inside : bool) (s : jstring) : jstring :=
  match s with
  | [] => []
  | c :: s' =>
      if inside then
        (if is_space c then c :: strip_urls_go false s' else strip_urls_go true s')
      else if url_starts s then space :: strip_urls_go true s'
      else c :: strip_urls_go false s'
  end.

Definition strip_urls (s : jstring) : jstring := strip_urls_go false s.

(** [s.replace(/[^a-z0-9\s]/g, " ")] *)
Definition strip_symbols (s : jstring) : jstring :=
  (λ c, if is_alnum_lower c || is_space c then c else space) <$> s.

(** [s.split(/\s+/)]: the pieces between the runs of white space, the empty
    pieces at both ends included. [cur] is the piece being read, reversed. *)
Fixpoint split_ws_go (in_sep : bool) (cur : jstring) (s : jstring) : list jstring :=
  match s with
  | [] => [rev cur]
  | c :: s' =>
      if is_space c
      then (if in_sep then split_ws_go true [] s' else rev cur :: split_ws_go true [] s')
      else split_ws_go false (c :: cur) s'
  end.

Definition split_ws (s : jstring) : list jstring := split_ws_go false [] s.

Definition tokenize (text : jstring) : list jstring :=
  filter (λ w, (2 < length w)%nat) (split_ws (strip_symbols (strip_urls (toLowerCase text)))).

(** One turn of the [for] loop of [scoreChunk]. *)
Definition score_term (hay title url : jstring) (score : nat) (term : jstring) : nat :=
  match term with
  | [] => score
  | _ =>
      let occ := occurrences hay term in
      let s1 := if (0 <? occ)%nat then (score + occ)%nat else score in
      let s2 := if includes (toLowerCase title) term then (s1 + 4)%nat else s1 in
      if includes (toLowerCase url) term then (s2 + 3)%nat else s2
  end.

Definition scoreChunk (content title url : jstring) (queryTerms : list jstring) : nat :=
  let hay := toLowerCase (title ++ [space] ++ url ++ [space] ++ content) in
  foldl (score_term hay title url) 0%nat queryTerms.

Record PreparedChunk := {
  pc_url : jstring;
  pc_title : jstring;
  pc_chunkId : nat;
  pc_content : jstring;
  pc_score : nat
}.

(** [scored.sort((a, b) => b.score - a.score)]: a stable sort, higher
    scores first; chunks of equal score keep their order. *)
Fixpoint insert_by_score (x : PreparedChunk) (l : list PreparedChunk) : list PreparedChunk :=
  match l with
  | [] => [x]
  | y :: l' =>
      if (pc_score x <? pc_score y)%nat then y :: insert_by_score x l' else x :: l
  end.

Definition sort_by_score (l : list PreparedChunk) : list PreparedChunk :=
  foldr insert_by_score [] l.

(** The test of the filter: [i < topK && (s.score > 0 || i < 2)]. *)
Definition keeps (topK : Z) (i score : nat) : bool :=
  (Z.of_nat i <? topK) && ((0 <? score)%nat || (i <? 2)%nat).

(** [scored.filter((s, i) => i < topK && (s.score > 0 || i < 2))], from
    index [i] on. *)
Fixpoint select_from (topK : Z) (i : nat) (scored : list PreparedChunk) : list PreparedChunk :=
  match scored with
  | [] => []
  | s :: rest =>
      if keeps topK i (pc_score s)
      then s :: select_from topK (S i) rest
      else select_from topK (S i) rest
  end.

Definition select (topK : Z) (scored : list PreparedChunk) : list PreparedChunk :=
  select_from topK 0 scored.

Definition entry_of (chunk : PreparedChunk) : jstring :=
  str "--- " ++ pc_title chunk ++ str " (" ++ pc_url chunk ++ str ") [chunk "
  ++ of_nat (pc_chunkId chunk) ++ str "] ---" ++ [ascii_of_nat 10] ++ pc_content chunk.

(** [sources.add(url)] on a [Set], which keeps insertion order. *)
Definition set_add (sources : list jstring) (u : jstring) : list jstring :=
  if bool_decide (u ∈ sources) then sources else sources ++ [u].

(** The assembling [for] loop, with its [break]. *)
Fixpoint assemble (maxChars : Z) (selected : list PreparedChunk)
    (parts sources : list jstring) (total : nat) : list jstring * list jstring :=
  match selected with
  | [] => (parts, sources)
  | chunk :: rest =>
      let entry := entry_of chunk in
      if Z.of_nat (total + length entry) >? maxChars then (parts, sources)
      else assemble maxChars rest (parts ++ [entry]) (set_add sources (pc_url chunk))
             (total + length entry)%nat
  end.

(** The order the sort leaves the chunks in. *)
Definition score_ge (a b : PreparedChunk) : Prop := (pc_score b <= pc_score a)%nat.

(** The characters of the blocks, without the separators. *)
Definition total_length (parts : list jstring) : nat := sum_list_with length parts.

Record Opts := {
  topK : option Z;
  maxChars : option Z
}.

Definition no_opts : Opts := {| topK := None; maxChars := None |}.

Record Retrieved := {
  context : jstring;
  sources : list jstring;
  bestScore : nat;
  topScore : nat
}.

Definition score_rows (queryTerms : list jstring) (rows : list RagChunk) : list PreparedChunk :=
  (λ row, {| pc_url := row_url row; pc_title := row_title row;
             pc_chunkId := row_chunkId row; pc_content := row_content row;
             pc_score := scoreChunk (row_content row) (row_title row) (row_url row) queryTerms |})
  <$> rows.

Definition blank_line : jstring := [ascii_of_nat 10; ascii_of_nat 10].

(** The score [retrieveRagContext] gives a stored row for a query. *)
Definition score_of (q : jstring) (row : RagChunk) : nat :=
  scoreChunk (row_content row) (row_title row) (row_url row) (tokenize q).

Section WithEnv.
Variable env : RagEnv.

(** The chunks [retrieveRagContext] keeps for the context, in order. *)
Definition selected_chunks (domain userQuery : jstring) (opts : Opts) (db : Database)
    : list PreparedChunk :=
  select (default (TOP_K env) (topK opts))
    (sort_by_score (score_rows (tokenize userQuery) (getRagChunks domain db))).

Definition retrieveRagContext (domain userQuery : jstring) (opts : Opts) (db : Database)
    : Retrieved :=
  let topK := default (TOP_K env) (topK opts) in
  let maxChars := default (MAX_CONTEXT_CHARS env) (maxChars opts) in
  let rows := getRagChunks domain db in
  match rows with
  | [] => {| context := []; sources := []; bestScore := 0; topScore := 0 |}
  | _ =>
      let queryTerms := tokenize userQuery in
      let scored := sort_by_score (score_rows queryTerms rows) in
      let bestScore := match scored with s :: _ => pc_score s | [] => 0%nat end in
      let selected := select topK scored in
      let '(parts, sources) := assemble maxChars selected [] [] 0 in
      {| context := join blank_line parts; sources := sources;
         bestScore := bestScore; topScore := bestScore |}
  end.

Definition isLikelyOnTopic (domain message : jstring) (db : Database) : bool :=
  let hits := retrieveRagContext domain message
                {| topK := Some 1; maxChars := Some 1200 |} db in
  Z.of_nat (bestScore hits) >=? RAG_MIN_TOPIC_SCORE env.

End WithEnv.

End Retriever.

(** ** Crawler ([scraper.ts]) *)

Module Scraper.

Record PageData := {
  page_url : jstring;
  page_title : jstring;
  page_content : jstring
}.

(** What [fetch] resolves to; a rejected promise (network error, timeout)
    is [None] at the call. *)
Record Response := {
  res_ok : bool;
  res_content_type : option jstring;
  res_body : jstring
}.

Record Extracted := {
  ex_title : jstring;
  ex_text : jstring;
  ex_links : list jstring
}.

(** The crawler's configuration: [SITE_DOMAIN] from [getConfiguredDomain()],
    the numeric knobs, and [SCRAPER_EXTRA_URLS] already split at commas and
    newlines, trimmed, without its empty entries. *)
Record ScraperEnv := {
  SITE_DOMAIN : jstring;
  MAX_PAGES : Z;
  CONCURRENCY : Z;
  SCRAPER_EXTRA_URLS : list jstring
}.

(** The platform the crawler runs on: the network, the URL and HTML
    parsers, and the order in which the fetches of a batch complete. *)
Record Platform := {
  (** [fetch(sm, ...)] of a sitemap *)
  fetch_sitemap : jstring → option Response;
  (** [fetch(url, ...)] of a page, with the crawler's headers *)
  fetch_page : jstring → option Response;
  (** the order in which the tasks of a batch resume after their fetch *)
  completion : list jstring → list jstring;
  (** [normUrl(href, base)], built on the platform's [URL] *)
  normUrl : jstring → jstring → option jstring;
  (** [new URL(path, base).toString()], [None] when [URL] throws *)
  resolve : jstring → jstring → option jstring;
  (** the cheerio part of [extractText(html)]: the title, the text of the
      content region before its white space is cleaned up, the hrefs *)
  parse_html : jstring → Extracted;
  (** [extractSitemapUrls(xml)] *)
  extractSitemapUrls : jstring → list jstring
}.

(** [Array.from(new Set(l))]: first occurrences, in order. *)
Definition uniq (l : list jstring) : list jstring :=
  foldl (λ acc x, if bool_decide (x ∈ acc) then acc else acc ++ [x]) [] l.

Definition ends_with (s t : jstring) : bool := starts_with (rev t) (rev s).

Definition priorityPaths : list jstring :=
  str <$> ["/"; "/about"; "/about/"; "/about-us"; "/about-us/"; "/contact"; "/contact/";
           "/contact-us"; "/contact-us/"; "/services"; "/services/";
           "/web-development-design/"]%string.

(** [/(\/about|\/about-us|\/contact|\/contact-us|\/services)(\/|$)/i.test(u)] *)
Definition core_here (s : jstring) : bool :=
  existsb (λ alt, starts_with alt s
                  && match drop (length alt) s with
                     | [] => true
                     | c :: _ => bool_decide (c = "/"%char)
                     end)
    (str <$> ["/about"; "/about-us"; "/contact"; "/contact-us"; "/services"]%string).

Fixpoint core_anywhere (s : jstring) : bool :=
  core_here s || match s with [] => false | _ :: s' => core_anywhere s' end.

Definition is_core (u : jstring) : bool := core_anywhere (toLowerCase u).

Definition amp : ascii := ascii_of_nat 38.

(** [decodeXml]: five replacements, one after the other, [&amp;] first. *)
Definition decodeXml (s : jstring) : jstring :=
  replace_all (str "&#39;") (str "'")
    (replace_all (str "&quot;") [ascii_of_nat 34]
       (replace_all (str "&gt;") (str ">")
          (replace_all (str "&lt;") (str "<")
             (replace_all (str "&amp;") (str "&") s)))).

Section WithPlatform.
Variable P : Platform.
Variable senv : ScraperEnv.

(** [extractText]: [text.replace(/\s+/g, " ").trim()] on what cheerio
    gives. *)
Definition extractText (html : jstring) : Extracted :=
  let raw := parse_html P html in
  {| ex_title := ex_title raw;
     ex_text := trim (collapse_ws (ex_text raw));
     ex_links := ex_links raw |}.

Definition buildSeedQueue (baseDomain : jstring) : list jstring :=
  uniq (omap (λ href, normUrl P href baseDomain)
             (baseDomain :: priorityPaths ++ SCRAPER_EXTRA_URLS senv)).

(** The [for (const loc of locs)] loop of [fetchSitemapUrls]. *)
Fixpoint file_locs (baseDomain : jstring) (locs queue out : list jstring)
    : list jstring * list jstring :=
  match locs with
  | [] => (queue, out)
  | loc :: rest =>
      match normUrl P loc baseDomain with
      | None => file_locs baseDomain rest queue out
      | Some n =>
          if ends_with n (str ".xml") || includes (toLowerCase n) (str "sitemap")
          then file_locs baseDomain rest (queue ++ [n]) out
          else file_locs baseDomain rest queue (out ++ [n])
      end
  end.

(** The [while] loop of [fetchSitemapUrls]. [fetched] logs the urls
    handed to [fetch]. *)
Fixpoint sitemap_loop (fuel : nat) (baseDomain : jstring) (seen : gset jstring)
    (queue out fetched : list jstring) : option (list jstring * list jstring) :=
  match fuel with
  | O => None
  | S fuel' =>
      match queue with
      | [] => Some (out, fetched)
      | sm :: queue' =>
          if negb (Z.of_nat (size seen) <? 40) then Some (out, fetched)
          else if bool_decide (sm ∈ seen) then
            sitemap_loop fuel' baseDomain seen queue' out fetched
          else
            let seen' := seen ∪ {[sm]} in
            let fetched' := fetched ++ [sm] in
            match fetch_sitemap P sm with
            | None => sitemap_loop fuel' baseDomain seen' queue' out fetched'
            | Some res =>
                let ct := toLowerCase (default [] (res_content_type res)) in
                if negb (res_ok res) then
                  sitemap_loop fuel' baseDomain seen' queue' out fetched'
                else if negb (includes ct (str "xml")) && negb (includes ct (str "text")) then
                  sitemap_loop fuel' baseDomain seen' queue' out fetched'
                else
                  let '(queue'', out') :=
                    file_locs baseDomain (extractSitemapUrls P (res_body res)) queue' out in
                  sitemap_loop fuel' baseDomain seen' queue'' out' fetched'
            end
      end
  end.

(** The loop returns from these variables, given enough fuel. *)
Definition sitemap_returns (base : jstring) (seen : gset jstring)
    (queue out fetched : list jstring) : Prop :=
  ∃ n, ∀ fuel, (n <= fuel)%nat →
    ∃ r, sitemap_loop fuel base seen queue out fetched = Some r.

(** [fetchSitemapUrls]: [Throw] when [new URL] rejects the base. *)
Definition fetchSitemapUrls (fuel : nat) (baseDomain : jstring) (fetched : list jstring)
    : option (outcome (list jstring) * list jstring) :=
  match resolve P (str "/sitemap.xml") baseDomain,
        resolve P (str "/wp-sitemap.xml") baseDomain with
  | Some a, Some b =>
      match sitemap_loop fuel baseDomain ∅ [a; b] [] fetched with
      | None => None
      | Some (out, fetched') => Some (Return (uniq out), fetched')
      end
  | _, _ => Some (Throw (str "Invalid URL"), fetched)
  end.

(** [fetchPage]: the html of a page, [None] for its [ok: false]. *)
Definition fetchPage (url : jstring) : option jstring :=
  match fetch_page P url with
  | None => None
  | Some res =>
      if negb (res_ok res) then None
      else match res_content_type res with
           | Some ct => if includes ct (str "text/html") then Some (res_body res) else None
           | None => None
           end
  end.

Definition canVisitMore (visited : gset jstring) : bool :=
  (MAX_PAGES senv <=? 0) || (Z.of_nat (size visited) <? MAX_PAGES senv).

(** The inner [while] loop, which fills the batch. *)
Fixpoint fill_batch (queue : list jstring) (visited : gset jstring) (batch : list jstring)
    : list jstring * gset jstring * list jstring :=
  match queue with
  | [] => ([], visited, batch)
  | url :: queue' =>
      if Z.of_nat (length batch) <? CONCURRENCY senv then
        if negb (bool_decide (url ∈ visited)) && canVisitMore visited
        then fill_batch queue' (visited ∪ {[url]}) (batch ++ [url])
        else fill_batch queue' visited batch
      else (queue, visited, batch)
  end.

(** What one task does once its fetch has completed. *)
Definition run_task (visited : gset jstring) (url : jstring)
    (acc : list PageData * list jstring) : list PageData * list jstring :=
  let '(pages, discovered) := acc in
  match fetchPage url with
  | None => acc
  | Some html =>
      let ex := extractText html in
      if (length (ex_text ex) <? 20)%nat then acc
      else
        (pages ++ [{| page_url := url; page_title := ex_title ex;
                      page_content := slice (ex_text ex) 0 8000 |}],
         discovered ++
           filter (λ n, n ∉ visited) (omap (λ href, normUrl P href url) (ex_links ex)))
  end.

(** The variables of [scrapesite] that its loop updates; [cs_fetched]
    logs the urls handed to [fetch]. *)
Record crawl_state := {
  cs_visited : gset jstring;
  cs_queue : list jstring;
  cs_pages : list PageData;
  cs_fetched : list jstring
}.

Inductive crawl_turn : Type :=
  | Again (st : crawl_state)
  | Leave (st : crawl_state).

(** One turn of the outer [while] loop of [scrapesite]. *)
Definition crawl_step (st : crawl_state) : crawl_turn :=
  match cs_queue st with
  | [] => Leave st
  | _ =>
      if negb (canVisitMore (cs_visited st)) then Leave st
      else
        let '(queue', visited', batch) := fill_batch (cs_queue st) (cs_visited st) [] in
        match batch with
        | [] => Leave {| cs_visited := visited'; cs_queue := queue';
                         cs_pages := cs_pages st; cs_fetched := cs_fetched st |}
        | _ =>
            let '(pages', discovered) :=
              foldl (λ acc url, run_task visited' url acc) (cs_pages st, []) (completion P batch) in
            let core := filter (λ u, is_core u = true) discovered in
            let rest := filter (λ u, is_core u ≠ true) discovered in
            Again {| cs_visited := visited'; cs_queue := queue' ++ core ++ rest;
                     cs_pages := pages'; cs_fetched := cs_fetched st ++ batch |}
        end
  end.

Fixpoint crawl_loop (fuel : nat) (st : crawl_state) : option crawl_state :=
  match fuel with
  | O => None
  | S fuel' =>
      match crawl_step st with
      | Leave st' => Some st'
      | Again st' => crawl_loop fuel' st'
      end
  end.

(** The state in which [scrapesite] enters its loop. *)
Definition crawl_start (fuel : nat) (baseDomain : jstring) (fetched0 : list jstring)
    : option crawl_state :=
  match fetchSitemapUrls fuel baseDomain fetched0 with
  | None => None
  | Some (r, fetched1) =>
      let sitemapUrls := match r with Return l => l | Throw _ => [] end in
      Some {| cs_visited := ∅; cs_queue := buildSeedQueue baseDomain ++ sitemapUrls;
              cs_pages := []; cs_fetched := fetched1 |}
  end.

(** The states a run of the loop passes through, the one it leaves in
    included. *)
Inductive crawl_reaches : crawl_state → crawl_state → Prop :=
  | reaches_here st : crawl_reaches st st
  | reaches_again st st' st'' :
      crawl_step st = Again st' → crawl_reaches st' st'' → crawl_reaches st st''
  | reaches_leave st st' :
      crawl_step st = Leave st' → crawl_reaches st st'.

(** The invariant of the loop; [fetched1] is the log when it was entered.
    The urls fetched since are the visited ones, each fetched once, and
    no more pages were kept than urls fetched. *)
Definition crawl_inv (fetched1 : list jstring) (st : crawl_state) : Prop :=
  Z.of_nat (size (cs_visited st)) <= MAX_PAGES senv
  ∧ ∃ page_fetches,
      cs_fetched st = fetched1 ++ page_fetches
      ∧ NoDup page_fetches
      ∧ cs_visited st = list_to_set page_fetches
      ∧ (length (cs_pages st) <= length page_fetches)%nat.

(** A url that [normUrl] returned. *)
Definition from_normUrl (u : jstring) : Prop :=
  ∃ href base, normUrl P href base = Some u.

(** A page as a task pushes it: the extraction of the html fetched for its
    url, whose cleaned text has 20 characters or more. *)
Definition kept_page (p : PageData) : Prop :=
  ∃ html, fetchPage (page_url p) = Some html
    ∧ (20 <= length (ex_text (extractText html)))%nat
    ∧ page_title p = ex_title (extractText html)
    ∧ page_content p = slice (ex_text (extractText html)) 0 8000.

(** What the loop keeps whatever the budget; [fetched1] is the log when it
    was entered. The queue holds urls that [normUrl] returned, the pages are
    kept pages, and the urls fetched since are the visited ones, each
    fetched once. *)
Definition crawl_sound (fetched1 : list jstring) (st : crawl_state) : Prop :=
  Forall from_normUrl (cs_queue st)
  ∧ Forall kept_page (cs_pages st)
  ∧ ∃ page_fetches,
      cs_fetched st = fetched1 ++ page_fetches
      ∧ NoDup page_fetches
      ∧ Forall from_normUrl page_fetches
      ∧ cs_visited st = list_to_set page_fetches.

(** No two pages kept share a url, and their urls are visited ones. *)
Definition crawl_distinct (st : crawl_state) : Prop :=
  NoDup (page_url <$> cs_pages st)
  ∧ ∀ u, u ∈ page_url <$> cs_pages st → u ∈ cs_visited st.

(** [scrapesite(domain)]: the pages and the log of fetched urls. *)
Definition scrapesite (fuel : nat) (domain : jstring) (fetched0 : list jstring)
    : option (list PageData * list jstring) :=
  let baseDomain := or_else domain (SITE_DOMAIN senv) in
  match crawl_start fuel baseDomain fetched0 with
  | None => None
  | Some st0 =>
      match crawl_loop fuel st0 with
      | None => None
      | Some st => Some (cs_pages st, cs_fetched st)
      end
  end.

End WithPlatform.

End Scraper.

Import Scraper.

(** ** Rebuild orchestration ([buildRagIndex], [ensureRagIndex], rag.ts) *)

Module Rag.

(** What the code can observe and change: the store and the network. *)
Record World := {
  db : Database;
  requests : list jstring
}.

(** The platform of the index build: the crawler's, the clocks, and
    [extractFactsObject], a pure function of the pages made of
    regular-expression matches, which is kept abstract: no property below
    depends on which facts it finds. *)
Record BuildPlatform := {
  crawl : Platform;
  senv : ScraperEnv;
  (** [datetime('now')] during the call *)
  sql_now : jstring;
  (** [new Date().toISOString()] *)
  iso_now : jstring;
  extractFactsObject : list PageData → SiteFacts
}.

Record EnsureResult := {
  er_domain : jstring;
  er_siteName : jstring;
  er_pageCount : nat;
  er_chunkCount : nat;
  er_indexedAt : jstring;
  er_built : bool
}.

Record BuildResult := {
  br_domain : jstring;
  br_siteName : jstring;
  br_pageCount : nat;
  br_chunkCount : nat
}.

Section WithEnv.
Variable env : RagEnv.
Variable B : BuildPlatform.

(** [pages.map(p => ({url, title: p.title || "Untitled", chunks: chunkText(p.content)}))] *)
Fixpoint prepare_pages (fuel : nat) (pages : list PageData) : option (list PreparedPage) :=
  match pages with
  | [] => Some []
  | p :: rest =>
      match Chunker.chunkText env fuel (page_content p), prepare_pages fuel rest with
      | Some chunks, Some rest' =>
          Some ({| prep_url := page_url p; prep_title := or_else (page_title p) untitled;
                   prep_chunks := chunks |} :: rest')
      | _, _ => None
      end
  end.

Definition no_pages (domain : jstring) : jstring :=
  str "RAG bootstrap failed: no pages were scraped from " ++ domain
  ++ str ". Check DOMAINNAME and site reachability.".

Definition no_chunks (domain : jstring) : jstring :=
  str "RAG bootstrap failed: pages were scraped but no chunks were generated for "
  ++ domain ++ str ".".

(** [buildRagIndex] after [await scrapesite(domain)] has given [pages]. *)
Definition build_from_pages (fuel : nat) (domain siteName : jstring)
    (pages : list PageData) (d : Database) : option (outcome BuildResult * Database) :=
  match pages with
  | [] => Some (Throw (no_pages domain), d)
  | _ =>
      match prepare_pages fuel pages with
      | None => None
      | Some preparedPages =>
          match replaceRagChunks (sql_now B) domain (Some siteName) preparedPages d with
          | (Throw e, d') => Some (Throw e, d')
          | (Return stats, d') =>
              if decide (chunkCount stats = 0%nat) then Some (Throw (no_chunks domain), d')
              else
                Some (Return {| br_domain := domain; br_siteName := siteName;
                                br_pageCount := pageCount stats;
                                br_chunkCount := chunkCount stats |},
                      putSiteFacts (sql_now B) domain (extractFactsObject B pages) d')
          end
      end
  end.

Definition buildRagIndex (fuel : nat) (domain siteName : jstring) (w : World)
    : option (outcome BuildResult * World) :=
  match scrapesite (crawl B) (senv B) fuel domain (requests w) with
  | None => None
  | Some (pages, requests') =>
      match build_from_pages fuel domain siteName pages (db w) with
      | None => None
      | Some (r, d') => Some (r, {| db := d'; requests := requests' |})
      end
  end.

(** The second half of [ensureRagIndex]: build, and report [built: true]. *)
Definition rebuild (fuel : nat) (domain siteName : jstring) (w : World)
    : option (outcome EnsureResult * World) :=
  match buildRagIndex fuel domain siteName w with
  | None => None
  | Some (Throw e, w') => Some (Throw e, w')
  | Some (Return built, w') =>
      Some (Return {| er_domain := br_domain built; er_siteName := br_siteName built;
                      er_pageCount := br_pageCount built;
                      er_chunkCount := br_chunkCount built;
                      er_indexedAt := iso_now B; er_built := true |}, w')
  end.

Definition ensureRagIndex (fuel : nat) (domain siteName : jstring) (force : bool)
    (w : World) : option (outcome EnsureResult * World) :=
  match getRagMeta domain (db w) with
  | Some meta =>
      if negb force && (0 <? meta_chunkCount meta)%nat then
        Some (Return {| er_domain := domain;
                        er_siteName := match meta_siteName meta with
                                       | Some name => or_else name siteName
                                       | None => siteName
                                       end;
                        er_pageCount := meta_pageCount meta;
                        er_chunkCount := meta_chunkCount meta;
                        er_indexedAt := meta_indexedAt meta;
                        er_built := false |}, w)
      else rebuild fuel domain siteName w
  | None => rebuild fuel domain siteName w
  end.

End WithEnv.

End Rag.

(** ** Index state of the server ([refreshRag] and the index check of the
       chat endpoints, server.ts) *)

Module Server.
Import Rag.




Section WithEnv.
Variable env : RagEnv.
Variable B : BuildPlatform.



End WithEnv.

End Server.

(** ** Sample sites and stores *)

Module Samples.

Definition acme : jstring := str "https://acme.test".

Definition acme_pages : list PreparedPage :=
  [ {| prep_url := str "https://acme.test/b"; prep_title := str "T";
       prep_chunks := [str "c"] |};
    {| prep_url := str "https://acme.test/a"; prep_title := str "T";
       prep_chunks := [str "c"] |} ].

(** The store after a first build of the sample site. *)
Definition acme_db : Database :=
  (replaceRagChunks (str "2026-01-01 01:00:00") acme (Some (str "Acme")) acme_pages empty_db).2.

(** A store with the one-page site of the specification's scenario. *)
Definition plumber_db : Database :=
  (replaceRagChunks (str "2026-01-01 01:00:00") acme (Some (str "Acme"))
     [ {| prep_url := str "https://acme.test/";
          prep_title := str "Acme plumbing";
          prep_chunks :=
            [str "Acme Plumbing services include drain cleaning and pipe repair."] |} ]
     empty_db).2.

(** A page whose text is blank. *)
Definition blank_pages : list PageData :=
  [ {| page_url := str "https://acme.test/"; page_title := str "Home";
       page_content := str "   " |} ].

(** A site whose first two seeds fail and whose [/about] page answers. *)
Definition about_only : Platform := {|
  fetch_sitemap := λ _, None;
  fetch_page := λ u,
    if bool_decide (u = str "/about")
    then Some {| res_ok := true;
                 res_content_type := Some (str "text/html; charset=utf-8");
                 res_body := str "We repair pipes and clean drains." |}
    else None;
  completion := λ batch, batch;
  normUrl := λ href _, Some href;
  resolve := λ path base, Some (base ++ path);
  parse_html := λ html, {| ex_title := str "About"; ex_text := html; ex_links := [] |};
  extractSitemapUrls := λ _, []
|}.

Definition two_pages : ScraperEnv :=
  {| SITE_DOMAIN := str "https://example.com"; MAX_PAGES := 2; CONCURRENCY := 3;
     SCRAPER_EXTRA_URLS := [] |}.

Definition sample_platform : Rag.BuildPlatform := {|
  Rag.crawl := about_only;
  Rag.senv := two_pages;
  Rag.sql_now := str "2026-01-02 01:00:00";
  Rag.iso_now := str "2026-01-02T01:00:00.000Z";
  Rag.extractFactsObject := λ _,
    {| ownerName := None; ownerTitle := None; phones := []; emails := [];
       addresses := []; hours := None; services := [] |}
|}.

Definition tight_env : RagEnv :=
  {| CHUNK_SIZE := 5; CHUNK_OVERLAP := 2; TOP_K := 8; MAX_CONTEXT_CHARS := 12000;
     RAG_MIN_TOPIC_SCORE := 2 |}.

Definition stuck_env : RagEnv :=
  {| CHUNK_SIZE := 5; CHUNK_OVERLAP := 5; TOP_K := 8; MAX_CONTEXT_CHARS := 12000;
     RAG_MIN_TOPIC_SCORE := 2 |}.

(** The same site with a budget of five pages, which reaches [/about]. *)
Definition five_pages : ScraperEnv :=
  {| SITE_DOMAIN := str "https://example.com"; MAX_PAGES := 5; CONCURRENCY := 3;
     SCRAPER_EXTRA_URLS := [] |}.

(** A crawler configured without workers. *)
Definition no_workers : ScraperEnv :=
  {| SITE_DOMAIN := str "https://example.com"; MAX_PAGES := 0; CONCURRENCY := 0;
     SCRAPER_EXTRA_URLS := [] |}.

Definition working_platform : Rag.BuildPlatform := {|
  Rag.crawl := about_only;
  Rag.senv := five_pages;
  Rag.sql_now := str "2026-01-02 01:00:00";
  Rag.iso_now := str "2026-01-02T01:00:00.000Z";
  Rag.extractFactsObject := λ _,
    {| ownerName := None; ownerTitle := None; phones := []; emails := [];
       addresses := []; hours := None; services := [] |}
|}.

End Samples.

Import Rag Samples.

(** * Properties *)

(** ** Strings *)

Module JsFacts.

Lemma slice_window (s : jstring) (a b : Z) :
  0 <= a <= Z.of_nat (length s) → a <= b →
  slice s a b = take (Z.to_nat (b - a)) (drop (Z.to_nat a) s).
Proof.
  intros Ha Hb. unfold slice.
  destruct (Z.ltb_spec a 0); [lia|]. destruct (Z.ltb_spec b 0); [lia|].
  rewrite (Z.min_l a) by lia.
  destruct (Z.le_ge_cases b (Z.of_nat (length s))).
  - rewrite Z.min_l by lia. reflexivity.
  - rewrite Z.min_r by lia.
    rewrite !take_ge; [reflexivity|rewrite length_drop; lia..].
Qed.

Lemma length_slice (s : jstring) (a b : Z) :
  0 <= a → a <= b <= Z.of_nat (length s) →
  Z.of_nat (length (slice s a b)) = b - a.
Proof.
  intros Ha Hb. rewrite slice_window by lia.
  rewrite length_take, length_drop. lia.
Qed.

(** [slice] clamps its end to the string. *)
Lemma slice_min_end (s : jstring) (a b : Z) :
  0 <= b → slice s a (Z.min (Z.of_nat (length s)) b) = slice s a b.
Proof.
  intros Hb. unfold slice.
  destruct (Z.ltb_spec b 0); [lia|].
  destruct (Z.ltb_spec (Z.min (Z.of_nat (length s)) b) 0); [lia|].
  replace (Z.min (Z.min (Z.of_nat (length s)) b) (Z.of_nat (length s)))
    with (Z.min b (Z.of_nat (length s))) by lia.
  reflexivity.
Qed.

Lemma starts_with_app (t s : jstring) : starts_with t s = true ↔ ∃ post, s = t ++ post.
Proof.
  revert s. induction t as [|a t IH]; intros s; simpl.
  - split; eauto.
  - destruct s as [|b s]; [split; [done|by intros [? ?]]|].
    destruct (decide (a = b)) as [->|Hne].
    + rewrite IH. split; intros [post E]; exists post; [by rewrite E|by injection E].
    + split; [done|]. intros [post E]. injection E as ??. done.
Qed.

Lemma includes_app (s t : jstring) :
  includes s t = true ↔ ∃ pre post, s = pre ++ t ++ post.
Proof.
  induction s as [|c s IH]; simpl.
  - rewrite orb_false_r, starts_with_app. split.
    + intros [post E]. by exists [], post.
    + intros (pre & post & E). symmetry in E.
      apply app_eq_nil in E as [-> E]. apply app_eq_nil in E as [-> ->]. by exists [].
  - rewrite orb_true_iff, IH, starts_with_app. split.
    + intros [[post E]|(pre & post & E)]; [by exists [], post|].
      exists (c :: pre), post. by rewrite E.
    + intros ([|c' pre] & post & E); [left; by exists post|].
      right. injection E as -> E. eauto.
Qed.

Lemma includes_app_l (a b t : jstring) : includes a t = true → includes (a ++ b) t = true.
Proof.
  rewrite !includes_app. intros (pre & post & ->). exists pre, (post ++ b).
  by rewrite <- !app_assoc.
Qed.

Lemma includes_fmap (f : ascii → ascii) (s t : jstring) :
  includes s t = true → includes (f <$> s) (f <$> t) = true.
Proof.
  rewrite !includes_app. intros (pre & post & ->).
  exists (f <$> pre), (f <$> post). by rewrite !fmap_app.
Qed.

(** A separator that does not occur in [t] splits the search for [t]. *)
Lemma starts_with_sep (t a b : jstring) (sep : ascii) :
  sep ∉ t → starts_with t (a ++ sep :: b) = true → starts_with t a = true.
Proof.
  revert a. induction t as [|c t IH]; intros a Hsep; [done|].
  destruct a as [|x a]; simpl.
  - destruct (decide (c = sep)) as [->|]; [|done]. exfalso. apply Hsep. left.
  - destruct (decide (c = x)); [|done]. apply IH. intros ?. apply Hsep. by right.
Qed.

Lemma includes_sep (t a b : jstring) (sep : ascii) :
  t ≠ [] → sep ∉ t →
  includes (a ++ sep :: b) t = true → includes a t = true ∨ includes b t = true.
Proof.
  intros Hne Hsep. induction a as [|x a IH]; simpl.
  - destruct t as [|c t]; [done|]. simpl.
    destruct (decide (c = sep)) as [->|]; [exfalso; apply Hsep; left|]. simpl. auto.
  - rewrite !orb_true_iff. intros [H|H].
    + left. left. by apply (starts_with_sep t (x :: a) b sep).
    + destruct (IH H); auto.
Qed.

Lemma occurrences_go_none (t s : jstring) :
  includes s t = false → ∀ skip, occurrences_go t skip s = 0%nat.
Proof.
  induction s as [|c s IH]; [done|]. simpl. intros H skip.
  apply orb_false_iff in H as [H1 H2].
  destruct skip; [|by apply IH]. simpl in H1. rewrite H1. by apply IH.
Qed.

Lemma occurrences_none (s t : jstring) : includes s t = false → occurrences s t = 0%nat.
Proof. intros H. by apply occurrences_go_none. Qed.

Lemma occurrences_some (s t : jstring) :
  t ≠ [] → includes s t = true → (0 < occurrences s t)%nat.
Proof.
  intros Hne. unfold occurrences. induction s as [|c s IH].
  - destruct t; [done|]. done.
  - change (includes (c :: s) t) with (starts_with t (c :: s) || includes s t).
    change (occurrences_go t 0 (c :: s))
      with (if starts_with t (c :: s) then S (occurrences_go t (pred (length t)) s)
            else occurrences_go t 0 s).
    destruct (starts_with t (c :: s)); simpl; [lia|done].
Qed.

Lemma elem_of_rev (c : ascii) (l : jstring) : c ∈ rev l → c ∈ l.
Proof. intros H. apply list_elem_of_In, in_rev. by apply list_elem_of_In. Qed.

Lemma length_join (sep : jstring) (parts : list jstring) :
  length (join sep parts)
  = (Retriever.total_length parts + length sep * pred (length parts))%nat.
Proof.
  unfold Retriever.total_length.
  induction parts as [|p [|q rest] IH]; simpl in *; [lia..|].
  rewrite !length_app, IH. simpl. lia.
Qed.

Lemma filter_all {A} (P : A → Prop) `{!∀ x, Decision (P x)} (l : list A) :
  Forall P l → filter P l = l.
Proof.
  induction 1 as [|x l Hx Hl IH]; [done|]. by rewrite filter_cons_True, IH.
Qed.

Lemma filter_none {A} (P : A → Prop) `{!∀ x, Decision (P x)} (l : list A) :
  Forall (λ x, ¬ P x) l → filter P l = [].
Proof.
  induction 1 as [|x l Hx Hl IH]; [done|]. by rewrite filter_cons_False.
Qed.

Lemma StronglySorted_filter {A} (R : relation A) (P : A → Prop)
    `{!∀ x, Decision (P x)} (l : list A) :
  StronglySorted R l → StronglySorted R (filter P l).
Proof.
  induction 1 as [|x l Hl IH Hx]; [constructor|].
  rewrite filter_cons. destruct (decide (P x)); [|done].
  constructor; [done|]. rewrite Forall_forall in *.
  intros y [_ Hy]%list_elem_of_filter. auto.
Qed.

(** *** White space and text *)

Lemma elem_of_rev_2 (c : ascii) (l : jstring) : c ∈ l → c ∈ rev l.
Proof. intros H. apply list_elem_of_In. rewrite <- in_rev. by apply list_elem_of_In. Qed.

Lemma trim_start_keeps (c : ascii) (s : jstring) :
  c ∈ s → is_space c = false → c ∈ trim_start s.
Proof.
  intros Hc Hsp. induction s as [|x s IH]; [done|]. simpl.
  destruct (is_space x) eqn:Ex; [|done].
  apply elem_of_cons in Hc as [->|Hc]; [congruence|by apply IH].
Qed.

Lemma trim_start_head (s : jstring) (c : ascii) (r : jstring) :
  trim_start s = c :: r → is_space c = false.
Proof.
  induction s as [|x s IH]; [done|]. simpl.
  destruct (is_space x) eqn:Ex; [done|]. by intros [= <- _].
Qed.

Lemma trim_start_suffix (s : jstring) : ∃ pre, s = pre ++ trim_start s.
Proof.
  induction s as [|x s [pre IH]]; [by exists []|]. simpl.
  destruct (is_space x); [|by exists []]. exists (x :: pre). simpl. by f_equal.
Qed.

Lemma trim_end_prefix (s : jstring) : ∃ post, s = trim_end s ++ post.
Proof.
  unfold trim_end. destruct (trim_start_suffix (rev s)) as [pre E].
  exists (rev pre). rewrite <- rev_app_distr, <- E. by rewrite rev_involutive.
Qed.

Lemma trim_head (s : jstring) (c : ascii) (r : jstring) :
  trim s = c :: r → is_space c = false.
Proof.
  unfold trim. intros E. destruct (trim_end_prefix (trim_start s)) as [post Hp].
  rewrite E in Hp. by apply (trim_start_head s c (r ++ post)).
Qed.

Lemma collapse_go_keeps (c : ascii) (s : jstring) : ∀ in_run,
  c ∈ s → is_space c = false → c ∈ collapse_go in_run s.
Proof.
  induction s as [|x s IH]; intros in_run Hc Hsp; [done|]. simpl.
  apply elem_of_cons in Hc as [->|Hc].
  - rewrite Hsp. left.
  - destruct (is_space x); [destruct in_run; [|right]; by apply IH|right; by apply IH].
Qed.

Lemma normalize_has_text (s : jstring) : has_text s → Chunker.normalize s ≠ [].
Proof.
  intros (c & Hc & Hsp) E.
  assert (c ∈ Chunker.normalize s) as Hin.
  { unfold Chunker.normalize, trim, trim_end. apply elem_of_rev_2.
    apply trim_start_keeps; [|done]. apply elem_of_rev_2.
    apply trim_start_keeps; [|done]. by apply collapse_go_keeps. }
  rewrite E in Hin. by apply elem_of_nil in Hin.
Qed.

(** What the crawler keeps of a page has text: the cleaned text starts
    with a character that is not white space, and so do its first 8000
    characters. *)
Lemma kept_content_has_text (raw : jstring) :
  (length (trim (collapse_ws raw)) <? 20)%nat = false →
  has_text (slice (trim (collapse_ws raw)) 0 8000).
Proof.
  intros Hlen. apply Nat.ltb_ge in Hlen.
  destruct (trim (collapse_ws raw)) as [|c r] eqn:E; [simpl in Hlen; lia|].
  exists c. split; [|exact (trim_head (collapse_ws raw) c r E)].
  rewrite slice_window by (simpl; lia). simpl. left.
Qed.

(** The count of [split] is of matches that do not overlap. *)
Example occurrences_examples :
  occurrences (str "aab") (str "ab") = 1%nat
  ∧ occurrences (str "aaaa") (str "aa") = 2%nat
  ∧ occurrences (str "drain cleaning, drain repair") (str "drain") = 2%nat.
Proof. vm_compute. repeat split; reflexivity. Qed.

Example slice_examples :
  slice (str "abcdef") 2 4 = str "cd"
  ∧ slice (str "abcdef") 4 100 = str "ef"
  ∧ slice (str "abcdef") 0 (-2) = str "abcd"
  ∧ slice (str "abcdef") 4 2 = [].
Proof. vm_compute. repeat split; reflexivity. Qed.

Example of_nat_examples : of_nat 0 = str "0" ∧ of_nat 1203 = str "1203".
Proof. vm_compute. split; reflexivity. Qed.

End JsFacts.

Import JsFacts.

(** ** Index store *)

Module DbFacts.

Lemma url_le_antisym (u v : jstring) : url_le u v → url_le v u → u = v.
Proof.
  unfold url_le. intros H1 H2.
  rewrite <- (list_ascii_of_string_of_list_ascii u), <- (list_ascii_of_string_of_list_ascii v).
  f_equal. by apply (anti_symm String.le).
Qed.

#[global] Instance row_le_trans : Transitive row_le.
Proof.
  intros a b c. unfold row_le. intros H1 H2.
  repeat case_decide; try congruence; try lia.
  - exfalso. apply url_le_antisym in H1; [done|]. by replace (row_url a) with (row_url c).
  - unfold url_le in *. by etrans.
Qed.

#[global] Instance row_le_total : Total row_le.
Proof.
  intros a b. unfold row_le.
  destruct (decide (row_url a = row_url b)), (decide (row_url b = row_url a));
    try congruence; [lia|]. unfold url_le. apply total, _.
Qed.

Section Replace.
Variables now domain : jstring.

Lemma insert_chunk_fresh (r : RagChunk) (rows : list RagChunk) :
  (∀ r', r' ∈ rows → same_key r r' = false) →
  insert_chunk r rows = Some (rows ++ [r]).
Proof.
  intros H. unfold insert_chunk.
  replace (existsb (same_key r) rows) with false; [done|].
  symmetry. apply not_true_is_false. intros (r' & Hin & Hk)%existsb_exists.
  apply list_elem_of_In in Hin. rewrite H in Hk by done. done.
Qed.

(** The chunks of a page go in when no row of the page with a chunk id from
    [i] on is there yet. *)
Lemma insert_chunks_ok (url title : jstring) : ∀ chunks i rows cc,
  (∀ r, r ∈ rows → row_domain r = domain → row_url r = url → (row_chunkId r < i)%nat) →
  insert_chunks now domain url title i chunks rows cc
  = Some (rows ++ imap (λ j, new_row now domain url title (i + j)) chunks,
          (cc + length chunks)%nat).
Proof.
  induction chunks as [|c chunks IH]; intros i rows cc Hrows; simpl.
  - by rewrite app_nil_r, Nat.add_0_r.
  - rewrite insert_chunk_fresh.
    + rewrite IH.
      * rewrite <- app_assoc. simpl. rewrite Nat.add_0_r. do 2 f_equal.
        -- do 2 f_equal. apply imap_ext. intros j x _. simpl. f_equal. lia.
        -- lia.
      * intros r [Hr|Hr]%elem_of_app Hd Hu; [specialize (Hrows r Hr Hd Hu); lia|].
        apply list_elem_of_singleton in Hr. subst r. simpl. lia.
    + intros r' Hr'. unfold same_key. apply bool_decide_eq_false.
      simpl. intros (Hd & Hu & Hi). specialize (Hrows r' Hr').
      specialize (Hrows (eq_sym Hd) (eq_sym Hu)). lia.
Qed.

Lemma elem_of_page_rows (r : RagChunk) (p : PreparedPage) :
  r ∈ page_rows now domain p →
  row_domain r = domain ∧ row_url r = prep_url p
  ∧ prep_chunks p !! row_chunkId r = Some (row_content r)
  ∧ r = new_row now domain (prep_url p) (prep_title p) (row_chunkId r) (row_content r).
Proof.
  unfold page_rows. intros (i & c & -> & Hc)%elem_of_lookup_imap. simpl. auto.
Qed.

Lemma elem_of_new_rows (r : RagChunk) (l : list PreparedPage) :
  r ∈ new_rows now domain l ↔ ∃ p, p ∈ l ∧ r ∈ page_rows now domain p.
Proof.
  unfold new_rows. rewrite list_elem_of_join. split.
  - intros (rows & Hr & (p & -> & Hp)%list_elem_of_fmap). eauto.
  - intros (p & Hp & Hr). exists (page_rows now domain p). split; [done|].
    apply list_elem_of_fmap. eauto.
Qed.

Lemma insert_pages_ok : ∀ (l : list PreparedPage) rows pc cc,
  NoDup (prep_url <$> l) →
  (∀ r, r ∈ rows → row_domain r = domain → row_url r ∉ prep_url <$> l) →
  insert_pages now domain l rows pc cc
  = Some (rows ++ new_rows now domain l, (pc + length l)%nat,
          (cc + length (new_rows now domain l))%nat).
Proof.
  induction l as [|p l IH]; intros rows pc cc Hnd Hrows; simpl.
  - unfold new_rows. simpl. by rewrite app_nil_r, !Nat.add_0_r.
  - rewrite fmap_cons in Hnd. apply NoDup_cons in Hnd as [Hp Hnd].
    rewrite insert_chunks_ok.
    + rewrite IH; [|done|].
      * unfold new_rows. rewrite fmap_cons. simpl mjoin.
        rewrite length_app, <- app_assoc. unfold page_rows. rewrite length_imap.
        f_equal. f_equal; [f_equal|lia]. lia.
      * intros r [Hr|Hr]%elem_of_app Hd.
        -- specialize (Hrows r Hr Hd). rewrite fmap_cons in Hrows.
           intros ?. apply Hrows. by right.
        -- apply elem_of_lookup_imap in Hr as (i & c & -> & Hc). simpl. done.
    + intros r Hr Hd Hu. exfalso. apply (Hrows r Hr Hd). rewrite fmap_cons, Hu. left.
Qed.

Lemma replaceRagChunks_ok (siteName : option jstring) (l : list PreparedPage) (d : Database) :
  NoDup (prep_url <$> l) →
  replaceRagChunks now domain siteName l d
  = (Return {| pageCount := length l; chunkCount := length (new_rows now domain l) |},
     {| site_facts := site_facts d;
        rag_chunks := filter (λ r, row_domain r ≠ domain) (rag_chunks d)
                      ++ new_rows now domain l;
        rag_meta := <[domain := {| meta_siteName := siteName;
                                   meta_pageCount := length l;
                                   meta_chunkCount := length (new_rows now domain l);
                                   meta_indexedAt := now |}]> (rag_meta d) |}).
Proof.
  intros Hnd. unfold replaceRagChunks. rewrite insert_pages_ok; [done..|].
  intros r [Hne _]%list_elem_of_filter Hd. done.
Qed.

Lemma filter_new_rows (l : list PreparedPage) :
  filter (λ r, row_domain r = domain) (new_rows now domain l) = new_rows now domain l.
Proof.
  apply filter_all. apply Forall_forall.
  intros r (p & _ & Hr)%elem_of_new_rows. by apply elem_of_page_rows in Hr as (? & _).
Qed.

Lemma getRagChunks_after_replace (siteName : option jstring) (l : list PreparedPage)
    (d : Database) :
  NoDup (prep_url <$> l) →
  getRagChunks domain (replaceRagChunks now domain siteName l d).2
  = merge_sort row_le (new_rows now domain l).
Proof.
  intros Hnd. rewrite replaceRagChunks_ok by done. unfold getRagChunks. simpl.
  rewrite filter_app, filter_new_rows.
  rewrite (filter_none _ (filter _ _)); [by rewrite app_nil_l|].
  apply Forall_forall. intros r [Hne _]%list_elem_of_filter. done.
Qed.

(** Two rows written by one rebuild with the same url and chunk id are
    one row, when no two pages share a url. *)
Lemma new_rows_key_inj (l : list PreparedPage) (r1 r2 : RagChunk) :
  NoDup (prep_url <$> l) →
  r1 ∈ new_rows now domain l → r2 ∈ new_rows now domain l →
  row_url r1 = row_url r2 → row_chunkId r1 = row_chunkId r2 → r1 = r2.
Proof.
  intros Hnd (p1 & Hp1 & H1)%elem_of_new_rows (p2 & Hp2 & H2)%elem_of_new_rows Hu Hi.
  apply elem_of_page_rows in H1 as (_ & Hu1 & Hc1 & E1).
  apply elem_of_page_rows in H2 as (_ & Hu2 & Hc2 & E2).
  assert (p1 = p2) as <-.
  { apply list_elem_of_lookup in Hp1 as [i1 Hi1]. apply list_elem_of_lookup in Hp2 as [i2 Hi2].
    assert (i1 = i2) as <-; [|congruence].
    eapply NoDup_lookup; [done| |]; rewrite list_lookup_fmap.
    - by rewrite Hi1.
    - rewrite Hi2. simpl. congruence. }
  rewrite E1, E2. rewrite Hi in *. congruence.
Qed.

Lemma page_rows_sorted (p : PreparedPage) : StronglySorted row_le (page_rows now domain p).
Proof.
  unfold page_rows.
  assert (∀ chunks k, StronglySorted row_le
            (imap (λ j, new_row now domain (prep_url p) (prep_title p) (k + j)) chunks)) as H.
  { induction chunks as [|c chunks IH]; intros k; simpl; [constructor|].
    constructor.
    - erewrite imap_ext; [apply (IH (S k))|]. intros j x _. simpl. f_equal. lia.
    - apply Forall_forall. intros r (j & x & -> & _)%elem_of_lookup_imap.
      unfold row_le. simpl. rewrite decide_True by done. lia. }
  exact (H (prep_chunks p) 0%nat).
Qed.

Lemma filter_url_new_rows (l : list PreparedPage) (p : PreparedPage) :
  NoDup (prep_url <$> l) → p ∈ l →
  filter (λ r, row_url r = prep_url p) (new_rows now domain l) = page_rows now domain p.
Proof.
  induction l as [|q l IH]; intros Hnd Hp; [by apply elem_of_nil in Hp|].
  rewrite fmap_cons in Hnd. apply NoDup_cons in Hnd as [Hq Hnd].
  unfold new_rows. rewrite fmap_cons. simpl mjoin. rewrite filter_app.
  fold (new_rows now domain l).
  apply elem_of_cons in Hp as [->|Hp].
  - rewrite filter_all, filter_none; [by rewrite app_nil_r| |].
    + apply Forall_forall. intros r (p' & Hp' & Hr)%elem_of_new_rows Hu.
      apply elem_of_page_rows in Hr as (_ & Hu' & _). apply Hq.
      apply list_elem_of_fmap. exists p'. split; [congruence|done].
    + apply Forall_forall. intros r Hr. by apply elem_of_page_rows in Hr as (_ & ? & _).
  - rewrite filter_none, IH; [done..|].
    apply Forall_forall. intros r Hr Hu. apply elem_of_page_rows in Hr as (_ & Hu' & _).
    apply Hq. apply list_elem_of_fmap. exists p. split; [congruence|done].
Qed.

(** In the sorted rows, the rows of a page are its chunks in order. *)
Lemma sorted_rows_of_page (l : list PreparedPage) (p : PreparedPage) :
  NoDup (prep_url <$> l) → p ∈ l →
  filter (λ r, row_url r = prep_url p) (merge_sort row_le (new_rows now domain l))
  = page_rows now domain p.
Proof.
  intros Hnd Hp.
  assert (filter (λ r, row_url r = prep_url p) (merge_sort row_le (new_rows now domain l))
          ≡ₚ page_rows now domain p) as Hperm.
  { rewrite merge_sort_Permutation. by rewrite filter_url_new_rows. }
  apply (StronglySorted_unique_strong row_le); [| | |done].
  - intros x1 x2 H1 H2 H12 H21.
    apply list_elem_of_filter in H1 as [Hu1 H1]. rewrite merge_sort_Permutation in H1.
    assert (x2 ∈ new_rows now domain l) as H2' by (apply elem_of_new_rows; eauto).
    apply elem_of_page_rows in H2 as (_ & Hu2 & _).
    unfold row_le in H12, H21.
    rewrite decide_True in H12 by congruence. rewrite decide_True in H21 by congruence.
    eapply new_rows_key_inj; [done..|congruence|lia].
  - apply StronglySorted_filter, StronglySorted_merge_sort; apply _.
  - apply page_rows_sorted.
Qed.

Lemma getRagChunks_single_page (siteName : option jstring) (p : PreparedPage) (d : Database) :
  getRagChunks domain (replaceRagChunks now domain siteName [p] d).2 = page_rows now domain p.
Proof.
  assert (NoDup (prep_url <$> [p])) as Hnd by (apply NoDup_singleton).
  rewrite getRagChunks_after_replace by done.
  rewrite <- (sorted_rows_of_page [p] p Hnd) by (by left).
  symmetry. apply filter_all. apply Forall_forall. intros r Hr.
  rewrite merge_sort_Permutation in Hr. apply elem_of_new_rows in Hr as (p' & Hp' & Hr).
  apply list_elem_of_singleton in Hp' as ->. by apply elem_of_page_rows in Hr as (_ & ? & _).
Qed.

End Replace.

Lemma elem_of_getRagChunks (domain : jstring) (d : Database) (row : RagChunk) :
  row ∈ getRagChunks domain d ↔ row ∈ rag_chunks d ∧ row_domain row = domain.
Proof.
  unfold getRagChunks. rewrite merge_sort_Permutation, list_elem_of_filter. tauto.
Qed.

(** *** Counts *)

Lemma insert_chunks_count (now domain url title : jstring) : ∀ chunks i rows cc rows' cc',
  insert_chunks now domain url title i chunks rows cc = Some (rows', cc') →
  cc' = (cc + length chunks)%nat.
Proof.
  induction chunks as [|c chunks IH]; intros i rows cc rows' cc' E; simpl in E.
  - injection E as _ <-. simpl. lia.
  - destruct (insert_chunk _ _) as [rows1|]; [|done].
    apply IH in E. simpl. lia.
Qed.

Lemma insert_pages_count (now domain : jstring) : ∀ (l : list PreparedPage) rows pc cc rows' pc' cc',
  Forall (λ pp, prep_chunks pp ≠ []) l →
  insert_pages now domain l rows pc cc = Some (rows', pc', cc') →
  (cc + length l <= cc')%nat.
Proof.
  induction l as [|p l IH]; intros rows pc cc rows' pc' cc' Hl E; simpl in E.
  - injection E as _ _ <-. simpl. lia.
  - apply Forall_cons in Hl as [Hp Hl].
    destruct (insert_chunks _ _ _ _ _ _ _ _) as [[rows1 cc1]|] eqn:Ec; [|done].
    apply insert_chunks_count in Ec. apply IH in E; [|done].
    destruct (prep_chunks p); [done|]. simpl in *. lia.
Qed.

(** C5. For every domain and every list of pages whose urls are pairwise
    distinct, [replaceRagChunks] succeeds with the counts of the new pages,
    and [getRagChunks] then returns exactly the rows of the new pages (a
    permutation of them, so no row of an earlier rebuild of the domain is
    left), sorted by (url, chunk id); the rows of each page are its chunks
    with chunk ids 0, 1, ... in order. *)
Theorem replace_then_get (now domain : jstring) (siteName : option jstring)
    (l : list PreparedPage) (d : Database) :
  NoDup (prep_url <$> l) →
  ∃ d',
    replaceRagChunks now domain siteName l d
    = (Return {| pageCount := length l; chunkCount := length (new_rows now domain l) |}, d')
    ∧ getRagChunks domain d' ≡ₚ new_rows now domain l
    ∧ StronglySorted row_le (getRagChunks domain d')
    ∧ (∀ p, p ∈ l →
         filter (λ r, row_url r = prep_url p) (getRagChunks domain d')
         = imap (new_row now domain (prep_url p) (prep_title p)) (prep_chunks p))
    ∧ (∀ r, r ∈ getRagChunks domain d' →
         ∃ p, p ∈ l ∧ row_url r = prep_url p
              ∧ prep_chunks p !! row_chunkId r = Some (row_content r)).
Proof.
  intros Hnd. pose proof (getRagChunks_after_replace now domain siteName l d Hnd) as Hget.
  rewrite replaceRagChunks_ok in Hget |- * by done. simpl in Hget.
  eexists. split; [reflexivity|]. rewrite Hget. split; [|split; [|split]].
  - apply merge_sort_Permutation.
  - apply StronglySorted_merge_sort; apply _.
  - intros p Hp. by apply sorted_rows_of_page.
  - intros r Hr. rewrite merge_sort_Permutation in Hr.
    apply elem_of_new_rows in Hr as (p & Hp & Hr). exists p.
    apply elem_of_page_rows in Hr as (_ & ? & ? & _). auto.
Qed.

Lemma replace_then_get_witness :
  NoDup (prep_url <$> acme_pages)
  ∧ ∃ d',
      replaceRagChunks (str "2026-01-01 01:00:00") acme (Some (str "Acme")) acme_pages
        empty_db
      = (Return {| pageCount := 2; chunkCount := 2 |}, d')
      ∧ StronglySorted row_le (getRagChunks acme d').
Proof.
  assert (NoDup (prep_url <$> acme_pages)) as Hnd by compute_done.
  split; [exact Hnd|].
  destruct (replace_then_get (str "2026-01-01 01:00:00") acme (Some (str "Acme")) acme_pages
              empty_db Hnd) as (d' & H1 & _ & H2 & _).
  exists d'. split; [exact H1|exact H2].
Defined.

(** *** What a rebuild writes, and what it leaves alone *)

Lemma insert_chunk_shape (r : RagChunk) (rows rows' : list RagChunk) :
  insert_chunk r rows = Some rows' → rows' = rows ++ [r] ∧ row_key r ∉ row_key <$> rows.
Proof.
  unfold insert_chunk. destruct (existsb (same_key r) rows) eqn:E; [done|].
  intros [= <-]. split; [done|].
  intros (r' & Hk & Hr')%list_elem_of_fmap.
  apply not_true_iff_false in E. apply E, existsb_exists. exists r'.
  split; [by apply list_elem_of_In|]. apply bool_decide_eq_true.
  unfold row_key in Hk. by injection Hk.
Qed.

Lemma insert_chunks_shape (now domain url title : jstring) :
  ∀ chunks i rows cc rows' cc',
  insert_chunks now domain url title i chunks rows cc = Some (rows', cc') →
  rows' = rows ++ imap (λ j, new_row now domain url title (i + j)) chunks
  ∧ cc' = (cc + length chunks)%nat
  ∧ (NoDup (row_key <$> rows) → NoDup (row_key <$> rows')).
Proof.
  induction chunks as [|c chunks IH]; intros i rows cc rows' cc'; simpl.
  - intros [= <- <-]. by rewrite app_nil_r, Nat.add_0_r.
  - destruct (insert_chunk _ rows) as [rows1|] eqn:E1; [|done].
    apply insert_chunk_shape in E1 as [-> Hfresh].
    intros (-> & -> & Hnd)%IH. split_and!.
    + rewrite <- app_assoc. simpl. rewrite Nat.add_0_r. f_equal. f_equal.
      apply imap_ext. intros j x _. simpl. f_equal. lia.
    + lia.
    + intros H. apply Hnd. rewrite fmap_app. apply NoDup_app. split_and!; [done| |].
      * intros k Hk ->%list_elem_of_singleton. done.
      * apply NoDup_singleton.
Qed.

Lemma insert_pages_shape (now domain : jstring) :
  ∀ (l : list PreparedPage) rows pc cc rows' pc' cc',
  insert_pages now domain l rows pc cc = Some (rows', pc', cc') →
  rows' = rows ++ new_rows now domain l
  ∧ pc' = (pc + length l)%nat
  ∧ cc' = (cc + length (new_rows now domain l))%nat
  ∧ (NoDup (row_key <$> rows) → NoDup (row_key <$> rows')).
Proof.
  induction l as [|p l IH]; intros rows pc cc rows' pc' cc'; simpl.
  - intros [= <- <- <-]. unfold new_rows. simpl. by rewrite app_nil_r, !Nat.add_0_r.
  - destruct (insert_chunks _ _ _ _ _ _ _ _) as [[rows1 cc1]|] eqn:E1; [|done].
    apply insert_chunks_shape in E1 as (-> & -> & Hnd1).
    intros (-> & -> & -> & Hnd)%IH. split_and!.
    + unfold new_rows. rewrite fmap_cons. simpl mjoin. by rewrite <- app_assoc.
    + lia.
    + unfold new_rows. rewrite fmap_cons. simpl mjoin. rewrite length_app.
      unfold page_rows at 2. rewrite length_imap. lia.
    + auto.
Qed.

Lemma NoDup_fmap_filter {A B} (f : A → B) (P : A → Prop) `{!∀ x, Decision (P x)}
    (l : list A) :
  NoDup (f <$> l) → NoDup (f <$> filter P l).
Proof.
  induction l as [|x l IH]; [done|]. rewrite fmap_cons. intros [Hx Hl]%NoDup_cons.
  rewrite filter_cons. destruct (decide (P x)); [|auto].
  rewrite fmap_cons. apply NoDup_cons. split; [|auto].
  intros (y & E & [_ Hy]%list_elem_of_filter)%list_elem_of_fmap.
  apply Hx, list_elem_of_fmap. eauto.
Qed.

(** A call that returns has written the new rows after those of the other
    domains, and the meta row with their counts. *)
Lemma replaceRagChunks_returns (now domain : jstring) (siteName : option jstring)
    (l : list PreparedPage) (d d' : Database) (st : Stats) :
  replaceRagChunks now domain siteName l d = (Return st, d') →
  st = {| pageCount := length l; chunkCount := length (new_rows now domain l) |}
  ∧ d' = {| site_facts := site_facts d;
            rag_chunks := filter (λ r, row_domain r ≠ domain) (rag_chunks d)
                          ++ new_rows now domain l;
            rag_meta := <[domain := {| meta_siteName := siteName;
                                       meta_pageCount := length l;
                                       meta_chunkCount := length (new_rows now domain l);
                                       meta_indexedAt := now |}]> (rag_meta d) |}
  ∧ (NoDup (row_key <$> rag_chunks d) → NoDup (row_key <$> rag_chunks d')).
Proof.
  unfold replaceRagChunks.
  destruct (insert_pages _ _ _ _ _ _) as [[[rows pc] cc]|] eqn:E; [|done].
  apply insert_pages_shape in E as (-> & -> & -> & Hnd).
  intros [= <- <-]. simpl. split_and!; [done..|].
  intros H. by apply Hnd, NoDup_fmap_filter.
Qed.

Lemma filter_other_domain (domain other : jstring) (rows : list RagChunk) :
  other ≠ domain →
  filter (λ r, row_domain r = other) (filter (λ r, row_domain r ≠ domain) rows)
  = filter (λ r, row_domain r = other) rows.
Proof.
  intros Hne. rewrite list_filter_filter. apply list_filter_iff. intros r. naive_solver.
Qed.

Lemma filter_other_new_rows (now domain other : jstring) (l : list PreparedPage) :
  other ≠ domain → filter (λ r, row_domain r = other) (new_rows now domain l) = [].
Proof.
  intros Hne. apply filter_none, Forall_forall.
  intros r (p & _ & Hr)%elem_of_new_rows. apply elem_of_page_rows in Hr as (? & _). congruence.
Qed.

(** A rebuild of one domain does not touch the rows, the meta row or the
    facts of another, whether it commits or rolls back. *)
Lemma replaceRagChunks_other (now domain : jstring) (siteName : option jstring)
    (pages : list PreparedPage) (d : Database) (other : jstring) :
  other ≠ domain →
  getRagChunks other (replaceRagChunks now domain siteName pages d).2 = getRagChunks other d
  ∧ getRagMeta other (replaceRagChunks now domain siteName pages d).2 = getRagMeta other d
  ∧ (∀ any, getSiteFacts any (replaceRagChunks now domain siteName pages d).2
            = getSiteFacts any d).
Proof.
  intros Hne.
  destruct (replaceRagChunks now domain siteName pages d) as [[st|e] d'] eqn:E.
  - apply replaceRagChunks_returns in E as (_ & -> & _). simpl. split_and!.
    + unfold getRagChunks. simpl.
      by rewrite filter_app, filter_other_domain, filter_other_new_rows, app_nil_r.
    + unfold getRagMeta. simpl. by rewrite lookup_insert_ne.
    + done.
  - unfold replaceRagChunks in E.
    destruct (insert_pages _ _ _ _ _ _) as [[[rows pc] cc]|]; [done|]. by injection E as _ <-.
Qed.

(** X4. [replaceRagChunks] for one domain leaves the chunks and the meta
    row of every other domain, and the facts of every domain, as they were,
    whether its transaction commits or rolls back. *)
Theorem replaceRagChunks_frame (now domain : jstring) (siteName : option jstring)
    (pages : list PreparedPage) (d : Database) (other : jstring) :
  other ≠ domain →
  let d' := (replaceRagChunks now domain siteName pages d).2 in
  getRagChunks other d' = getRagChunks other d
  ∧ getRagMeta other d' = getRagMeta other d
  ∧ (∀ any, getSiteFacts any d' = getSiteFacts any d).
Proof. intros Hne d'. by apply replaceRagChunks_other. Qed.

Lemma replaceRagChunks_frame_witness :
  let d' := (replaceRagChunks (str "2026-02-02 02:00:00") (str "https://other.test") None
               acme_pages acme_db).2 in
  str "https://acme.test" ≠ str "https://other.test"
  ∧ getRagChunks acme d' = getRagChunks acme acme_db
  ∧ getRagMeta acme d' = getRagMeta acme acme_db.
Proof.
  assert (str "https://acme.test" ≠ str "https://other.test") as Hne by discriminate.
  split; [exact Hne|].
  destruct (replaceRagChunks_frame (str "2026-02-02 02:00:00") (str "https://other.test") None
              acme_pages acme_db acme Hne) as (H1 & H2 & _).
  split; [exact H1|exact H2].
Defined.

Section Duplicates.
Variables now domain : jstring.

Lemma with_chunks_cons (p : PreparedPage) (l : list PreparedPage) :
  with_chunks (p :: l) = if decide (prep_chunks p = []) then with_chunks l else p :: with_chunks l.
Proof.
  unfold with_chunks. rewrite filter_cons. by repeat case_decide.
Qed.

(** With distinct urls among the pages that have chunks, every insert
    goes through. *)
Lemma insert_pages_distinct : ∀ (l : list PreparedPage) rows pc cc,
  NoDup (prep_url <$> with_chunks l) →
  (∀ r, r ∈ rows → row_domain r = domain → row_url r ∉ prep_url <$> with_chunks l) →
  is_Some (insert_pages now domain l rows pc cc).
Proof.
  induction l as [|p l IH]; intros rows pc cc Hnd Hrows; [done|].
  simpl. rewrite with_chunks_cons in Hnd, Hrows.
  destruct (decide (prep_chunks p = [])) as [E|Hne].
  - rewrite E. simpl. by apply IH.
  - rewrite fmap_cons in Hnd, Hrows. apply NoDup_cons in Hnd as [Hp Hnd].
    rewrite insert_chunks_ok.
    + apply IH; [done|]. intros r [Hr|Hr]%elem_of_app Hd.
      * specialize (Hrows r Hr Hd). intros ?. apply Hrows. by right.
      * apply elem_of_lookup_imap in Hr as (i & c & -> & Hc). simpl. done.
    + intros r Hr Hd Hu. exfalso. apply (Hrows r Hr Hd). rewrite Hu. left.
Qed.

Lemma insert_chunks_taken (url title : jstring) (chunks : list jstring)
    (rows : list RagChunk) (cc : nat) (r : RagChunk) :
  chunks ≠ [] → r ∈ rows → row_key r = (domain, url, 0%nat) →
  insert_chunks now domain url title 0 chunks rows cc = None.
Proof.
  intros Hne Hr Hk. destruct chunks as [|c chunks]; [done|]. simpl.
  unfold insert_chunk.
  replace (existsb (same_key (new_row now domain url title 0 c)) rows) with true; [done|].
  symmetry. apply existsb_exists. exists r. split; [by apply list_elem_of_In|].
  apply bool_decide_eq_true. unfold row_key in Hk. simpl. by injection Hk as -> -> ->.
Qed.

(** A page with chunks whose first key is in the table stops the loop. *)
Lemma insert_pages_taken : ∀ (l : list PreparedPage) rows pc cc (p : PreparedPage) r,
  p ∈ l → prep_chunks p ≠ [] → r ∈ rows → row_key r = (domain, prep_url p, 0%nat) →
  insert_pages now domain l rows pc cc = None.
Proof.
  induction l as [|q l IH]; intros rows pc cc p r Hp Hne Hr Hk; [by apply elem_of_nil in Hp|].
  simpl. destruct (insert_chunks _ _ _ _ _ _ _ _) as [[rows1 cc1]|] eqn:E1; [|done].
  apply elem_of_cons in Hp as [<-|Hp].
  - by rewrite (insert_chunks_taken _ _ _ _ _ r) in E1.
  - apply insert_chunks_shape in E1 as (-> & _ & _).
    apply (IH _ _ _ p r); [done|done| |done]. apply elem_of_app. by left.
Qed.

Lemma insert_pages_duplicate : ∀ (l : list PreparedPage) rows pc cc,
  ¬ NoDup (prep_url <$> with_chunks l) → insert_pages now domain l rows pc cc = None.
Proof.
  induction l as [|p l IH]; intros rows pc cc Hdup.
  { exfalso. apply Hdup. constructor. }
  simpl. rewrite with_chunks_cons in Hdup.
  destruct (insert_chunks _ _ _ _ _ _ _ _) as [[rows1 cc1]|] eqn:E1; [|done].
  destruct (decide (prep_chunks p = [])) as [E|Hne]; [by apply IH|].
  rewrite fmap_cons in Hdup.
  destruct (decide (prep_url p ∈ prep_url <$> with_chunks l)) as [Hin|Hnin].
  - apply list_elem_of_fmap in Hin as (q & Hu & [Hq Hql]%list_elem_of_filter).
    apply insert_chunks_shape in E1 as (-> & _ & _).
    destruct (prep_chunks p) as [|c chunks] eqn:Ec; [done|].
    apply (insert_pages_taken _ _ _ _ q (new_row now domain (prep_url p) (prep_title p) 0 c));
      [done|done| |].
    + apply elem_of_app. right. simpl. left.
    + unfold row_key. simpl. by rewrite Hu.
  - apply IH. intros Hnd. apply Hdup. by constructor.
Qed.
End Duplicates.

(** X5. [replaceRagChunks] throws the primary-key error exactly when two
    of the pages that have chunks share a url (a page without chunks
    inserts no row), and a call that throws leaves the store as it was. *)
Theorem replaceRagChunks_duplicate_urls (now domain : jstring) (siteName : option jstring)
    (pages : list PreparedPage) (d : Database) :
  let r := replaceRagChunks now domain siteName pages d in
  (r.1 = Throw constraint_failed ↔ ¬ NoDup (prep_url <$> with_chunks pages))
  ∧ (∀ e, r.1 = Throw e → r.2 = d).
Proof.
  intros r. subst r. unfold replaceRagChunks.
  destruct (decide (NoDup (prep_url <$> with_chunks pages))) as [Hnd|Hdup].
  - destruct (insert_pages_distinct now domain pages
                (filter (λ r, row_domain r ≠ domain) (rag_chunks d)) 0 0 Hnd)
      as [[[rows pc] cc] ->].
    { intros r [Hne _]%list_elem_of_filter Hd. done. }
    simpl. split; [|done]. split; [done|]. intros H. by destruct H.
  - rewrite insert_pages_duplicate by done. simpl. split; [|done]. by split.
Qed.

Lemma filter_kept_again (now domain : jstring) (l : list PreparedPage) (rows : list RagChunk) :
  filter (λ r, row_domain r ≠ domain)
    (filter (λ r, row_domain r ≠ domain) rows ++ new_rows now domain l)
  = filter (λ r, row_domain r ≠ domain) rows.
Proof.
  rewrite filter_app, (filter_none _ (new_rows now domain l)), app_nil_r.
  - rewrite list_filter_filter. apply list_filter_iff. intros r. naive_solver.
  - apply Forall_forall. intros r (p & _ & Hr)%elem_of_new_rows.
    apply elem_of_page_rows in Hr as (? & _). naive_solver.
Qed.

(** X6. A rebuild overwrites the one before it: what [replaceRagChunks]
    returns or throws does not depend on an earlier [replaceRagChunks] for
    the same domain, and when it returns, the store is the one the call
    alone would have left. *)
Theorem replaceRagChunks_overwrites (now1 now2 domain : jstring) (sn1 sn2 : option jstring)
    (l1 l2 : list PreparedPage) (d : Database) :
  let d1 := (replaceRagChunks now1 domain sn1 l1 d).2 in
  (replaceRagChunks now2 domain sn2 l2 d1).1 = (replaceRagChunks now2 domain sn2 l2 d).1
  ∧ (∀ st, (replaceRagChunks now2 domain sn2 l2 d1).1 = Return st →
       (replaceRagChunks now2 domain sn2 l2 d1).2 = (replaceRagChunks now2 domain sn2 l2 d).2).
Proof.
  intros d1. subst d1.
  destruct (replaceRagChunks now1 domain sn1 l1 d) as [[st1|e] d1] eqn:E1.
  - apply replaceRagChunks_returns in E1 as (_ & -> & _). simpl.
    unfold replaceRagChunks. simpl. rewrite filter_kept_again.
    destruct (insert_pages _ _ _ _ _ _) as [[[rows pc] cc]|]; simpl; [|done].
    split; [done|]. intros _ _. f_equal. apply insert_insert_eq.
  - unfold replaceRagChunks in E1.
    destruct (insert_pages _ _ _ _ _ _) as [[[rows pc] cc]|]; [done|].
    injection E1 as _ <-. done.
Qed.

Lemma consistent_empty : consistent empty_db.
Proof. split; [constructor|]. intros domain. reflexivity. Qed.

Lemma length_getRagChunks (domain : jstring) (d : Database) :
  length (getRagChunks domain d)
  = length (filter (λ r, row_domain r = domain) (rag_chunks d)).
Proof. unfold getRagChunks. by rewrite merge_sort_Permutation. Qed.

(** X7. [replaceRagChunks] and [putSiteFacts] keep the store consistent,
    whatever their arguments and outcome: no two rows of [rag_chunks] share
    a primary key, and for every domain the number of chunks
    [getRagChunks] returns is the chunk count of its meta row (0 when it
    has none). *)
Theorem consistent_preserved (now domain : jstring) (siteName : option jstring)
    (pages : list PreparedPage) (facts : SiteFacts) (d : Database) :
  consistent d →
  consistent (replaceRagChunks now domain siteName pages d).2
  ∧ consistent (putSiteFacts now domain facts d).
Proof.
  intros [Hkeys Hcount]. split; [|done].
  destruct (replaceRagChunks now domain siteName pages d) as [[st|e] d'] eqn:E.
  - pose proof (replaceRagChunks_other now domain siteName pages d) as Hframe.
    rewrite E in Hframe. simpl in Hframe.
    apply replaceRagChunks_returns in E as (_ & -> & Hnd). cbn [snd].
    split; [by apply Hnd|].
    intros dom. destruct (decide (dom = domain)) as [->|Hne].
    + rewrite length_getRagChunks. unfold getRagMeta. simpl.
      rewrite lookup_insert_eq. simpl.
      rewrite filter_app, filter_new_rows, (filter_none _ (filter _ _)); [done|].
      apply Forall_forall. intros r [? _]%list_elem_of_filter. done.
    + destruct (Hframe dom Hne) as (-> & -> & _). apply Hcount.
  - unfold replaceRagChunks in E.
    destruct (insert_pages _ _ _ _ _ _) as [[[rows pc] cc]|]; [done|].
    injection E as _ <-. done.
Qed.

Lemma consistent_preserved_witness :
  consistent empty_db
  ∧ consistent acme_db.
Proof.
  assert (consistent empty_db) as H0.
  { split; [constructor|]. intros domain. reflexivity. }
  split; [exact H0|].
  exact (proj1 (consistent_preserved (str "2026-01-01 01:00:00") acme (Some (str "Acme"))
                  acme_pages
                  {| ownerName := None; ownerTitle := None; phones := []; emails := [];
                     addresses := []; hours := None; services := [] |}
                  empty_db H0)).
Defined.

End DbFacts.

Import DbFacts.

(** ** Chunker *)

Module ChunkerFacts.
Import Chunker.

Section Windows.
Variable env : RagEnv.
Variable s : jstring.

Lemma chunk_turn_break (start : Z) (chunks : list jstring) :
  0 <= start < Z.of_nat (length s) → 0 < CHUNK_SIZE env →
  Z.of_nat (length s) <= start + CHUNK_SIZE env →
  chunk_turn env s start chunks
  = Break (chunks ++ [slice s start (start + CHUNK_SIZE env)]).
Proof.
  intros Hs HC Hend. unfold chunk_turn.
  destruct (Z.ltb_spec start (Z.of_nat (length s))); [|lia].
  rewrite slice_min_end by lia.
  destruct (Z.geb_spec (Z.min (Z.of_nat (length s)) (start + CHUNK_SIZE env))
              (Z.of_nat (length s))); [reflexivity|lia].
Qed.

Lemma chunk_turn_continue (start : Z) (chunks : list jstring) :
  0 <= start < Z.of_nat (length s) → start + CHUNK_SIZE env < Z.of_nat (length s) →
  chunk_turn env s start chunks
  = Continue (Z.max 0 (start + CHUNK_SIZE env - CHUNK_OVERLAP env))
      (chunks ++ [slice s start (start + CHUNK_SIZE env)]).
Proof.
  intros Hs Hend. unfold chunk_turn.
  destruct (Z.ltb_spec start (Z.of_nat (length s))); [|lia].
  destruct (Z.geb_spec (Z.min (Z.of_nat (length s)) (start + CHUNK_SIZE env))
              (Z.of_nat (length s))); [lia|].
  rewrite (Z.min_r (Z.of_nat (length s))) by lia. reflexivity.
Qed.

(** With an overlap below the chunk size the loop leaves within as many
    turns as characters remain, and what it adds is a chain of windows. *)
Lemma chunk_loop_chain (fuel : nat) : ∀ start chunks,
  0 <= CHUNK_OVERLAP env < CHUNK_SIZE env →
  0 <= start < Z.of_nat (length s) →
  Z.of_nat (length s) - start <= Z.of_nat fuel →
  ∃ rest, chunk_loop env fuel s start chunks = Some (chunks ++ rest)
          ∧ chain env s start rest.
Proof.
  induction fuel as [|fuel IH]; intros start chunks HO Hs Hfuel; [lia|].
  simpl. destruct (Z.le_gt_cases (Z.of_nat (length s)) (start + CHUNK_SIZE env)) as [Hend|Hend].
  - rewrite chunk_turn_break by lia. eexists. split; [reflexivity|].
    by apply chain_last.
  - rewrite chunk_turn_continue by lia. rewrite Z.max_r by lia.
    destruct (IH (start + CHUNK_SIZE env - CHUNK_OVERLAP env)
                (chunks ++ [slice s start (start + CHUNK_SIZE env)]))
      as (rest & Hrun & Hchain); [lia..|].
    exists (slice s start (start + CHUNK_SIZE env) :: rest). split.
    + rewrite Hrun. by rewrite <- app_assoc.
    + apply chain_more; [lia|].
      by replace (start + (CHUNK_SIZE env - CHUNK_OVERLAP env))
        with (start + CHUNK_SIZE env - CHUNK_OVERLAP env) by lia.
Qed.

Lemma chunk_loop_mono : ∀ fuel1 fuel2 start acc r,
  (fuel1 <= fuel2)%nat →
  chunk_loop env fuel1 s start acc = Some r →
  chunk_loop env fuel2 s start acc = Some r.
Proof.
  induction fuel1 as [|f1 IH]; intros [|f2] start acc r Hle Hr; simpl in *;
    try discriminate; try lia.
  destruct (chunk_turn env s start acc); [|done]. apply IH; [lia|done].
Qed.

(** With an overlap of at least the chunk size the loop stays at 0. *)
Lemma chunk_loop_stuck (fuel : nat) : ∀ chunks,
  CHUNK_SIZE env <= CHUNK_OVERLAP env → CHUNK_SIZE env < Z.of_nat (length s) → s ≠ [] →
  chunk_loop env fuel s 0 chunks = None.
Proof.
  induction fuel as [|fuel IH]; intros chunks HO HL Hne; [done|]. simpl.
  unfold chunk_turn.
  assert (0 < Z.of_nat (length s)) by (destruct s; [done|simpl; lia]).
  destruct (Z.ltb_spec 0 (Z.of_nat (length s))); [|lia].
  destruct (Z.geb_spec (Z.min (Z.of_nat (length s)) (0 + CHUNK_SIZE env))
              (Z.of_nat (length s))); [lia|].
  rewrite Z.max_l by lia. by apply IH.
Qed.

Lemma chain_lookup (start : Z) (rest : list jstring) :
  chain env s start rest →
  ∀ i, (i < length rest)%nat →
    rest !! i
    = Some (slice s (start + Z.of_nat i * (CHUNK_SIZE env - CHUNK_OVERLAP env))
              (start + Z.of_nat i * (CHUNK_SIZE env - CHUNK_OVERLAP env) + CHUNK_SIZE env)).
Proof.
  induction 1 as [start Hend|start rest Hend Hch IH]; intros i Hi.
  - destruct i; simpl in *; [|lia]. f_equal. f_equal; lia.
  - destruct i as [|i]; simpl length in *.
    + simpl. f_equal. f_equal; lia.
    + simpl lookup. rewrite IH by lia. f_equal. f_equal; lia.
Qed.

Lemma chain_nonempty (start : Z) (rest : list jstring) :
  chain env s start rest → (0 < length rest)%nat.
Proof. destruct 1; simpl; lia. Qed.

(** All windows but the last stop short of the end; the last reaches it. *)
Lemma chain_bounds (start : Z) (rest : list jstring) :
  chain env s start rest →
  (∀ i, (S i < length rest)%nat →
     start + Z.of_nat i * (CHUNK_SIZE env - CHUNK_OVERLAP env) + CHUNK_SIZE env
     < Z.of_nat (length s))
  ∧ Z.of_nat (length s)
    <= start + (Z.of_nat (length rest) - 1) * (CHUNK_SIZE env - CHUNK_OVERLAP env)
       + CHUNK_SIZE env.
Proof.
  induction 1 as [start Hend|start rest Hend Hch [IH1 IH2]].
  - split; [simpl; lia|]. simpl. lia.
  - pose proof (chain_nonempty _ _ Hch). split.
    + intros [|i] Hi; simpl in Hi; [lia|].
      specialize (IH1 i ltac:(lia)). lia.
    + simpl length. lia.
Qed.

(** The windows, each without what it shares with the one before, make up
    the text from [start] on. *)
Lemma chain_reassemble (start : Z) (rest : list jstring) :
  0 <= CHUNK_OVERLAP env < CHUNK_SIZE env → 0 <= start <= Z.of_nat (length s) →
  chain env s start rest →
  match rest with
  | [] => False
  | c :: rest' =>
      drop (Z.to_nat start) s = c ++ concat (drop (Z.to_nat (CHUNK_OVERLAP env)) <$> rest')
      ∧ (start < Z.of_nat (length s) →
         Z.min (Z.of_nat (length s) - start) (CHUNK_SIZE env) <= Z.of_nat (length c))
  end.
Proof.
  intros HO Hs Hch. induction Hch as [start Hend|start rest Hend Hch IH].
  - split.
    + simpl. rewrite app_nil_r. rewrite slice_window by lia.
      rewrite take_ge; [done|]. rewrite length_drop. lia.
    + intros ?. rewrite slice_window by lia.
      rewrite length_take, length_drop. lia.
  - destruct rest as [|c' rest']; [by inversion Hch|].
    destruct IH as [IH Hlen]; [lia|]. split.
    + simpl. rewrite slice_window by lia.
      rewrite <- (take_drop (Z.to_nat (start + CHUNK_SIZE env - start))
                    (drop (Z.to_nat start) s)) at 1.
      f_equal. rewrite drop_drop.
      replace (Z.to_nat start + Z.to_nat (start + CHUNK_SIZE env - start))%nat
        with (Z.to_nat (start + (CHUNK_SIZE env - CHUNK_OVERLAP env))
              + Z.to_nat (CHUNK_OVERLAP env))%nat by lia.
      rewrite <- drop_drop, IH. rewrite drop_app_le by lia. done.
    + intros ?. rewrite slice_window by lia.
      rewrite length_take, length_drop. lia.
Qed.

End Windows.

Lemma window_overlap (s : jstring) (a C O : Z) :
  0 <= a → 0 <= O < C → a + C < Z.of_nat (length s) →
  drop (Z.to_nat (C - O)) (slice s a (a + C))
  = take (Z.to_nat O) (slice s (a + (C - O)) (a + (C - O) + C)).
Proof.
  intros Ha HO Hend. rewrite !slice_window by lia.
  rewrite take_take. rewrite Nat.min_l by lia.
  replace (Z.to_nat (a + C - a)) with (Z.to_nat (C - O) + Z.to_nat O)%nat by lia.
  rewrite <- take_drop_commute, drop_drop. f_equal. f_equal. lia.
Qed.

Lemma chunkText_one (env : RagEnv) (fuel : nat) (text : jstring) :
  normalize text ≠ [] →
  Z.of_nat (length (normalize text)) <= CHUNK_SIZE env →
  chunkText env fuel text = Some [normalize text].
Proof.
  unfold chunkText. intros Hne Hlen. destruct (normalize text) as [|c s]; [done|].
  destruct (Z.leb_spec (Z.of_nat (length (c :: s))) (CHUNK_SIZE env)); [done|lia].
Qed.

Lemma chunkText_blank (env : RagEnv) (fuel : nat) (text : jstring) :
  normalize text = [] → chunkText env fuel text = Some [].
Proof. unfold chunkText. by intros ->. Qed.

Lemma chunkText_loop (env : RagEnv) (fuel : nat) (text : jstring) :
  normalize text ≠ [] → CHUNK_SIZE env < Z.of_nat (length (normalize text)) →
  chunkText env fuel text = chunk_loop env fuel (normalize text) 0 [].
Proof.
  intros Hne HL. unfold chunkText.
  destruct (normalize text) as [|c s] eqn:E; [done|].
  destruct (Z.leb_spec (Z.of_nat (length (c :: s))) (CHUNK_SIZE env)); [lia|done].
Qed.

(** A text longer than the chunk size is cut into a chain of windows, with
    fuel for one turn per character. *)
Lemma chunkText_chain (env : RagEnv) (text : jstring) :
  0 <= CHUNK_OVERLAP env < CHUNK_SIZE env →
  CHUNK_SIZE env < Z.of_nat (length (normalize text)) →
  ∃ chunks,
    chain env (normalize text) 0 chunks
    ∧ ∀ fuel, (length (normalize text) <= fuel)%nat → chunkText env fuel text = Some chunks.
Proof.
  intros HO HL.
  assert (normalize text ≠ []) as Hne by (intros E; rewrite E in HL; simpl in HL; lia).
  destruct (chunk_loop_chain env (normalize text) (length (normalize text)) 0 [] HO)
    as (chunks & Hrun & Hch); [lia..|].
  exists chunks. split; [done|]. intros fuel Hfuel.
  rewrite chunkText_loop by done.
  by apply (chunk_loop_mono env (normalize text) (length (normalize text)) fuel).
Qed.

(** C3, as the code has it. When the normalized text is not empty and no
    longer than the chunk size, [chunkText] returns exactly one chunk, the
    normalized text; when the normalized text is empty it returns no chunk.
    Neither case enters the loop: any fuel does. *)
Theorem chunkText_short (env : RagEnv) (fuel : nat) (text : jstring) :
  (normalize text ≠ [] →
   Z.of_nat (length (normalize text)) <= CHUNK_SIZE env →
   chunkText env fuel text = Some [normalize text])
  ∧ (normalize text = [] → chunkText env fuel text = Some []).
Proof. split; [apply chunkText_one|apply chunkText_blank]. Qed.

Lemma chunkText_short_witness :
  (normalize (str "  Acme   Plumbing ") ≠ []
   ∧ Z.of_nat (length (normalize (str "  Acme   Plumbing "))) <= CHUNK_SIZE default_env
   ∧ chunkText default_env 0 (str "  Acme   Plumbing ") = Some [str "Acme Plumbing"])
  ∧ (normalize (str "   ") = [] ∧ chunkText default_env 0 (str "   ") = Some []).
Proof.
  assert (normalize (str "  Acme   Plumbing ") ≠ []) as H1 by (vm_compute; discriminate).
  assert (Z.of_nat (length (normalize (str "  Acme   Plumbing "))) <= CHUNK_SIZE default_env)
    as H2 by (vm_compute; discriminate).
  assert (normalize (str "   ") = []) as H3 by (vm_compute; reflexivity).
  split.
  - split; [exact H1|]. split; [exact H2|].
    exact (proj1 (chunkText_short default_env 0 (str "  Acme   Plumbing ")) H1 H2).
  - split; [exact H3|].
    exact (proj2 (chunkText_short default_env 0 (str "   ")) H3).
Defined.

(** C3 as stated fails on a blank text: its normalized form has length 0,
    within the chunk size, and no chunk comes out. *)
Lemma chunkText_blank_counterexample :
  Z.of_nat (length (normalize (str "   "))) <= CHUNK_SIZE default_env
  ∧ chunkText default_env 1 (str "   ") = Some []
  ∧ chunkText default_env 1 (str "   ") ≠ Some [normalize (str "   ")].
Proof. split; [vm_compute; discriminate|]. split; [reflexivity|]. vm_compute. discriminate. Qed.

(** C4. For a chunk size [C] and an overlap [O] with [0 <= O < C] (the
    defaults 1100 and 180 among them) and a normalized text [s] longer than
    [C], [chunkText] returns, given fuel for one turn per character, at least
    two chunks such that: chunk [i] is the window of [s] that starts at
    [i * (C - O)] and is [C] long, cut at the end of [s]; every chunk but the
    last is exactly [C] long; the last is not empty, at most [C] long and
    ends where [s] ends; the last [O] characters of a chunk are the first [O]
    of the next, which goes on beyond them; the chunks, each without the
    [O] characters it shares with the one before, concatenate to [s]; and
    the row stored for chunk [i] of a page has chunk id [i]. *)
Theorem chunkText_windows (env : RagEnv) (text : jstring) :
  let s := normalize text in
  let C := CHUNK_SIZE env in
  let O := CHUNK_OVERLAP env in
  let L := Z.of_nat (length s) in
  0 <= O < C → C < L →
  ∃ chunks : list jstring,
    (∀ fuel, (length s <= fuel)%nat → chunkText env fuel text = Some chunks)
    ∧ (2 <= length chunks)%nat
    ∧ (∀ i, (i < length chunks)%nat →
         chunks !! i = Some (slice s (Z.of_nat i * (C - O)) (Z.of_nat i * (C - O) + C)))
    ∧ (∀ i c, chunks !! i = Some c → (S i < length chunks)%nat → Z.of_nat (length c) = C)
    ∧ (∀ c, last chunks = Some c →
         0 < Z.of_nat (length c) <= C
         ∧ (Z.of_nat (length chunks) - 1) * (C - O) + Z.of_nat (length c) = L)
    ∧ (∀ i c c', chunks !! i = Some c → chunks !! S i = Some c' →
         drop (Z.to_nat (C - O)) c = take (Z.to_nat O) c'
         ∧ Z.of_nat (length (drop (Z.to_nat (C - O)) c)) = O
         ∧ O < Z.of_nat (length c'))
    ∧ match chunks with
      | c :: rest => s = c ++ concat (drop (Z.to_nat O) <$> rest)
      | [] => False
      end
    ∧ (∀ now domain siteName url title d i c,
         chunks !! i = Some c →
         getRagChunks domain
           (replaceRagChunks now domain siteName
              [{| prep_url := url; prep_title := title; prep_chunks := chunks |}] d).2 !! i
         = Some {| row_domain := domain; row_url := url; row_title := or_else title untitled;
                   row_chunkId := i; row_content := c; row_updatedAt := now |}).
Proof.
  intros s C O L HO HL.
  destruct (chunkText_chain env text HO HL) as (chunks & Hch & Hrun). fold s in Hch, Hrun.
  pose proof (chain_lookup env s 0 chunks Hch) as Hlook.
  pose proof (chain_bounds env s 0 chunks Hch) as [Hfull Hlast].
  pose proof (chain_nonempty env s 0 chunks Hch) as Hne.
  fold C O L in Hlook, Hfull, Hlast.
  assert (Hstart : ∀ i, (i < length chunks)%nat → 0 <= Z.of_nat i * (C - O) < L).
  { intros [|i] Hi; [simpl; lia|]. specialize (Hfull i Hi). nia. }
  assert (Hwin : ∀ i, (i < length chunks)%nat →
            chunks !! i = Some (slice s (Z.of_nat i * (C - O)) (Z.of_nat i * (C - O) + C))).
  { intros i Hi. rewrite (Hlook i Hi). f_equal. }
  assert (H2 : (2 <= length chunks)%nat).
  { inversion Hch as [start Hend|start rest Hend Hrest]; subst; [fold C L in Hend; lia|].
    apply chain_nonempty in Hrest. simpl. lia. }
  exists chunks. split; [done|split; [done|split; [done|split; [|split; [|split; [|split]]]]]].
  - intros i c Hc Hi. rewrite Hwin in Hc by lia. injection Hc as <-.
    specialize (Hfull i Hi). specialize (Hstart i ltac:(lia)).
    rewrite length_slice; fold L; lia.
  - intros c Hc. rewrite last_lookup in Hc.
    rewrite Hwin in Hc by lia. injection Hc as <-.
    specialize (Hstart (pred (length chunks)) ltac:(lia)).
    replace (Z.of_nat (pred (length chunks))) with (Z.of_nat (length chunks) - 1) in * by lia.
    rewrite <- slice_min_end by lia. fold L. rewrite Z.min_l by lia.
    rewrite length_slice by (fold L; lia). lia.
  - intros i c c' Hc Hc'.
    assert (S i < length chunks)%nat as Hi by (by apply lookup_lt_Some in Hc').
    rewrite Hwin in Hc, Hc' by lia. injection Hc as <-. injection Hc' as <-.
    specialize (Hfull i Hi). pose proof (Hstart i ltac:(lia)) as Hsi.
    replace (Z.of_nat (S i) * (C - O)) with (Z.of_nat i * (C - O) + (C - O)) by lia.
    split; [by apply window_overlap; fold L; lia|]. split.
    + rewrite length_drop. rewrite Nat2Z.inj_sub.
      * rewrite length_slice by (fold L; lia). lia.
      * apply Nat2Z.inj_le. rewrite length_slice by (fold L; lia). lia.
    + rewrite <- slice_min_end by lia. fold L.
      rewrite length_slice by (fold L; lia). lia.
  - pose proof (chain_reassemble env s 0 chunks HO ltac:(fold L; lia) Hch) as Hre.
    destruct chunks as [|c rest]; [done|]. by destruct Hre as [Hre _].
  - intros now domain siteName url title d i c Hc.
    rewrite getRagChunks_single_page. unfold page_rows. simpl.
    rewrite list_lookup_imap, Hc. done.
Qed.

Lemma chunkText_windows_witness :
  0 <= CHUNK_OVERLAP tight_env < CHUNK_SIZE tight_env
  ∧ CHUNK_SIZE tight_env < Z.of_nat (length (normalize (str "abcdefghijkl")))
  ∧ ∃ chunks : list jstring,
      (∀ fuel, (12 <= fuel)%nat → chunkText tight_env fuel (str "abcdefghijkl") = Some chunks)
      ∧ (2 <= length chunks)%nat.
Proof.
  assert (0 <= CHUNK_OVERLAP tight_env < CHUNK_SIZE tight_env) as H1 by (simpl; lia).
  assert (CHUNK_SIZE tight_env < Z.of_nat (length (normalize (str "abcdefghijkl")))) as H2
    by (vm_compute; reflexivity).
  split; [exact H1|]. split; [exact H2|].
  destruct (chunkText_windows tight_env (str "abcdefghijkl") H1 H2) as (chunks & H3 & H4 & _).
  exists chunks. split; [exact H3|exact H4].
Defined.

(** C9. With [0 <= overlap < chunk size], [chunkText] returns for every
    text, given fuel for one turn per character of the normalized text, and
    every turn of its loop that goes round again moves the window start
    forward by chunk size - overlap. With overlap >= chunk size and a
    non-empty normalized text longer than the chunk size, a turn from start 0
    goes round again with start 0, and no amount of fuel makes [chunkText]
    return. *)
Theorem chunkText_terminates (env : RagEnv) (text : jstring) :
  let s := normalize text in
  let C := CHUNK_SIZE env in
  let O := CHUNK_OVERLAP env in
  (0 <= O < C →
     (∃ chunks, ∀ fuel, (length s <= fuel)%nat → chunkText env fuel text = Some chunks)
     ∧ (∀ start chunks start' chunks',
          0 <= start →
          chunk_turn env s start chunks = Continue start' chunks' →
          start' = start + (C - O) ∧ start < start'))
  ∧ (C <= O → s ≠ [] → C < Z.of_nat (length s) →
       (∀ chunks, ∃ chunks', chunk_turn env s 0 chunks = Continue 0 chunks')
       ∧ (∀ fuel, chunkText env fuel text = None)).
Proof.
  intros s C O. split.
  - intros HO. split.
    + destruct (Z.le_gt_cases (Z.of_nat (length s)) C) as [Hshort|Hlong].
      * destruct (decide (s = [])) as [E|Hne].
        -- exists []. intros fuel _. by apply chunkText_blank.
        -- exists [s]. intros fuel _. by apply chunkText_one.
      * destruct (chunkText_chain env text HO Hlong) as (chunks & _ & Hrun). eauto.
    + intros start chunks start' chunks' Hstart. unfold chunk_turn. fold C O.
      destruct (start <? _); [|done].
      destruct (Z.geb_spec (Z.min (Z.of_nat (length s)) (start + C)) (Z.of_nat (length s)));
        [done|].
      intros [= <- _]. lia.
  - intros HO Hne HL. split.
    + intros chunks. unfold chunk_turn. fold C O.
      assert (0 < Z.of_nat (length s)) by (destruct s; [done|simpl; lia]).
      destruct (Z.ltb_spec 0 (Z.of_nat (length s))); [|lia].
      destruct (Z.geb_spec (Z.min (Z.of_nat (length s)) (0 + C)) (Z.of_nat (length s))); [lia|].
      rewrite Z.max_l by lia. eauto.
    + intros fuel. rewrite chunkText_loop by done. by apply chunk_loop_stuck.
Qed.

Lemma chunkText_terminates_witness :
  (0 <= CHUNK_OVERLAP tight_env < CHUNK_SIZE tight_env
   ∧ ∃ chunks, ∀ fuel, (length (normalize (str "abcdefghijkl")) <= fuel)%nat →
       chunkText tight_env fuel (str "abcdefghijkl") = Some chunks)
  ∧ (CHUNK_SIZE stuck_env <= CHUNK_OVERLAP stuck_env
     ∧ ∀ fuel, chunkText stuck_env fuel (str "abcdefghijkl") = None).
Proof.
  assert (0 <= CHUNK_OVERLAP tight_env < CHUNK_SIZE tight_env) as H1 by (simpl; lia).
  assert (CHUNK_SIZE stuck_env <= CHUNK_OVERLAP stuck_env) as H2 by (simpl; lia).
  assert (normalize (str "abcdefghijkl") ≠ []) as H3 by (vm_compute; discriminate).
  assert (CHUNK_SIZE stuck_env < Z.of_nat (length (normalize (str "abcdefghijkl")))) as H4
    by (vm_compute; reflexivity).
  split.
  - split; [exact H1|].
    exact (proj1 (proj1 (chunkText_terminates tight_env (str "abcdefghijkl")) H1)).
  - split; [exact H2|].
    exact (proj2 (proj2 (chunkText_terminates stuck_env (str "abcdefghijkl")) H2 H3 H4)).
Defined.

(** *** A text gives a chunk *)

Lemma chunk_loop_pushes (env : RagEnv) (s : jstring) (fuel : nat) : ∀ start acc r,
  chunk_loop env fuel s start acc = Some r →
  (length acc <= length r)%nat
  ∧ (start < Z.of_nat (length s) → (length acc < length r)%nat).
Proof.
  induction fuel as [|fuel IH]; intros start acc r E; [done|]. simpl in E.
  unfold chunk_turn in E. destruct (Z.ltb_spec start (Z.of_nat (length s))).
  - destruct (_ >=? _).
    + injection E as <-. rewrite length_app. simpl. lia.
    + apply IH in E as [E _]. rewrite length_app in E. simpl in E. lia.
  - injection E as <-. lia.
Qed.

Lemma chunkText_some_chunk (env : RagEnv) (fuel : nat) (text : jstring) (chunks : list jstring) :
  normalize text ≠ [] → chunkText env fuel text = Some chunks → chunks ≠ [].
Proof.
  unfold chunkText. intros Hne E. destruct (normalize text) as [|c s] eqn:En; [done|].
  destruct (_ <=? _); [by injection E as <-|].
  apply chunk_loop_pushes in E as [_ E]. intros ->. simpl in E. lia.
Qed.
Example chunkText_examples :
  chunkText default_env 0 (str "  hello   world
 ") = Some [str "hello world"]
  ∧ chunkText tight_env 12 (str "abcdefghijkl")
    = Some [str "abcde"; str "defgh"; str "ghijk"; str "jkl"].
Proof. vm_compute. split; reflexivity. Qed.

(** *** The normalized text *)

Lemma collapse_go_single (s : jstring) : ∀ b, single_spaced b (collapse_go b s) = true.
Proof.
  induction s as [|c s IH]; intros b; [done|]. simpl.
  destruct (is_space c) eqn:Ec.
  - destruct b; [apply IH|]. simpl. rewrite IH. done.
  - simpl. rewrite Ec. apply IH.
Qed.

Lemma single_spaced_weaken (s : jstring) (b : bool) :
  single_spaced b s = true → single_spaced false s = true.
Proof. destruct s as [|c s]; [done|]. simpl. destruct (is_space c), b; naive_solver. Qed.

Lemma single_spaced_app_l (a x : jstring) : ∀ b,
  single_spaced b (a ++ x) = true → single_spaced b a = true.
Proof.
  induction a as [|c a IH]; intros b; [done|]. simpl.
  destruct (is_space c); [|apply IH].
  intros [[-> E]%andb_prop H]%andb_prop. rewrite E. simpl. by apply IH.
Qed.

Lemma single_spaced_app_r (a x : jstring) : ∀ b,
  single_spaced b (a ++ x) = true → single_spaced false x = true.
Proof.
  induction a as [|c a IH]; intros b; [apply single_spaced_weaken|]. simpl.
  destruct (is_space c); [|apply IH].
  intros [_ H]%andb_prop. by apply IH in H.
Qed.

Lemma collapse_go_fixed (s : jstring) : ∀ b, single_spaced b s = true → collapse_go b s = s.
Proof.
  induction s as [|c s IH]; intros b; [done|]. simpl.
  destruct (is_space c) eqn:Ec.
  - intros [[Hb E%bool_decide_eq_true]%andb_prop H]%andb_prop. destruct b; [done|].
    rewrite (IH _ H). by rewrite E.
  - intros H. by rewrite (IH _ H).
Qed.

Lemma trim_start_fixed (s : jstring) :
  (∀ c r, s = c :: r → is_space c = false) → trim_start s = s.
Proof. destruct s as [|c s]; [done|]. intros H. simpl. by rewrite (H c s eq_refl). Qed.

Lemma trim_end_fixed (s : jstring) :
  (∀ r c, s = r ++ [c] → is_space c = false) → trim_end s = s.
Proof.
  intros H. unfold trim_end. rewrite trim_start_fixed; [apply rev_involutive|].
  intros c r E. apply (H (rev r) c). rewrite <-(rev_involutive s), E. done.
Qed.

Lemma trim_end_last (s r : jstring) (c : ascii) : trim_end s = r ++ [c] → is_space c = false.
Proof.
  unfold trim_end. intros E. apply (f_equal (@rev _)) in E.
  rewrite rev_involutive, rev_app_distr in E. simpl in E. by apply trim_start_head in E.
Qed.

Lemma normalize_single_spaced (text : jstring) : single_spaced false (normalize text) = true.
Proof.
  unfold normalize, trim, collapse_ws.
  destruct (trim_start_suffix (collapse_go false text)) as [pre Hpre].
  destruct (trim_end_prefix (trim_start (collapse_go false text))) as [post Hpost].
  pose proof (collapse_go_single text false) as H.
  rewrite Hpre in H. apply single_spaced_app_r in H.
  rewrite Hpost in H. by apply single_spaced_app_l in H.
Qed.

Lemma filter_rev {A} (P : A → Prop) `{!∀ x, Decision (P x)} (l : list A) :
  filter P (rev l) = rev (filter P l).
Proof.
  induction l as [|x l IH]; [done|]. simpl. rewrite filter_app, IH, filter_cons.
  destruct (decide (P x)); simpl.
  - rewrite filter_cons_True, filter_nil; done.
  - rewrite filter_cons_False, filter_nil, app_nil_r; done.
Qed.

Lemma filter_trim_start (s : jstring) :
  filter (λ c, is_space c = false) (trim_start s) = filter (λ c, is_space c = false) s.
Proof.
  induction s as [|c s IH]; [done|]. simpl. destruct (is_space c) eqn:Ec; [|done].
  rewrite IH, filter_cons_False; [done|]. congruence.
Qed.

Lemma filter_collapse_go (s : jstring) : ∀ b,
  filter (λ c, is_space c = false) (collapse_go b s) = filter (λ c, is_space c = false) s.
Proof.
  induction s as [|c s IH]; intros b; [done|]. simpl. destruct (is_space c) eqn:Ec.
  - rewrite (filter_cons_False _ c) by congruence.
    destruct b; [apply IH|]. rewrite filter_cons_False; [apply IH|]. by compute.
  - rewrite !filter_cons_True by done. by rewrite IH.
Qed.

Lemma length_trim_start (s : jstring) : (length (trim_start s) <= length s)%nat.
Proof. destruct (trim_start_suffix s) as [pre E]. rewrite E at 2. rewrite length_app. lia. Qed.

Lemma length_trim_end (s : jstring) : (length (trim_end s) <= length s)%nat.
Proof. destruct (trim_end_prefix s) as [post E]. rewrite E at 2. rewrite length_app. lia. Qed.

Lemma length_collapse_go (s : jstring) : ∀ b, (length (collapse_go b s) <= length s)%nat.
Proof.
  induction s as [|c s IH]; intros b; [done|]. simpl.
  pose proof (IH true). pose proof (IH false).
  destruct (is_space c); [destruct b|]; simpl; lia.
Qed.

Lemma length_normalize (text : jstring) : (length (normalize text) <= length text)%nat.
Proof.
  unfold normalize, trim, collapse_ws.
  pose proof (length_trim_end (trim_start (collapse_go false text))).
  pose proof (length_trim_start (collapse_go false text)).
  pose proof (length_collapse_go text false). lia.
Qed.

(** X1. The text [chunkText] cuts, which is also the text [extractText]
    leaves: its first and its last character are not white space; a
    white-space character in it is a plain space, and the character after
    it is not white space; its characters that are not white space are
    those of the input, in the same order; and it is never longer than the
    input. *)
Theorem normalize_clean (text : jstring) :
  let n := normalize text in
  (∀ c r, n = c :: r → is_space c = false)
  ∧ (∀ r c, n = r ++ [c] → is_space c = false)
  ∧ (∀ a c b, n = a ++ c :: b → is_space c = true →
       c = space ∧ ∀ c' b', b = c' :: b' → is_space c' = false)
  ∧ filter (λ c, is_space c = false) n = filter (λ c, is_space c = false) text
  ∧ (length n <= length text)%nat.
Proof.
  intros n. split_and!.
  - intros c r. apply trim_head.
  - intros r c. apply trim_end_last.
  - intros a c b E Hc. pose proof (normalize_single_spaced text) as H. fold n in H.
    rewrite E in H. apply single_spaced_app_r in H. simpl in H. rewrite Hc in H.
    simpl in H. apply andb_prop in H as [E'%bool_decide_eq_true H]. split; [done|].
    intros c' b' ->. simpl in H. destruct (is_space c'); [done|done].
  - unfold n, normalize, trim, trim_end, collapse_ws.
    by rewrite filter_rev, filter_trim_start, filter_rev, rev_involutive,
      filter_trim_start, filter_collapse_go.
  - apply length_normalize.
Qed.

Lemma normalize_fixed (s : jstring) :
  single_spaced false s = true →
  (∀ c r, s = c :: r → is_space c = false) →
  (∀ r c, s = r ++ [c] → is_space c = false) →
  normalize s = s.
Proof.
  intros H1 H2 H3. unfold normalize, trim, collapse_ws.
  by rewrite collapse_go_fixed, trim_start_fixed, trim_end_fixed.
Qed.

(** X2. Normalizing is idempotent: a normalized text is its own normal
    form, so chunking a normalized text gives what chunking the text it
    came from gives. *)
Theorem normalize_idempotent (env : RagEnv) (fuel : nat) (text : jstring) :
  normalize (normalize text) = normalize text
  ∧ chunkText env fuel (normalize text) = chunkText env fuel text.
Proof.
  assert (normalize (normalize text) = normalize text) as E.
  { apply normalize_fixed.
    - apply normalize_single_spaced.
    - intros c r. apply trim_head.
    - intros r c. apply trim_end_last. }
  split; [done|]. unfold chunkText. by rewrite E.
Qed.

(** *** Sizes and number of the chunks *)

Lemma length_window (s : jstring) (start C : Z) :
  0 < C → 0 <= start < Z.of_nat (length s) →
  0 < Z.of_nat (length (slice s start (Z.min (Z.of_nat (length s)) (start + C)))) <= C.
Proof.
  intros HC Hs. rewrite length_slice; lia.
Qed.

Lemma chunk_loop_sizes (env : RagEnv) (s : jstring) (fuel : nat) : ∀ start acc r,
  0 < CHUNK_SIZE env → 0 <= start →
  Forall (λ c, 0 < Z.of_nat (length c) <= CHUNK_SIZE env) acc →
  chunk_loop env fuel s start acc = Some r →
  Forall (λ c, 0 < Z.of_nat (length c) <= CHUNK_SIZE env) r.
Proof.
  induction fuel as [|fuel IH]; intros start acc r HC Hs Hacc; [done|].
  simpl. unfold chunk_turn.
  destruct (Z.ltb_spec start (Z.of_nat (length s))) as [Hlt|Hge]; [|by intros [= <-]].
  assert (Forall (λ c, 0 < Z.of_nat (length c) <= CHUNK_SIZE env)
            (acc ++ [slice s start (Z.min (Z.of_nat (length s)) (start + CHUNK_SIZE env))])).
  { apply Forall_app. split; [done|]. constructor; [|done]. by apply length_window. }
  destruct (_ >=? _); [by intros [= <-]|].
  apply IH; [done|lia|done].
Qed.

(** X3. With [0 <= CHUNK_OVERLAP < CHUNK_SIZE], whenever [chunkText]
    returns: it returns no chunk exactly when the normalized text is empty;
    every chunk is non-empty and at most [CHUNK_SIZE] long; and n chunks
    mean a normalized text longer than (n - 1) * (size - overlap). *)
Theorem chunkText_bounds (env : RagEnv) (fuel : nat) (text : jstring) (chunks : list jstring) :
  0 <= CHUNK_OVERLAP env < CHUNK_SIZE env →
  chunkText env fuel text = Some chunks →
  (chunks = [] ↔ normalize text = [])
  ∧ Forall (λ c, 0 < Z.of_nat (length c) <= CHUNK_SIZE env) chunks
  ∧ (Z.of_nat (length chunks) - 1) * (CHUNK_SIZE env - CHUNK_OVERLAP env)
    < Z.of_nat (length (normalize text)).
Proof.
  intros HO E.
  destruct (decide (normalize text = [])) as [E0|Hne].
  { rewrite chunkText_blank in E by done. injection E as <-. rewrite E0. simpl.
    split_and!; [done|done|lia]. }
  assert (0 < Z.of_nat (length (normalize text))) as Hpos.
  { destruct (normalize text); [done|simpl; lia]. }
  destruct (Z.le_gt_cases (Z.of_nat (length (normalize text))) (CHUNK_SIZE env)) as [Hle|Hgt].
  { rewrite chunkText_one in E by done. injection E as <-.
    split_and!; [done| |simpl; lia]. constructor; [lia|done]. }
  split_and!.
  - split; [|done]. intros ->. by eapply chunkText_some_chunk in E.
  - rewrite chunkText_loop in E by done.
    eapply chunk_loop_sizes in E; [done|lia|done|done].
  - destruct (chunkText_chain env text HO Hgt) as (chunks' & Hchain & Hfuel).
    assert (chunks' = chunks) as ->.
    { specialize (Hfuel (max fuel (length (normalize text))) ltac:(lia)).
      rewrite chunkText_loop in E, Hfuel by done.
      apply (chunk_loop_mono env _ fuel (max fuel (length (normalize text)))) in E; [|lia].
      congruence. }
    pose proof (chain_nonempty _ _ _ _ Hchain) as Hn.
    destruct (chain_bounds _ _ _ _ Hchain) as [Hfull _].
    destruct (decide (length chunks = 1%nat)) as [->|]; [simpl; lia|].
    specialize (Hfull (length chunks - 2)%nat ltac:(lia)). nia.
Qed.

Lemma chunkText_bounds_witness :
  0 <= CHUNK_OVERLAP tight_env < CHUNK_SIZE tight_env
  ∧ chunkText tight_env 12 (str "abcdefghijkl")
    = Some [str "abcde"; str "defgh"; str "ghijk"; str "jkl"]
  ∧ Forall (λ c, 0 < Z.of_nat (length c) <= CHUNK_SIZE tight_env)
      [str "abcde"; str "defgh"; str "ghijk"; str "jkl"].
Proof.
  assert (0 <= CHUNK_OVERLAP tight_env < CHUNK_SIZE tight_env) as HO by (simpl; lia).
  assert (chunkText tight_env 12 (str "abcdefghijkl")
          = Some [str "abcde"; str "defgh"; str "ghijk"; str "jkl"]) as E
    by (vm_compute; reflexivity).
  split; [exact HO|]. split; [exact E|].
  exact (proj1 (proj2 (chunkText_bounds tight_env 12 (str "abcdefghijkl") _ HO E))).
Defined.

(** *** The chunker returns *)

(** With [0 <= CHUNK_OVERLAP < CHUNK_SIZE], fuel for one turn per character
    of the normalized text gives the chunks. *)
Lemma chunkText_returns (env : RagEnv) (text : jstring) :
  0 <= CHUNK_OVERLAP env < CHUNK_SIZE env →
  ∃ chunks, ∀ fuel, (length (normalize text) <= fuel)%nat →
    chunkText env fuel text = Some chunks.
Proof.
  intros HO. destruct (decide (normalize text = [])) as [E0|Hne].
  { exists []. intros fuel _. by apply chunkText_blank. }
  destruct (Z.le_gt_cases (Z.of_nat (length (normalize text))) (CHUNK_SIZE env)) as [Hle|Hgt].
  { exists [normalize text]. intros fuel _. by apply chunkText_one. }
  destruct (chunkText_chain env text HO) as (chunks & _ & Hfuel); [lia|]. by exists chunks.
Qed.
End ChunkerFacts.

(** ** Retriever *)

Module RetrieverFacts.
Import Retriever.

(** *** Query terms *)

Lemma alnum_not_space (c : ascii) : is_alnum_lower c = true → is_space c = false.
Proof.
  unfold is_alnum_lower, is_space. generalize (code c). intros n H.
  apply orb_true_iff in H as [H|H]; apply andb_true_iff in H as [H1 H2];
    apply N.leb_le in H1, H2;
    repeat (apply orb_false_iff; split); try apply andb_false_iff;
    rewrite ?N.leb_gt, ?N.eqb_neq; lia.
Qed.

Lemma alnum_lower_fixed (c : ascii) : is_alnum_lower c = true → lower_char c = c.
Proof.
  unfold is_alnum_lower, lower_char. generalize (code c). intros n H.
  apply orb_true_iff in H as [H|H]; apply andb_true_iff in H as [H1 H2];
    apply N.leb_le in H1, H2.
  all: destruct (N.leb_spec 65 n), (N.leb_spec n 90), (N.leb_spec 192 n), (N.leb_spec n 222);
    simpl; try lia; done.
Qed.

(** The pieces [split_ws] cuts hold no white space, and only characters of
    the string. *)
Lemma split_ws_go_chars (s : jstring) : ∀ in_sep cur piece c,
  piece ∈ split_ws_go in_sep cur s → c ∈ piece →
  (∀ x, x ∈ cur → is_space x = false) →
  is_space c = false ∧ (c ∈ cur ∨ c ∈ s).
Proof.
  induction s as [|x s IH]; intros in_sep cur piece c Hp Hc Hcur; simpl in Hp.
  - apply list_elem_of_singleton in Hp as ->. apply elem_of_rev in Hc. auto.
  - destruct (is_space x) eqn:Ex.
    + assert (piece ∈ rev cur :: split_ws_go true [] s) as Hp'.
      { destruct in_sep; [by right|done]. }
      apply elem_of_cons in Hp' as [->|Hp'].
      * apply elem_of_rev in Hc. auto.
      * destruct (IH true [] piece c Hp' Hc) as [? [H|H]]; [by intros ? ?%elem_of_nil| |].
        -- by apply elem_of_nil in H.
        -- split; [done|]. right. by right.
    + destruct (IH false (x :: cur) piece c Hp Hc) as [? [H|H]].
      * intros y [->|Hy]%elem_of_cons; auto.
      * split; [done|]. apply elem_of_cons in H as [->|H]; [right; left|by left].
      * split; [done|]. right. by right.
Qed.

(** A query term is longer than two characters, all of them in [a-z0-9]. *)
Lemma tokenize_spec (text term : jstring) :
  term ∈ tokenize text →
  (2 < length term)%nat ∧ ∀ c, c ∈ term → is_alnum_lower c = true.
Proof.
  unfold tokenize. intros [Hlen Hin]%list_elem_of_filter. split; [done|].
  intros c Hc.
  destruct (split_ws_go_chars _ false [] term c Hin Hc) as [Hsp [H|H]];
    [by intros ? ?%elem_of_nil|by apply elem_of_nil in H|].
  unfold strip_symbols in H. apply list_elem_of_fmap in H as (y & -> & _).
  destruct (is_alnum_lower y) eqn:Ey; simpl in *; [done|].
  destruct (is_space y) eqn:Ey'; [congruence|]. done.
Qed.

Lemma token_nonempty (text term : jstring) : term ∈ tokenize text → term ≠ [].
Proof. intros [Hlen _]%tokenize_spec ->. simpl in Hlen. lia. Qed.

Lemma token_no_space (text term : jstring) : term ∈ tokenize text → space ∉ term.
Proof.
  intros [_ H]%tokenize_spec Hin. apply H in Hin. by apply alnum_not_space in Hin.
Qed.

Lemma token_lower (text term : jstring) : term ∈ tokenize text → toLowerCase term = term.
Proof.
  intros [_ H]%tokenize_spec. unfold toLowerCase.
  induction term as [|c t IH]; [done|]. rewrite fmap_cons. f_equal.
  - apply alnum_lower_fixed, H. left.
  - apply IH. intros x Hx. apply H. by right.
Qed.

(** *** Scores *)

Lemma score_term_ge (hay title url : jstring) (score : nat) (term : jstring) :
  (score <= score_term hay title url score term)%nat.
Proof.
  unfold score_term. destruct term; [lia|].
  repeat match goal with |- context [if ?b then _ else _] => destruct b end; lia.
Qed.

Lemma foldl_score_ge (hay title url : jstring) (terms : list jstring) : ∀ score,
  (score <= foldl (score_term hay title url) score terms)%nat.
Proof.
  induction terms as [|t terms IH]; intros score; simpl; [lia|].
  etrans; [apply (score_term_ge hay title url score t)|apply IH].
Qed.

Lemma scoreChunk_zero (content title url : jstring) (terms : list jstring) :
  (∀ term, term ∈ terms →
     includes (toLowerCase (title ++ [space] ++ url ++ [space] ++ content)) term = false
     ∧ includes (toLowerCase title) term = false
     ∧ includes (toLowerCase url) term = false) →
  scoreChunk content title url terms = 0%nat.
Proof.
  unfold scoreChunk. generalize (toLowerCase (title ++ [space] ++ url ++ [space] ++ content)).
  intros hay. induction terms as [|t terms IH]; intros H; simpl; [done|].
  destruct (H t) as (H1 & H2 & H3); [left|].
  assert (score_term hay title url 0 t = 0%nat) as ->.
  { unfold score_term. destruct t; [done|].
    rewrite occurrences_none, H2, H3 by done. done. }
  apply IH. intros term Hterm. apply H. by right.
Qed.

(** A term found in the title scores its occurrence and the flat 4. *)
Lemma foldl_score_title (hay title url : jstring) (terms : list jstring) (term : jstring) :
  term ∈ terms → term ≠ [] → includes hay term = true →
  includes (toLowerCase title) term = true →
  ∀ score, (score + 5 <= foldl (score_term hay title url) score terms)%nat.
Proof.
  intros Hin Hne Hhay Ht.
  induction terms as [|t terms IH]; intros score; [by apply elem_of_nil in Hin|].
  simpl. apply elem_of_cons in Hin as [<-|Hin].
  - etrans; [|apply foldl_score_ge].
    unfold score_term. destruct term as [|c term]; [done|].
    pose proof (occurrences_some hay (c :: term) Hne Hhay) as Hocc.
    destruct (Nat.ltb_spec 0 (occurrences hay (c :: term))); [|lia].
    rewrite Ht. destruct (includes (toLowerCase url) (c :: term)); lia.
  - etrans; [|by apply IH]. pose proof (score_term_ge hay title url score t). lia.
Qed.

Lemma scoreChunk_title (content title url : jstring) (terms : list jstring) (term : jstring) :
  term ∈ terms → term ≠ [] → includes (toLowerCase title) term = true →
  (5 <= scoreChunk content title url terms)%nat.
Proof.
  intros Hin Hne Ht. unfold scoreChunk.
  apply (foldl_score_title _ title url terms term Hin Hne) with (score := 0%nat); [|done].
  unfold toLowerCase. rewrite fmap_app. by apply includes_app_l.
Qed.

Lemma hay_includes (title url content term : jstring) :
  term ≠ [] → space ∉ term →
  includes (toLowerCase (title ++ [space] ++ url ++ [space] ++ content)) term = true →
  includes (toLowerCase title) term = true
  ∨ includes (toLowerCase url) term = true
  ∨ includes (toLowerCase content) term = true.
Proof.
  intros Hne Hsp. unfold toLowerCase. rewrite !fmap_app. simpl.
  change (lower_char space) with space.
  intros [H|H]%includes_sep; [auto|..]; [|done..].
  apply includes_sep in H as [H|H]; auto.
Qed.

(** *** The stable sort by score *)

Lemma insert_by_score_perm (x : PreparedChunk) (l : list PreparedChunk) :
  insert_by_score x l ≡ₚ x :: l.
Proof.
  induction l as [|y l IH]; simpl; [done|].
  destruct (pc_score x <? pc_score y)%nat; [|done].
  rewrite IH. apply Permutation_swap.
Qed.

Lemma sort_by_score_perm (l : list PreparedChunk) : sort_by_score l ≡ₚ l.
Proof.
  induction l as [|x l IH]; simpl; [done|].
  by rewrite insert_by_score_perm, IH.
Qed.

Lemma insert_by_score_sorted (x : PreparedChunk) (l : list PreparedChunk) :
  StronglySorted score_ge l → StronglySorted score_ge (insert_by_score x l).
Proof.
  induction 1 as [|y l Hl IH Hy]; simpl; [repeat constructor|].
  destruct (Nat.ltb_spec (pc_score x) (pc_score y)).
  - constructor; [done|]. apply Forall_forall. intros z Hz.
    rewrite insert_by_score_perm in Hz. apply elem_of_cons in Hz as [->|Hz].
    + unfold score_ge. lia.
    + rewrite Forall_forall in Hy. auto.
  - constructor; [by constructor|]. apply Forall_cons. split; [done|].
    rewrite Forall_forall in *. intros z Hz. specialize (Hy z Hz).
    unfold score_ge in *. lia.
Qed.

Lemma sort_by_score_sorted (l : list PreparedChunk) : StronglySorted score_ge (sort_by_score l).
Proof.
  induction l as [|x l IH]; simpl; [constructor|]. by apply insert_by_score_sorted.
Qed.

(** The first chunk after the sort has the highest score. *)
Lemma sorted_head_max (l : list PreparedChunk) (h : PreparedChunk) (rest : list PreparedChunk)
    (x : PreparedChunk) :
  sort_by_score l = h :: rest → x ∈ l → (pc_score x <= pc_score h)%nat.
Proof.
  intros E Hx. pose proof (sort_by_score_sorted l) as Hs. rewrite E in Hs.
  rewrite <- sort_by_score_perm, E in Hx. inversion Hs as [|?? _ Hall]; subst.
  apply elem_of_cons in Hx as [->|Hx]; [lia|].
  rewrite Forall_forall in Hall. by apply Hall.
Qed.

Lemma bestScore_spec (env : RagEnv) (domain q : jstring) (opts : Opts) (d : Database) :
  bestScore (retrieveRagContext env domain q opts d)
  = match sort_by_score (score_rows (tokenize q) (getRagChunks domain d)) with
    | s :: _ => pc_score s
    | [] => 0%nat
    end.
Proof.
  unfold retrieveRagContext. destruct (getRagChunks domain d) as [|r rows]; [done|].
  by destruct (assemble _ _ _ _ _).
Qed.

(** C8. With the minimum topic score at its default 2: [isLikelyOnTopic]
    is false when no term of the tokenized message is a substring of the
    lowercased title, url or content of any stored chunk of the domain; and
    it is true, with a best score of at least 5, when some term of the
    tokenized message occurs in the title of a stored chunk of the domain,
    verbatim or after lowercasing the title. *)
Theorem isLikelyOnTopic_lexical (env : RagEnv) (domain message : jstring) (d : Database) :
  RAG_MIN_TOPIC_SCORE env = 2 →
  ((∀ term row,
      term ∈ tokenize message → row ∈ rag_chunks d → row_domain row = domain →
      includes (toLowerCase (row_title row)) term = false
      ∧ includes (toLowerCase (row_url row)) term = false
      ∧ includes (toLowerCase (row_content row)) term = false) →
   isLikelyOnTopic env domain message d = false)
  ∧ ((∃ term row,
        term ∈ tokenize message ∧ row ∈ rag_chunks d ∧ row_domain row = domain
        ∧ (includes (row_title row) term = true
           ∨ includes (toLowerCase (row_title row)) term = true)) →
     isLikelyOnTopic env domain message d = true
     ∧ (5 <= bestScore (retrieveRagContext env domain message
                          {| topK := Some 1%Z; maxChars := Some 1200%Z |} d))%nat).
Proof.
  intros Hmin. unfold isLikelyOnTopic. rewrite Hmin, bestScore_spec. split.
  - intros Hnone.
    destruct (sort_by_score _) as [|h rest] eqn:Es; [done|].
    assert (h ∈ score_rows (tokenize message) (getRagChunks domain d)) as Hh.
    { rewrite <- sort_by_score_perm, Es. left. }
    apply list_elem_of_fmap in Hh as (row & -> & Hrow). simpl.
    apply elem_of_getRagChunks in Hrow as [Hrow Hd].
    rewrite scoreChunk_zero; [done|]. intros term Hterm.
    destruct (Hnone term row Hterm Hrow Hd) as (Ht & Hu & Hc).
    split; [|done].
    destruct (includes (toLowerCase (_ ++ _)) term) eqn:E; [|done].
    apply hay_includes in E as [E|[E|E]]; try congruence.
    + by apply token_nonempty in Hterm.
    + by apply token_no_space in Hterm.
  - intros (term & row & Hterm & Hrow & Hd & Htitle).
    assert (includes (toLowerCase (row_title row)) term = true) as Hlower.
    { destruct Htitle as [Hraw|?]; [|done].
      rewrite <- (token_lower message term Hterm). by apply includes_fmap. }
    assert (row ∈ getRagChunks domain d) as Hin by (by apply elem_of_getRagChunks).
    set (chunk := {| pc_url := row_url row; pc_title := row_title row;
                     pc_chunkId := row_chunkId row; pc_content := row_content row;
                     pc_score := scoreChunk (row_content row) (row_title row) (row_url row)
                                   (tokenize message) |}).
    assert (chunk ∈ score_rows (tokenize message) (getRagChunks domain d)) as Hchunk.
    { apply list_elem_of_fmap. by exists row. }
    assert (5 <= pc_score chunk)%nat as H5.
    { simpl. apply (scoreChunk_title _ _ _ _ term Hterm); [|done].
      by apply token_nonempty in Hterm. }
    destruct (sort_by_score _) as [|h rest] eqn:Es.
    + rewrite <- sort_by_score_perm, Es in Hchunk. by apply elem_of_nil in Hchunk.
    + pose proof (sorted_head_max _ _ _ _ Es Hchunk).
      split; [|lia]. destruct (Z.geb_spec (Z.of_nat (pc_score h)) 2); [done|lia].
Qed.

Lemma isLikelyOnTopic_lexical_witness :
  RAG_MIN_TOPIC_SCORE default_env = 2
  ∧ isLikelyOnTopic default_env acme (str "What is the weather on Mars?") plumber_db = false
  ∧ isLikelyOnTopic default_env acme (str "Do you do plumbing?") plumber_db = true.
Proof.
  split; [reflexivity|]. split.
  - apply (proj1 (isLikelyOnTopic_lexical default_env acme (str "What is the weather on Mars?")
                    plumber_db eq_refl)).
    intros term row Hterm Hrow _.
    vm_compute in Hterm, Hrow.
    apply list_elem_of_singleton in Hrow as ->.
    repeat (apply elem_of_cons in Hterm as [->|Hterm]; [vm_compute; repeat split; reflexivity|]).
    by apply elem_of_nil in Hterm.
  - apply (proj2 (isLikelyOnTopic_lexical default_env acme (str "Do you do plumbing?")
                    plumber_db eq_refl)).
    exists (str "plumbing"). eexists. split; [compute_done|].
    split; [vm_compute; left|]. split; [vm_compute; reflexivity|].
    right. vm_compute. reflexivity.
Defined.

(** *** Selection *)

Lemma keeps_mono (k : Z) (i j si sj : nat) :
  (i <= j)%nat → (sj <= si)%nat → keeps k i si = false → keeps k j sj = false.
Proof.
  unfold keeps. intros Hij Hs H.
  destruct (Z.ltb_spec (Z.of_nat i) k), (Z.ltb_spec (Z.of_nat j) k),
    (Nat.ltb_spec 0 si), (Nat.ltb_spec 0 sj), (Nat.ltb_spec i 2), (Nat.ltb_spec j 2);
    simpl in *; try done; lia.
Qed.

(** Once the filter drops a chunk it drops all that rank below it. *)
Lemma select_from_none (k : Z) (l : list PreparedChunk) : ∀ i j sc,
  (i <= j)%nat → keeps k i sc = false →
  Forall (λ s, (pc_score s <= sc)%nat) l →
  select_from k j l = [].
Proof.
  induction l as [|s l IH]; intros i j sc Hij Hk Hall; [done|].
  apply Forall_cons in Hall as [Hs Hall]. simpl.
  rewrite (keeps_mono k i j sc (pc_score s)) by done.
  apply (IH i (S j) sc); [lia|done..].
Qed.

(** On a ranked list the filter keeps a prefix: within [topK], positive
    beyond the first two positions, and holding those two when [topK]
    allows. *)
Lemma select_from_prefix (k : Z) (l : list PreparedChunk) : ∀ i,
  StronglySorted score_ge l →
  ∃ m, select_from k i l = take m l
       ∧ (m <= length l)%nat
       ∧ Z.of_nat (i + m) <= Z.max (Z.of_nat i) k
       ∧ (∀ j s, (j < m)%nat → l !! j = Some s → (0 < pc_score s)%nat ∨ (i + j < 2)%nat)
       ∧ (∀ j, Z.of_nat (i + j) < k → (i + j < 2)%nat → (j < length l)%nat → (j < m)%nat).
Proof.
  induction l as [|s l IH]; intros i Hs.
  - exists 0%nat. simpl. repeat split; try done; intros; lia.
  - apply StronglySorted_inv in Hs as [Hs Hall]. simpl.
    destruct (keeps k i (pc_score s)) eqn:Hk.
    + destruct (IH (S i) Hs) as (m & E & Hm & Hk' & Hpos & Htwo).
      exists (S m). simpl. rewrite E. split; [done|].
      unfold keeps in Hk. apply andb_true_iff in Hk as [Hk1 Hk2].
      apply Z.ltb_lt in Hk1. apply orb_true_iff in Hk2.
      rewrite Nat.ltb_lt in Hk2. rewrite Nat.ltb_lt in Hk2.
      split; [lia|]. split; [lia|]. split.
      * intros [|j] c Hj Hc; simpl in Hc.
        -- injection Hc as <-. rewrite Nat.add_0_r. done.
        -- destruct (Hpos j c ltac:(lia) Hc); [by left|right; lia].
      * intros [|j] H1 H2 H3; [lia|].
        assert (j < m)%nat; [|lia]. apply Htwo; simpl in *; lia.
    + exists 0%nat. split.
      * apply (select_from_none k l i (S i) (pc_score s)); [lia|done|].
        eapply Forall_impl; [exact Hall|]. intros x Hx. exact Hx.
      * simpl. split; [lia|]. split; [lia|]. split; [intros; lia|].
        intros j H1 H2 H3. exfalso.
        assert (keeps k i (pc_score s) = true); [|congruence].
        unfold keeps. apply andb_true_iff. split; [apply Z.ltb_lt; lia|].
        apply orb_true_iff. right. apply Nat.ltb_lt. lia.
Qed.

Lemma select_length (k : Z) (l : list PreparedChunk) :
  StronglySorted score_ge l → Z.of_nat (length (select k l)) <= Z.max 0 k.
Proof.
  intros Hs. destruct (select_from_prefix k l 0 Hs) as (m & E & Hm & Hk & _).
  unfold select. rewrite E, length_take. lia.
Qed.

(** C6, as the code has it. The chunks kept for the context are a prefix
    of the chunks ranked by descending score; they are no more than [topK];
    for [n] up to 2 and up to [topK], the [n] highest-ranked chunks are
    kept whatever their score (both of the first two when [topK >= 2], the
    first only when [topK = 1]); and every kept chunk beyond the first two
    has a score above 0. *)
Theorem selected_is_ranked_prefix (env : RagEnv) (domain userQuery : jstring) (opts : Opts)
    (d : Database) :
  let k := default (TOP_K env) (topK opts) in
  let ranked := sort_by_score (score_rows (tokenize userQuery) (getRagChunks domain d)) in
  let selected := selected_chunks env domain userQuery opts d in
  ranked ≡ₚ score_rows (tokenize userQuery) (getRagChunks domain d)
  ∧ (∀ i j a b, (i <= j)%nat → ranked !! i = Some a → ranked !! j = Some b →
       (pc_score b <= pc_score a)%nat)
  ∧ (∃ m, selected = take m ranked)
  ∧ Z.of_nat (length selected) <= Z.max 0 k
  ∧ (∀ n, (n <= 2)%nat → Z.of_nat n <= k → take n selected = take n ranked)
  ∧ (∀ i c, selected !! i = Some c → (2 <= i)%nat → (0 < pc_score c)%nat).
Proof.
  intros k ranked selected.
  pose proof (sort_by_score_sorted (score_rows (tokenize userQuery) (getRagChunks domain d)))
    as Hsorted. fold ranked in Hsorted.
  destruct (select_from_prefix k ranked 0 Hsorted) as (m & E & Hm & Hk & Hpos & Htwo).
  assert (selected = take m ranked) as Hsel by exact E.
  split; [apply sort_by_score_perm|]. split; [|split; [eauto|split; [|split]]].
  - intros i j a b Hij Ha Hb. destruct (decide (i = j)) as [->|Hne].
    { rewrite Ha in Hb. injection Hb as ->. done. }
    rewrite <- (take_drop j ranked) in Hsorted.
    apply (StronglySorted_app_1_elem_of score_ge _ _ a b Hsorted).
    + apply list_elem_of_lookup. exists i. rewrite lookup_take_lt by lia. done.
    + apply list_elem_of_lookup. exists 0%nat. rewrite lookup_drop, Nat.add_0_r. done.
  - rewrite Hsel, length_take. lia.
  - intros n Hn2 Hnk. rewrite Hsel, take_take.
    destruct (decide (n <= m)%nat); [by rewrite Nat.min_l by lia|].
    rewrite Nat.min_r by lia.
    destruct (decide (m < length ranked)%nat) as [Hlt|Hge].
    + exfalso. specialize (Htwo m). simpl in Htwo. lia.
    + rewrite !take_ge by lia. done.
  - intros i c Hc Hi. rewrite Hsel in Hc. apply lookup_take_Some in Hc as [Hc Hlt].
    destruct (Hpos i c Hlt Hc); [done|lia].
Qed.

Lemma selected_is_ranked_prefix_witness :
  let ranked :=
    sort_by_score (score_rows (tokenize (str "plumbing")) (getRagChunks acme acme_db)) in
  let selected := selected_chunks default_env acme (str "plumbing") no_opts acme_db in
  2 <= default (TOP_K default_env) (topK no_opts) ∧ take 2 selected = take 2 ranked.
Proof.
  intros ranked selected.
  assert (2 <= default (TOP_K default_env) (topK no_opts)) as Hk by (simpl; lia).
  split; [exact Hk|].
  destruct (selected_is_ranked_prefix default_env acme (str "plumbing") no_opts acme_db)
    as (_ & _ & _ & _ & Htwo & _).
  exact (Htwo 2%nat (Nat.le_refl 2) Hk).
Defined.

(** C6 as stated fails when [topK] is 1, as [isLikelyOnTopic] calls the
    retriever: of two stored chunks the second-ranked is not kept. *)
Lemma top1_drops_second_counterexample :
  let ranked :=
    sort_by_score (score_rows (tokenize (str "plumbing")) (getRagChunks acme acme_db)) in
  let selected := selected_chunks default_env acme (str "plumbing")
                    {| topK := Some 1; maxChars := Some 1200 |} acme_db in
  length ranked = 2%nat ∧ length selected = 1%nat ∧ take 2 selected ≠ take 2 ranked.
Proof. vm_compute. repeat split; try reflexivity. discriminate. Qed.

(** *** The character budget *)

Lemma assemble_cons (maxChars : Z) (chunk : PreparedChunk) (rest : list PreparedChunk)
    (parts srcs : list jstring) (total : nat) :
  assemble maxChars (chunk :: rest) parts srcs total
  = if Z.of_nat (total + length (entry_of chunk)) >? maxChars then (parts, srcs)
    else assemble maxChars rest (parts ++ [entry_of chunk]) (set_add srcs (pc_url chunk))
           (total + length (entry_of chunk))%nat.
Proof. reflexivity. Qed.

(** The loop keeps the characters of the blocks within the budget. *)
Lemma assemble_spec (maxChars : Z) (selected : list PreparedChunk) :
  ∀ parts srcs total parts' srcs',
  assemble maxChars selected parts srcs total = (parts', srcs') →
  total = total_length parts →
  (parts = [] ∨ Z.of_nat total <= maxChars) →
  (length parts' <= length parts + length selected)%nat
  ∧ (parts' = [] ∨ Z.of_nat (total_length parts') <= maxChars).
Proof.
  induction selected as [|chunk rest IH]; intros parts srcs total parts' srcs' E Ht Hb.
  - simpl in E. simplify_eq. split; [simpl; lia|]. done.
  - rewrite assemble_cons in E.
    destruct (Z.gtb_spec (Z.of_nat (total + length (entry_of chunk))) maxChars).
    + simplify_eq. split; [simpl; lia|]. done.
    + apply IH in E as [Hlen Hbound].
      * split; [|done]. rewrite length_app in Hlen. simpl in *. lia.
      * unfold total_length. rewrite sum_list_with_app. simpl.
        unfold total_length in Ht. lia.
      * right. lia.
Qed.

(** What the budget bounds is the blocks; the blank lines that join them
    come on top: a context is empty or at most [maxChars + 2 * (topK - 1)]
    long. *)
Lemma context_length_bound (env : RagEnv) (domain userQuery : jstring) (opts : Opts)
    (d : Database) :
  let r := retrieveRagContext env domain userQuery opts d in
  let k := default (TOP_K env) (topK opts) in
  let budget := default (MAX_CONTEXT_CHARS env) (maxChars opts) in
  context r = [] ∨ Z.of_nat (length (context r)) <= budget + 2 * (k - 1).
Proof.
  intros r k budget. unfold r, retrieveRagContext.
  destruct (getRagChunks domain d) as [|row rows] eqn:Erows; [by left|].
  fold k budget.
  set (ranked := sort_by_score _).
  destruct (assemble budget (select k ranked) [] [] 0) as [parts srcs] eqn:Ea.
  apply assemble_spec in Ea as [Hlen Hbound]; [|done|by left]. simpl.
  destruct parts as [|p parts]; [by left|].
  destruct Hbound as [?|Hbound]; [done|]. right.
  rewrite length_join.
  pose proof (select_length k ranked (sort_by_score_sorted _)) as Hsel.
  change (length blank_line) with 2%nat. simpl length in *. simpl pred. lia.
Qed.

(** C2: the code at a failing input. Two stored chunks whose blocks are
    43 characters each fit a budget of 86 characters; joined by a blank
    line the context is 88 characters long. *)
Theorem context_exceeds_maxChars :
  let r := retrieveRagContext default_env acme (str "plumbing")
             {| topK := None; maxChars := Some 86 |} acme_db in
  context r = str "--- T (https://acme.test/a) [chunk 0] ---
c

--- T (https://acme.test/b) [chunk 0] ---
c"
  ∧ length (context r) = 88%nat
  ∧ 86 < Z.of_nat (length (context r)).
Proof. vm_compute. repeat split; reflexivity. Qed.

Example tokenize_example :
  tokenize (str "Do you fix PIPES? See https://acme.test/pipes?x=1 or call us")
  = [str "you"; str "fix"; str "pipes"; str "see"; str "call"].
Proof. vm_compute. reflexivity. Qed.

(** The scenario of the specification: one page of one chunk, and the
    query "drain cleaning". *)
Example drain_cleaning_scenario :
  let r := retrieveRagContext default_env acme (str "drain cleaning") no_opts plumber_db in
  bestScore r = 2%nat
  ∧ sources r = [str "https://acme.test/"]
  ∧ context r = str "--- Acme plumbing (https://acme.test/) [chunk 0] ---
Acme Plumbing services include drain cleaning and pipe repair.".
Proof. vm_compute. repeat split; reflexivity. Qed.

(** *** Terms, scores and ranking, further *)

Lemma lower_char_idemp (c : ascii) : lower_char (lower_char c) = lower_char c.
Proof. destruct c as [[] [] [] [] [] [] [] []]; vm_compute; reflexivity. Qed.

(** X8. Every query term is longer than 2 characters, consists of
    characters in [a-z0-9] and is its own lowercase; and the terms of a
    text do not depend on its case. *)
Theorem tokenize_terms (text : jstring) :
  (∀ term, term ∈ tokenize text →
     (2 < length term)%nat ∧ (∀ c, c ∈ term → is_alnum_lower c = true)
     ∧ toLowerCase term = term)
  ∧ tokenize (toLowerCase text) = tokenize text.
Proof.
  split.
  - intros term Hterm. destruct (tokenize_spec _ _ Hterm) as [H1 H2].
    split_and!; [done..|]. by eapply token_lower.
  - unfold tokenize. do 4 f_equal. unfold toLowerCase.
    rewrite <- list_fmap_compose. apply list_fmap_ext. intros _ c _. apply lower_char_idemp.
Qed.

Lemma score_term_add (hay title url : jstring) (a b : nat) (term : jstring) :
  score_term hay title url (a + b) term = (a + score_term hay title url b term)%nat.
Proof.
  unfold score_term. destruct term; [done|].
  repeat match goal with |- context [if ?c then _ else _] => destruct c end; lia.
Qed.

Lemma foldl_score_add (hay title url : jstring) (terms : list jstring) : ∀ a b,
  foldl (score_term hay title url) (a + b)%nat terms
  = (a + foldl (score_term hay title url) b terms)%nat.
Proof.
  induction terms as [|t terms IH]; intros a b; simpl; [done|].
  by rewrite score_term_add, IH.
Qed.

Lemma foldl_score_sum (hay title url : jstring) (terms : list jstring) :
  foldl (score_term hay title url) 0%nat terms
  = sum_list_with (λ term, score_term hay title url 0%nat term) terms.
Proof.
  induction terms as [|t terms IH]; [done|]. simpl.
  rewrite <- IH, <- foldl_score_add. by rewrite Nat.add_0_r.
Qed.

(** X9. The score of a chunk is the sum, over the query terms, of the
    score of each term alone: a term repeated in the query counts each
    time, and the order of the terms does not matter. *)
Theorem scoreChunk_additive (content title url : jstring) (terms : list jstring) :
  scoreChunk content title url terms
  = sum_list_with (λ term, scoreChunk content title url [term]) terms.
Proof.
  unfold scoreChunk. apply foldl_score_sum.
Qed.

Lemma includes_app_r (a b t : jstring) : includes b t = true → includes (a ++ b) t = true.
Proof.
  intros (pre & post & ->)%includes_app. apply includes_app. exists (a ++ pre), post.
  by rewrite <- app_assoc.
Qed.

Lemma hay_has_title (title url content term : jstring) :
  includes (toLowerCase title) term = true →
  includes (toLowerCase (title ++ [space] ++ url ++ [space] ++ content)) term = true.
Proof. intros H. unfold toLowerCase. rewrite fmap_app. by apply includes_app_l. Qed.

Lemma hay_has_url (title url content term : jstring) :
  includes (toLowerCase url) term = true →
  includes (toLowerCase (title ++ [space] ++ url ++ [space] ++ content)) term = true.
Proof.
  intros H. unfold toLowerCase. rewrite !fmap_app.
  apply includes_app_r, includes_app_r. by apply includes_app_l.
Qed.

Lemma score_term_positive (hay title url term : jstring) :
  (includes (toLowerCase title) term = true → includes hay term = true) →
  (includes (toLowerCase url) term = true → includes hay term = true) →
  (0 < score_term hay title url 0 term)%nat ↔ term ≠ [] ∧ includes hay term = true.
Proof.
  intros Ht Hu. unfold score_term. destruct term as [|c t]; [split; [lia|by intros [? _]]|].
  destruct (includes hay (c :: t)) eqn:Eh.
  - split; [intros _; split; [discriminate|reflexivity]|]. intros _.
    pose proof (occurrences_some hay (c :: t) ltac:(discriminate) Eh).
    destruct (Nat.ltb_spec 0 (occurrences hay (c :: t))); [|lia].
    repeat match goal with |- context [if ?c then _ else _] => destruct c end; lia.
  - split; [|by intros [_ ?]]. rewrite (occurrences_none _ _ Eh). simpl.
    destruct (includes (toLowerCase title) (c :: t)); [by specialize (Ht eq_refl)|].
    destruct (includes (toLowerCase url) (c :: t)); [by specialize (Hu eq_refl)|].
    lia.
Qed.

(** X10. A chunk scores above 0 exactly when a non-empty query term is a
    substring of its lowercased haystack "title url content". *)
Theorem scoreChunk_positive_iff (content title url : jstring) (terms : list jstring) :
  (0 < scoreChunk content title url terms)%nat
  ↔ ∃ term, term ∈ terms ∧ term ≠ []
      ∧ includes (toLowerCase (title ++ [space] ++ url ++ [space] ++ content)) term = true.
Proof.
  unfold scoreChunk.
  pose proof (λ term, score_term_positive _ title url term
                        (hay_has_title title url content term)
                        (hay_has_url title url content term)) as Hone.
  revert Hone. generalize (toLowerCase (title ++ [space] ++ url ++ [space] ++ content)).
  intros hay Hone. rewrite foldl_score_sum.
  induction terms as [|t terms IH]; cbn [sum_list_with].
  - split; [lia|]. by intros (? & ?%elem_of_nil & _).
  - split.
    + intros H.
      destruct (decide (0 < score_term hay title url 0 t)%nat) as [Ht|Ht].
      * apply Hone in Ht as [? ?]. exists t. split_and!; [left|done..].
      * destruct (proj1 IH ltac:(lia)) as (term & ? & ? & ?). exists term.
        split_and!; [by right|done..].
    + intros (term & [->|Hin]%elem_of_cons & Hne & Hinc).
      * pose proof (proj2 (Hone t) (conj Hne Hinc)). lia.
      * pose proof (proj2 IH (ex_intro _ term (conj Hin (conj Hne Hinc)))). lia.
Qed.

Lemma filter_insert_by_score (v : nat) (x : PreparedChunk) (l : list PreparedChunk) :
  filter (λ c, pc_score c = v) (insert_by_score x l)
  = filter (λ c, pc_score c = v) (x :: l).
Proof.
  induction l as [|y l IH]; [done|]. simpl.
  destruct (Nat.ltb_spec (pc_score x) (pc_score y)) as [Hlt|]; [|done].
  rewrite (filter_cons _ y), IH, !(filter_cons _ x), (filter_cons _ y).
  repeat case_decide; try done. lia.
Qed.

(** X11. The ranking is a permutation of the scored chunks, in descending
    order of score, in which the chunks of a same score keep the order they
    had: the (url, chunk id) order of [getRagChunks]. *)
Theorem sort_by_score_stable (l : list PreparedChunk) :
  sort_by_score l ≡ₚ l
  ∧ StronglySorted score_ge (sort_by_score l)
  ∧ (∀ v, filter (λ c, pc_score c = v) (sort_by_score l) = filter (λ c, pc_score c = v) l).
Proof.
  split_and!.
  - apply sort_by_score_perm.
  - apply sort_by_score_sorted.
  - intros v. induction l as [|x l IH]; [done|]. simpl.
    by rewrite filter_insert_by_score, !filter_cons, IH.
Qed.

(** X12. [topScore] is [bestScore]; [bestScore] is at least the score of
    every stored chunk of the domain, and it is the score of one of them,
    or 0 when the domain has no chunk. *)
Theorem bestScore_is_max (env : RagEnv) (domain q : jstring) (opts : Opts) (d : Database) :
  let r := retrieveRagContext env domain q opts d in
  topScore r = bestScore r
  ∧ (∀ row, row ∈ rag_chunks d → row_domain row = domain →
       (score_of q row <= bestScore r)%nat)
  ∧ ((∃ row, row ∈ rag_chunks d ∧ row_domain row = domain ∧ bestScore r = score_of q row)
     ∨ (getRagChunks domain d = [] ∧ bestScore r = 0%nat)).
Proof.
  intros r. split_and!.
  - unfold r, retrieveRagContext. destruct (getRagChunks domain d); [done|].
    by destruct (assemble _ _ _ _ _).
  - intros row Hrow Hd. unfold r. rewrite bestScore_spec.
    assert (row ∈ getRagChunks domain d) as Hin by by apply elem_of_getRagChunks.
    destruct (sort_by_score _) as [|h rest] eqn:Es.
    { apply (f_equal length) in Es. rewrite sort_by_score_perm in Es.
      unfold score_rows in Es. rewrite length_fmap in Es.
      destruct (getRagChunks domain d); [by apply elem_of_nil in Hin|done]. }
    eapply (sorted_head_max _ _ _
              {| pc_url := row_url row; pc_title := row_title row;
                 pc_chunkId := row_chunkId row; pc_content := row_content row;
                 pc_score := score_of q row |}) in Es; [exact Es|].
    unfold score_rows. apply list_elem_of_fmap. by exists row.
  - unfold r. rewrite bestScore_spec.
    destruct (sort_by_score _) as [|h rest] eqn:Es.
    + right. split; [|done]. apply (f_equal length) in Es.
      rewrite sort_by_score_perm in Es. unfold score_rows in Es. rewrite length_fmap in Es.
      by destruct (getRagChunks domain d).
    + left. assert (h ∈ score_rows (tokenize q) (getRagChunks domain d)) as Hh.
      { rewrite <- sort_by_score_perm, Es. left. }
      apply list_elem_of_fmap in Hh as (row & -> & Hrow).
      apply elem_of_getRagChunks in Hrow as [? ?]. by exists row.
Qed.

Lemma getRagChunks_unknown (domain : jstring) (d : Database) :
  (∀ row, row ∈ rag_chunks d → row_domain row ≠ domain) → getRagChunks domain d = [].
Proof.
  intros H. unfold getRagChunks. rewrite filter_none; [done|]. by apply Forall_forall.
Qed.

(** X13. For a domain without a stored chunk [retrieveRagContext] returns
    the empty context, no source and a best score of 0, and
    [isLikelyOnTopic] holds exactly when the minimum topic score is 0 or
    less. *)
Theorem retrieve_unknown_domain (env : RagEnv) (domain q : jstring) (opts : Opts)
    (d : Database) :
  (∀ row, row ∈ rag_chunks d → row_domain row ≠ domain) →
  retrieveRagContext env domain q opts d
  = {| context := []; sources := []; bestScore := 0; topScore := 0 |}
  ∧ isLikelyOnTopic env domain q d = (RAG_MIN_TOPIC_SCORE env <=? 0).
Proof.
  intros H. unfold isLikelyOnTopic, retrieveRagContext.
  rewrite (getRagChunks_unknown _ _ H). split; [done|]. simpl. apply Z.geb_leb.
Qed.

Lemma retrieve_unknown_domain_witness :
  retrieveRagContext default_env (str "https://other.test") (str "plumbing") no_opts acme_db
  = {| context := []; sources := []; bestScore := 0; topScore := 0 |}
  ∧ isLikelyOnTopic default_env (str "https://other.test") (str "plumbing") acme_db = false.
Proof.
  apply (retrieve_unknown_domain default_env (str "https://other.test") (str "plumbing")
           no_opts acme_db).
  intros row Hrow. vm_compute in Hrow.
  repeat (apply elem_of_cons in Hrow as [->|Hrow]; [discriminate|]).
  by apply elem_of_nil in Hrow.
Defined.

Lemma set_add_spec (srcs : list jstring) (u : jstring) :
  (NoDup srcs → NoDup (set_add srcs u))
  ∧ (∀ v, v ∈ set_add srcs u ↔ v ∈ srcs ∨ v = u).
Proof.
  unfold set_add. case_bool_decide as Hu.
  - split; [done|]. intros v. split; [auto|]. by intros [?| ->].
  - split.
    + intros H. apply NoDup_app. split_and!; [done| |apply NoDup_singleton].
      intros v Hv ->%list_elem_of_singleton. done.
    + intros v. rewrite elem_of_app, list_elem_of_singleton. done.
Qed.

Lemma foldl_set_add_spec (urls : list jstring) : ∀ srcs,
  (NoDup srcs → NoDup (foldl set_add srcs urls))
  ∧ (∀ v, v ∈ foldl set_add srcs urls ↔ v ∈ srcs ∨ v ∈ urls)
  ∧ (length (foldl set_add srcs urls) <= length srcs + length urls)%nat.
Proof.
  induction urls as [|u urls IH]; intros srcs; simpl.
  - split_and!; [done| |lia]. intros v. rewrite elem_of_nil.
    split; [auto|by intros [?|[]]].
  - destruct (IH (set_add srcs u)) as (H1 & H2 & H3).
    destruct (set_add_spec srcs u) as [H4 H5]. split_and!.
    + auto.
    + intros v. rewrite H2, H5, elem_of_cons.
      split; [intros [[?| ->]|?]; auto|intros [?|[->|?]]; auto].
    + etrans; [exact H3|]. unfold set_add. case_bool_decide; rewrite ?length_app; simpl; lia.
Qed.

Lemma total_length_cons (p : jstring) (parts : list jstring) :
  total_length (p :: parts) = (length p + total_length parts)%nat.
Proof. reflexivity. Qed.

(** The loop takes the blocks of the longest prefix that fits. *)
Lemma assemble_prefix (maxChars : Z) (selected : list PreparedChunk) :
  ∀ parts srcs total,
  ∃ m, (m <= length selected)%nat
    ∧ assemble maxChars selected parts srcs total
      = (parts ++ (entry_of <$> take m selected),
         foldl set_add srcs (pc_url <$> take m selected))
    ∧ (m = 0%nat
       ∨ Z.of_nat (total + total_length (entry_of <$> take m selected)) <= maxChars)
    ∧ (∀ c, selected !! m = Some c →
         maxChars < Z.of_nat (total + total_length (entry_of <$> take m selected)
                              + length (entry_of c))).
Proof.
  induction selected as [|chunk rest IH]; intros parts srcs total.
  - exists 0%nat. simpl. rewrite app_nil_r. split_and!; [lia|done|by left|done].
  - rewrite assemble_cons.
    destruct (Z.gtb_spec (Z.of_nat (total + length (entry_of chunk))) maxChars) as [Hgt|Hle].
    + exists 0%nat. rewrite take_0, !fmap_nil, app_nil_r.
      split_and!; [simpl; lia|done|by left|].
      intros c [= <-]. change (total_length []) with 0%nat. lia.
    + destruct (IH (parts ++ [entry_of chunk]) (set_add srcs (pc_url chunk))
                  (total + length (entry_of chunk))%nat) as (m & Hm & E & Hfit & Hnext).
      exists (S m). rewrite firstn_cons, !fmap_cons, total_length_cons.
      split_and!.
      * simpl. lia.
      * rewrite E, <- app_assoc. done.
      * right. destruct Hfit as [->|Hfit]; [|lia].
        rewrite take_0, fmap_nil. change (total_length []) with 0%nat. lia.
      * intros c Hc. specialize (Hnext c Hc). lia.
Qed.

(** X14. The context is the blocks of the first m selected chunks joined
    by blank lines, where these m blocks fit the budget together and the
    block of the next selected chunk, if there is one, would pass it; its
    length is the length of the blocks plus 2 for each blank line; the
    sources are the urls of these m chunks, without repeats, and each is
    the url of a stored chunk of the domain. *)
Theorem context_blocks (env : RagEnv) (domain q : jstring) (opts : Opts) (d : Database) :
  let r := retrieveRagContext env domain q opts d in
  let budget := default (MAX_CONTEXT_CHARS env) (maxChars opts) in
  let sel := selected_chunks env domain q opts d in
  ∃ m, (m <= length sel)%nat
    ∧ context r = join blank_line (entry_of <$> take m sel)
    ∧ length (context r) = (total_length (entry_of <$> take m sel) + 2 * pred m)%nat
    ∧ (m = 0%nat ∨ Z.of_nat (total_length (entry_of <$> take m sel)) <= budget)
    ∧ (∀ c, sel !! m = Some c →
         budget < Z.of_nat (total_length (entry_of <$> take m sel) + length (entry_of c)))
    ∧ NoDup (sources r)
    ∧ (∀ u, u ∈ sources r ↔ ∃ c, c ∈ take m sel ∧ pc_url c = u)
    ∧ (∀ u, u ∈ sources r →
         ∃ row, row ∈ rag_chunks d ∧ row_domain row = domain ∧ row_url row = u).
Proof.
  intros r budget sel.
  assert (∀ c, c ∈ sel →
            ∃ row, row ∈ rag_chunks d ∧ row_domain row = domain ∧ row_url row = pc_url c)
    as Hsel.
  { intros c Hc. unfold sel, selected_chunks, select in Hc.
    destruct (select_from_prefix (default (TOP_K env) (topK opts))
                (sort_by_score (score_rows (tokenize q) (getRagChunks domain d))) 0
                (sort_by_score_sorted _)) as (m & E & _).
    rewrite E in Hc. apply elem_of_take in Hc as (i & Hc & _).
    apply list_elem_of_lookup_2 in Hc. rewrite sort_by_score_perm in Hc.
    apply list_elem_of_fmap in Hc as (row & -> & Hrow).
    apply elem_of_getRagChunks in Hrow as [? ?]. by exists row. }
  assert (∃ m, (m <= length sel)%nat
            ∧ (context r, sources r)
              = (join blank_line (entry_of <$> take m sel),
                 foldl set_add [] (pc_url <$> take m sel))
            ∧ (m = 0%nat ∨ Z.of_nat (total_length (entry_of <$> take m sel)) <= budget)
            ∧ (∀ c, sel !! m = Some c →
                 budget < Z.of_nat (total_length (entry_of <$> take m sel)
                                    + length (entry_of c)))) as (m & Hm & E & Hfit & Hnext).
  { unfold r, retrieveRagContext, sel, selected_chunks.
    destruct (getRagChunks domain d) as [|row rows] eqn:Erows.
    - exists 0%nat. simpl. split_and!; [lia|done|by left|done].
    - fold budget. set (s := select _ _).
      destruct (assemble_prefix budget s [] [] 0) as (m & Hm & -> & Hfit & Hnext).
      exists m. simpl. split_and!; done. }
  injection E as Ec Es. exists m.
  destruct (foldl_set_add_spec (pc_url <$> take m sel) []) as (Hnd & Hin & _).
  split_and!; try done.
  - rewrite Ec, JsFacts.length_join, length_fmap, length_take.
    change (length blank_line) with 2%nat. by rewrite Nat.min_l.
  - rewrite Es. apply Hnd. constructor.
  - intros u. rewrite Es, Hin, elem_of_nil, list_elem_of_fmap.
    split; [intros [[]|(c & -> & Hc)]; eauto|intros (c & Hc & <-); eauto].
  - intros u. rewrite Es, Hin, elem_of_nil, list_elem_of_fmap.
    intros [[]|(c & -> & Hc)]. apply Hsel. apply elem_of_take in Hc as (i & Hc & _).
    by eapply list_elem_of_lookup_2.
Qed.

Lemma sort_by_score_ties (v : nat) (l : list PreparedChunk) :
  Forall (λ c, pc_score c = v) l → sort_by_score l = l.
Proof.
  induction 1 as [|x l Hx Hl IH]; [done|]. simpl. rewrite IH.
  destruct Hl as [|y l Hy Hl]; [done|]. simpl.
  destruct (Nat.ltb_spec (pc_score x) (pc_score y)); [lia|done].
Qed.

Lemma select_from_zero (k : Z) (l : list PreparedChunk) : ∀ i,
  Forall (λ c, pc_score c = 0%nat) l →
  select_from k i l = take (Z.to_nat (Z.min 2 k) - i) l.
Proof.
  induction l as [|c l IH]; intros i Hl; [by rewrite take_nil|].
  apply Forall_cons in Hl as [Hc Hl]. simpl. rewrite Hc, (IH _ Hl). unfold keeps. simpl.
  destruct (Z.ltb_spec (Z.of_nat i) k), (Nat.ltb_spec i 2); simpl.
  - replace (Z.to_nat (Z.min 2 k) - i)%nat with (S (Z.to_nat (Z.min 2 k) - S i)) by lia. done.
  - replace (Z.to_nat (Z.min 2 k) - i)%nat with 0%nat by lia.
    replace (Z.to_nat (Z.min 2 k) - S i)%nat with 0%nat by lia. by rewrite take_0.
  - replace (Z.to_nat (Z.min 2 k) - i)%nat with 0%nat by lia.
    replace (Z.to_nat (Z.min 2 k) - S i)%nat with 0%nat by lia. by rewrite take_0.
  - replace (Z.to_nat (Z.min 2 k) - i)%nat with 0%nat by lia.
    replace (Z.to_nat (Z.min 2 k) - S i)%nat with 0%nat by lia. by rewrite take_0.
Qed.

(** X15. A query without terms (no word of more than 2 characters)
    scores every chunk 0: the best score is 0, the chunks selected are the
    first min(2, topK) chunks of the domain in storage order, and
    [isLikelyOnTopic] holds exactly when the minimum topic score is 0 or
    less. *)
Theorem query_without_terms (env : RagEnv) (domain q : jstring) (opts : Opts)
    (d : Database) :
  tokenize q = [] →
  bestScore (retrieveRagContext env domain q opts d) = 0%nat
  ∧ selected_chunks env domain q opts d
    = take (Z.to_nat (Z.min 2 (default (TOP_K env) (topK opts))))
        (score_rows [] (getRagChunks domain d))
  ∧ isLikelyOnTopic env domain q d = (RAG_MIN_TOPIC_SCORE env <=? 0).
Proof.
  intros Hq.
  assert (Forall (λ c, pc_score c = 0%nat) (score_rows [] (getRagChunks domain d))) as Hz.
  { apply Forall_forall. intros c (row & -> & _)%list_elem_of_fmap. done. }
  assert (∀ opts, bestScore (retrieveRagContext env domain q opts d) = 0%nat) as Hbest.
  { intros o. rewrite bestScore_spec, Hq, (sort_by_score_ties 0) by done.
    destruct Hz; done. }
  split_and!.
  - apply Hbest.
  - unfold selected_chunks, select. rewrite Hq, (sort_by_score_ties 0) by done.
    rewrite select_from_zero by done. by rewrite Nat.sub_0_r.
  - unfold isLikelyOnTopic. rewrite Hbest. apply Z.geb_leb.
Qed.

Lemma query_without_terms_witness :
  tokenize (str "hi") = []
  ∧ bestScore (retrieveRagContext default_env acme (str "hi") no_opts acme_db) = 0%nat
  ∧ length (selected_chunks default_env acme (str "hi") no_opts acme_db) = 2%nat
  ∧ isLikelyOnTopic default_env acme (str "hi") acme_db = false.
Proof.
  assert (tokenize (str "hi") = []) as Hq by (vm_compute; reflexivity).
  split; [exact Hq|].
  destruct (query_without_terms default_env acme (str "hi") no_opts acme_db Hq)
    as (H1 & H2 & H3).
  split; [exact H1|]. split; [|exact H3]. rewrite H2. vm_compute. reflexivity.
Defined.

End RetrieverFacts.

(** ** Crawler *)

Module ScraperFacts.

Section Crawl.
Variable P : Platform.
Variable senv : ScraperEnv.

(** *** The sitemap phase returns *)

Lemma sitemap_loop_S (fuel : nat) (base : jstring) (seen : gset jstring) (sm : jstring)
    (queue out fetched : list jstring) :
  sitemap_loop P (S fuel) base seen (sm :: queue) out fetched
  = if negb (Z.of_nat (size seen) <? 40) then Some (out, fetched)
    else if bool_decide (sm ∈ seen) then sitemap_loop P fuel base seen queue out fetched
    else
      let seen' := seen ∪ {[sm]} in
      let fetched' := fetched ++ [sm] in
      match fetch_sitemap P sm with
      | None => sitemap_loop P fuel base seen' queue out fetched'
      | Some res =>
          let ct := toLowerCase (default [] (res_content_type res)) in
          if negb (res_ok res) then sitemap_loop P fuel base seen' queue out fetched'
          else if negb (includes ct (str "xml")) && negb (includes ct (str "text")) then
            sitemap_loop P fuel base seen' queue out fetched'
          else
            let '(queue'', out') :=
              file_locs P base (extractSitemapUrls P (res_body res)) queue out in
            sitemap_loop P fuel base seen' queue'' out' fetched'
      end.
Proof. reflexivity. Qed.

(** Every turn either takes a known sitemap off the queue or marks a new
    one as seen, and no more than 40 get marked. *)
Lemma sitemap_loop_returns (base : jstring) : ∀ (k : nat) queue seen out fetched,
  (40 - size seen <= k)%nat → sitemap_returns P base seen queue out fetched.
Proof.
  assert (Hfull : ∀ queue seen out fetched,
            (40 <= size seen)%nat → sitemap_returns P base seen queue out fetched).
  { intros queue seen out fetched Hsz. exists 1%nat. intros [|fuel] ?; [lia|]. simpl.
    destruct queue; [eauto|].
    destruct (Z.ltb_spec (Z.of_nat (size seen)) 40); [lia|]. simpl. eauto. }
  induction k as [|k IHk]; [intros; apply Hfull; lia|].
  induction queue as [|sm queue IHq]; intros seen out fetched Hk.
  { exists 1%nat. intros [|fuel] ?; [lia|]. simpl. eauto. }
  destruct (decide (40 <= size seen)%nat) as [|Hsz]; [by apply Hfull|].
  assert (Hlift : ∀ seen' queue' out' fetched',
            sitemap_returns P base seen' queue' out' fetched' →
            (∀ fuel, sitemap_loop P (S fuel) base seen (sm :: queue) out fetched
                     = sitemap_loop P fuel base seen' queue' out' fetched') →
            sitemap_returns P base seen (sm :: queue) out fetched).
  { intros seen' queue' out' fetched' [n Hn] E. exists (S n).
    intros [|fuel] Hfuel; [lia|]. rewrite E. apply Hn. lia. }
  destruct (decide (sm ∈ seen)) as [Hin|Hnin].
  - apply (Hlift seen queue out fetched); [by apply IHq|].
    intros fuel. rewrite sitemap_loop_S.
    destruct (Z.ltb_spec (Z.of_nat (size seen)) 40); [|lia]. simpl.
    by rewrite bool_decide_eq_true_2.
  - assert (Hnew : ∀ queue' out' fetched',
              sitemap_returns P base (seen ∪ {[sm]}) queue' out' fetched').
    { intros. apply IHk. rewrite size_union by set_solver. rewrite size_singleton. lia. }
    assert (Hhead : ∀ fuel X,
              (if negb (Z.of_nat (size seen) <? 40) then Some (out, fetched)
               else if bool_decide (sm ∈ seen)
                    then sitemap_loop P fuel base seen queue out fetched
                    else X) = X).
    { intros fuel X. destruct (Z.ltb_spec (Z.of_nat (size seen)) 40); [|lia]. simpl.
      by rewrite bool_decide_eq_false_2. }
    destruct (fetch_sitemap P sm) as [res|] eqn:Ef.
    + destruct (negb (res_ok res)) eqn:Eok.
      * eapply Hlift; [apply Hnew|]. intros fuel.
        rewrite sitemap_loop_S, Hhead, Ef. cbv zeta. rewrite Eok. reflexivity.
      * destruct (negb (includes (toLowerCase (default [] (res_content_type res))) (str "xml"))
                  && negb (includes (toLowerCase (default [] (res_content_type res)))
                             (str "text"))) eqn:Ect.
        -- eapply Hlift; [apply Hnew|]. intros fuel.
           rewrite sitemap_loop_S, Hhead, Ef. cbv zeta. rewrite Eok, Ect. reflexivity.
        -- destruct (file_locs P base (extractSitemapUrls P (res_body res)) queue out)
             as [queue'' out''] eqn:Efile.
           eapply Hlift; [apply Hnew|]. intros fuel.
           rewrite sitemap_loop_S, Hhead, Ef. cbv zeta. rewrite Eok, Ect, Efile. reflexivity.
    + eapply Hlift; [apply Hnew|]. intros fuel.
      rewrite sitemap_loop_S, Hhead, Ef. reflexivity.
Qed.

Lemma sitemap_loop_mono (base : jstring) : ∀ fuel1 fuel2 seen queue out fetched r,
  (fuel1 <= fuel2)%nat →
  sitemap_loop P fuel1 base seen queue out fetched = Some r →
  sitemap_loop P fuel2 base seen queue out fetched = Some r.
Proof.
  induction fuel1 as [|f1 IH]; intros [|f2] seen queue out fetched r Hle Hr;
    try discriminate; try lia.
  simpl in *. destruct queue as [|sm queue]; [done|].
  destruct (negb _); [done|]. destruct (bool_decide _); [apply IH; [lia|done]|].
  destruct (fetch_sitemap P sm) as [res|]; [|apply IH; [lia|done]].
  destruct (negb (res_ok res)); [apply IH; [lia|done]|].
  destruct (_ && _); [apply IH; [lia|done]|].
  destruct (file_locs _ _ _ _ _). apply IH; [lia|done].
Qed.

Lemma crawl_start_returns (base : jstring) (fetched0 : list jstring) :
  ∃ n st0, ∀ fuel, (n <= fuel)%nat → crawl_start P senv fuel base fetched0 = Some st0.
Proof.
  unfold crawl_start, fetchSitemapUrls.
  destruct (resolve P (str "/sitemap.xml") base) as [a|];
    [destruct (resolve P (str "/wp-sitemap.xml") base) as [b|]|].
  - destruct (sitemap_loop_returns base 40 [a; b] ∅ [] fetched0) as [n Hn]; [lia|].
    destruct (Hn n) as [[out f1] Hr]; [lia|].
    exists n. eexists. intros fuel Hfuel.
    rewrite (sitemap_loop_mono base n fuel _ _ _ _ _ Hfuel Hr). reflexivity.
  - exists 0%nat. eexists. intros fuel _. reflexivity.
  - exists 0%nat. eexists. intros fuel _. reflexivity.
Qed.

(** *** The page budget *)

(** What the filling of a batch adds is new, and stays within the budget. *)
Lemma fill_batch_spec (HM : 0 < MAX_PAGES senv) (queue0 : list jstring) :
  ∀ visited0 batch queue' visited' batch',
  fill_batch senv queue0 visited0 batch = (queue', visited', batch') →
  Z.of_nat (size visited0) <= MAX_PAGES senv →
  ∃ added,
    batch' = batch ++ added
    ∧ visited' = visited0 ∪ list_to_set added
    ∧ NoDup added
    ∧ (∀ u, u ∈ added → u ∉ visited0)
    ∧ size visited' = (size visited0 + length added)%nat
    ∧ Z.of_nat (size visited') <= MAX_PAGES senv.
Proof.
  induction queue0 as [|url queue0 IH]; intros visited0 batch queue' visited' batch' E Hsz;
    simpl in E.
  - injection E as <- <- <-. exists []. rewrite app_nil_r. simpl.
    repeat split; [set_solver|constructor|set_solver|lia|done].
  - destruct (Z.ltb_spec (Z.of_nat (length batch)) (CONCURRENCY senv)).
    + destruct (negb (bool_decide (url ∈ visited0)) && canVisitMore senv visited0) eqn:Ec.
      * apply andb_true_iff in Ec as [Hnew Hcan].
        apply negb_true_iff, bool_decide_eq_false in Hnew.
        unfold canVisitMore in Hcan. apply orb_true_iff in Hcan as [Hcan|Hcan];
          [apply Z.leb_le in Hcan; lia|]. apply Z.ltb_lt in Hcan.
        assert (size (visited0 ∪ {[url]}) = S (size visited0)) as Hsize.
        { rewrite size_union by set_solver. rewrite size_singleton. lia. }
        destruct (IH _ _ _ _ _ E) as (added & -> & -> & Hnd & Hfresh & Hlen & Hle);
          [rewrite Hsize; lia|].
        exists (url :: added). rewrite <- app_assoc. simpl.
        split; [done|]. split; [set_solver|]. split.
        { constructor; [|done]. intros Hin. apply Hfresh in Hin. set_solver. }
        split; [|split; [|done]].
        { intros u [->|Hu]%elem_of_cons; [done|]. apply Hfresh in Hu. set_solver. }
        rewrite Hlen, Hsize. lia.
      * by eapply IH.
    + injection E as <- <- <-. exists []. rewrite app_nil_r. simpl.
      repeat split; [set_solver|constructor|set_solver|lia|done].
Qed.

(** A task keeps at most one page. *)
Lemma run_task_pages (visited : gset jstring) (url : jstring)
    (acc : list PageData * list jstring) :
  (length (run_task P visited url acc).1 <= S (length acc.1))%nat.
Proof.
  unfold run_task. destruct acc as [pages discovered].
  destruct (fetchPage P url) as [html|]; simpl; [|lia].
  destruct (_ <? _)%nat; simpl; [lia|]. rewrite length_app. simpl. lia.
Qed.

Lemma run_tasks_pages (visited : gset jstring) (urls : list jstring) : ∀ acc,
  (length (foldl (λ acc url, run_task P visited url acc) acc urls).1
   <= length acc.1 + length urls)%nat.
Proof.
  induction urls as [|u urls IH]; intros acc; simpl; [lia|].
  etrans; [apply IH|]. pose proof (run_task_pages visited u acc). lia.
Qed.

(** A turn keeps the invariant, and one that goes round again has marked
    at least one more url. *)
Lemma crawl_step_spec (HM : 0 < MAX_PAGES senv)
    (Hcompletion : ∀ batch, completion P batch ≡ₚ batch)
    (fetched1 : list jstring) (st : crawl_state) :
  crawl_inv senv fetched1 st →
  match crawl_step P senv st with
  | Leave st' => crawl_inv senv fetched1 st'
  | Again st' =>
      crawl_inv senv fetched1 st' ∧ (size (cs_visited st) < size (cs_visited st'))%nat
  end.
Proof.
  intros (Hsz & pf & Hf & Hnd & Hv & Hp). unfold crawl_step.
  destruct (cs_queue st) as [|q0 queue0] eqn:Eq; [by split; eauto|].
  destruct (negb (canVisitMore senv (cs_visited st))); [by split; eauto|].
  destruct (fill_batch senv (q0 :: queue0) (cs_visited st) [])
    as [[queue' visited'] batch] eqn:Ef.
  destruct (fill_batch_spec HM _ _ _ _ _ _ Ef Hsz)
    as (added & Hb & Hv' & Hnd' & Hfresh & Hlen & Hle).
  simpl in Hb. subst batch.
  destruct added as [|u added].
  - split; simpl; [done|]. exists pf. rewrite Hv'. simpl. split; [done|].
    split; [done|]. split; [set_solver|done].
  - destruct (foldl _ _ _) as [pages' discovered] eqn:Et.
    split; [|simpl in *; lia]. split; [done|]. simpl.
    exists (pf ++ u :: added). rewrite Hf, <- app_assoc. split; [done|]. split.
    { apply NoDup_app. split; [done|]. split; [|done].
      intros x Hx Hx'. apply Hfresh in Hx'. rewrite Hv in Hx'. set_solver. }
    split; [rewrite Hv', Hv; set_solver|].
    pose proof (run_tasks_pages visited' (completion P (u :: added)) (cs_pages st, []))
      as Hlenp.
    rewrite Et in Hlenp. simpl in Hlenp. rewrite (Permutation_length (Hcompletion _)) in Hlenp.
    rewrite length_app. simpl in *. lia.
Qed.

Lemma crawl_reaches_inv (HM : 0 < MAX_PAGES senv)
    (Hcompletion : ∀ batch, completion P batch ≡ₚ batch)
    (fetched1 : list jstring) (st st' : crawl_state) :
  crawl_reaches P senv st st' → crawl_inv senv fetched1 st → crawl_inv senv fetched1 st'.
Proof.
  induction 1 as [st|st st' st'' E _ IH|st st' E]; intros Hinv; [done|..].
  - pose proof (crawl_step_spec HM Hcompletion fetched1 st Hinv) as H.
    rewrite E in H. apply IH, H.
  - pose proof (crawl_step_spec HM Hcompletion fetched1 st Hinv) as H. by rewrite E in H.
Qed.

Lemma crawl_loop_reaches (fuel : nat) : ∀ st st',
  crawl_loop P senv fuel st = Some st' → crawl_reaches P senv st st'.
Proof.
  induction fuel as [|fuel IH]; intros st st' E; [done|]. simpl in E.
  destruct (crawl_step P senv st) as [st1|st1] eqn:Es.
  - eapply reaches_again; [done|]. by apply IH.
  - injection E as <-. by apply reaches_leave.
Qed.

(** The loop leaves within one turn per url still in the budget, and one. *)
Lemma crawl_loop_returns (HM : 0 < MAX_PAGES senv)
    (Hcompletion : ∀ batch, completion P batch ≡ₚ batch)
    (fetched1 : list jstring) (fuel : nat) : ∀ st,
  crawl_inv senv fetched1 st →
  MAX_PAGES senv - Z.of_nat (size (cs_visited st)) < Z.of_nat fuel →
  ∃ st', crawl_loop P senv fuel st = Some st'.
Proof.
  induction fuel as [|fuel IH]; intros st Hinv Hfuel; [destruct Hinv; lia|].
  simpl. pose proof (crawl_step_spec HM Hcompletion fetched1 st Hinv) as H.
  destruct (crawl_step P senv st) as [st1|st1]; [|eauto].
  destruct H as [Hinv1 Hgrow]. apply IH; [done|lia].
Qed.

Lemma crawl_loop_mono : ∀ fuel1 fuel2 st st',
  (fuel1 <= fuel2)%nat →
  crawl_loop P senv fuel1 st = Some st' → crawl_loop P senv fuel2 st = Some st'.
Proof.
  induction fuel1 as [|f1 IH]; intros [|f2] st st' Hle E; try discriminate; try lia.
  simpl in *. destruct (crawl_step P senv st); [|done]. apply IH; [lia|done].
Qed.

(** *** The pages kept have text *)

Lemma run_task_text (visited : gset jstring) (url : jstring)
    (acc : list PageData * list jstring) :
  Forall (λ p, has_text (page_content p)) acc.1 →
  Forall (λ p, has_text (page_content p)) (run_task P visited url acc).1.
Proof.
  intros Hacc. unfold run_task. destruct acc as [pages discovered].
  destruct (fetchPage P url) as [html|]; [|done].
  destruct (_ <? _)%nat eqn:Hlen; [done|]. simpl.
  apply Forall_app. split; [done|]. apply Forall_singleton. simpl.
  by apply kept_content_has_text.
Qed.

Lemma run_tasks_text (visited : gset jstring) (urls : list jstring) : ∀ acc,
  Forall (λ p, has_text (page_content p)) acc.1 →
  Forall (λ p, has_text (page_content p))
    (foldl (λ acc url, run_task P visited url acc) acc urls).1.
Proof.
  induction urls as [|u urls IH]; intros acc Hacc; [done|]. simpl.
  apply IH. by apply run_task_text.
Qed.

Lemma crawl_step_text (st : crawl_state) :
  Forall (λ p, has_text (page_content p)) (cs_pages st) →
  match crawl_step P senv st with
  | Leave st' | Again st' => Forall (λ p, has_text (page_content p)) (cs_pages st')
  end.
Proof.
  intros Hst. unfold crawl_step.
  destruct (cs_queue st) as [|q0 queue0]; [done|].
  destruct (negb _); [done|].
  destruct (fill_batch _ _ _ _) as [[queue' visited'] batch].
  destruct batch as [|u batch]; [done|].
  pose proof (run_tasks_text visited' (completion P (u :: batch)) (cs_pages st, []) Hst) as H.
  destruct (foldl _ _ _) as [pages' discovered]. done.
Qed.

Lemma crawl_loop_text (fuel : nat) : ∀ st st',
  Forall (λ p, has_text (page_content p)) (cs_pages st) →
  crawl_loop P senv fuel st = Some st' →
  Forall (λ p, has_text (page_content p)) (cs_pages st').
Proof.
  induction fuel as [|fuel IH]; intros st st' Hst E; [done|]. simpl in E.
  pose proof (crawl_step_text st Hst) as H.
  destruct (crawl_step P senv st) as [st1|st1]; [by eapply IH|]. by injection E as <-.
Qed.

(** Every page [scrapesite] returns has text. *)
Lemma scrapesite_text (fuel : nat) (domain : jstring) (fetched0 : list jstring)
    (l : list PageData) (fetched : list jstring) :
  scrapesite P senv fuel domain fetched0 = Some (l, fetched) →
  Forall (λ p, has_text (page_content p)) l.
Proof.
  unfold scrapesite, crawl_start. intros E.
  destruct (fetchSitemapUrls _ _ _ _) as [[r f1]|]; [|done].
  destruct (crawl_loop _ _ _ _) as [st|] eqn:El; [|done]. injection E as <- _.
  eapply crawl_loop_text; [|exact El]. simpl. constructor.
Qed.
End Crawl.

(** A crawl with a budget of two pages whose first two fetches fail keeps
    no page, though the third seed would have answered. *)
Lemma fewer_pages_than_budget :
  ∃ fetched html,
    scrapesite about_only two_pages 5 acme [] = Some ([], fetched)
    ∧ (str "/about" ∈ buildSeedQueue about_only two_pages acme)
    ∧ (str "/about" ∉ fetched)
    ∧ fetchPage about_only (str "/about") = Some html
    ∧ (20 <= length (ex_text (extractText about_only html)))%nat.
Proof.
  eexists _, _. split; [vm_compute; reflexivity|].
  split; [compute_done|]. split; [compute_done|].
  split; [vm_compute; reflexivity|]. vm_compute. lia.
Qed.

(** C10. With a page budget [M > 0], on a platform where every task of a
    batch completes once: [scrapesite] returns, given enough fuel; in every
    state its loop passes through at most [M] urls are marked visited; the
    urls handed to [fetchPage] are exactly the visited ones, each fetched
    once, whatever the fetch gave, so there are at most [M] fetch attempts;
    and the pages returned are no more than the fetch attempts, hence at
    most [M]. They can be fewer than [M] while a page that would have
    answered is left unvisited: with [M = 2] and two failing seeds the crawl
    returns no page. *)
Theorem scrapesite_budget (P : Platform) (senv : ScraperEnv) (domain : jstring)
    (fetched0 : list jstring) :
  0 < MAX_PAGES senv →
  (∀ batch, completion P batch ≡ₚ batch) →
  (∃ (n : nat) (st0 st : crawl_state) (page_fetches : list jstring),
     (∀ fuel, (n <= fuel)%nat →
        crawl_start P senv fuel (or_else domain (SITE_DOMAIN senv)) fetched0 = Some st0
        ∧ crawl_loop P senv fuel st0 = Some st
        ∧ scrapesite P senv fuel domain fetched0 = Some (cs_pages st, cs_fetched st))
     ∧ cs_visited st0 = ∅
     ∧ (∀ st1, crawl_reaches P senv st0 st1 →
          Z.of_nat (size (cs_visited st1)) <= MAX_PAGES senv)
     ∧ cs_fetched st = cs_fetched st0 ++ page_fetches
     ∧ NoDup page_fetches
     ∧ cs_visited st = list_to_set page_fetches
     ∧ Z.of_nat (length page_fetches) <= MAX_PAGES senv
     ∧ (length (cs_pages st) <= length page_fetches)%nat
     ∧ Z.of_nat (length (cs_pages st)) <= MAX_PAGES senv)
  ∧ (∃ P' senv' domain' fetched html url,
       MAX_PAGES senv' = 2
       ∧ (∀ batch, completion P' batch ≡ₚ batch)
       ∧ scrapesite P' senv' 5 domain' [] = Some ([], fetched)
       ∧ (url ∈ buildSeedQueue P' senv' domain')
       ∧ (url ∉ fetched)
       ∧ fetchPage P' url = Some html
       ∧ (20 <= length (ex_text (extractText P' html)))%nat).
Proof.
  intros HM Hcompletion. split.
  - destruct (crawl_start_returns P senv (or_else domain (SITE_DOMAIN senv)) fetched0)
      as (n0 & st0 & Hstart).
    assert (cs_visited st0 = ∅ ∧ cs_pages st0 = []) as [Hv0 Hp0].
    { specialize (Hstart n0 (Nat.le_refl _)). unfold crawl_start in Hstart.
      destruct (fetchSitemapUrls _ _ _ _) as [[r f1]|]; [|done]. by injection Hstart as <-. }
    assert (crawl_inv senv (cs_fetched st0) st0) as Hinv0.
    { split; [rewrite Hv0, size_empty; lia|]. exists []. rewrite app_nil_r, Hv0, Hp0.
      repeat split; [constructor|done]. }
    destruct (crawl_loop_returns P senv HM Hcompletion (cs_fetched st0)
                (S (Z.to_nat (MAX_PAGES senv))) st0 Hinv0) as [st Hloop].
    { rewrite Hv0, size_empty. lia. }
    pose proof (crawl_reaches_inv P senv HM Hcompletion (cs_fetched st0) st0 st
                  (crawl_loop_reaches P senv _ _ _ Hloop) Hinv0)
      as (Hsz & pf & Hf & Hnd & Hv & Hp).
    assert (length pf = size (cs_visited st)) as Hlen.
    { rewrite Hv. by rewrite size_list_to_set. }
    exists (Nat.max n0 (S (Z.to_nat (MAX_PAGES senv)))), st0, st, pf.
    split; [|split; [done|split;
      [|split; [done|split; [done|split; [done|split; [lia|split; [done|lia]]]]]]]].
    + intros fuel Hfuel.
      assert (crawl_loop P senv fuel st0 = Some st) as Hloop'.
      { eapply crawl_loop_mono; [|exact Hloop]. lia. }
      split; [apply Hstart; lia|]. split; [done|].
      unfold scrapesite. rewrite Hstart by lia. by rewrite Hloop'.
    + intros st1 Hreach.
      by destruct (crawl_reaches_inv P senv HM Hcompletion (cs_fetched st0) st0 st1
                     Hreach Hinv0).
  - destruct fewer_pages_than_budget as (fetched & html & H1 & H2 & H3 & H4 & H5).
    exists about_only, two_pages, acme, fetched, html, (str "/about").
    repeat split; try done.
Qed.

Lemma scrapesite_budget_witness :
  0 < MAX_PAGES two_pages
  ∧ (∀ batch, completion about_only batch ≡ₚ batch)
  ∧ ∃ (n : nat) (st : crawl_state),
      (∀ fuel, (n <= fuel)%nat →
         scrapesite about_only two_pages fuel acme [] = Some (cs_pages st, cs_fetched st))
      ∧ Z.of_nat (length (cs_pages st)) <= MAX_PAGES two_pages.
Proof.
  assert (0 < MAX_PAGES two_pages) as HM by (simpl; lia).
  assert (∀ batch, completion about_only batch ≡ₚ batch) as Hc
    by (intros batch; apply Permutation_refl).
  split; [exact HM|]. split; [exact Hc|].
  destruct (proj1 (scrapesite_budget about_only two_pages acme [] HM Hc))
    as (n & st0 & st & pf & Hrun & _ & _ & _ & _ & _ & _ & _ & Hpages).
  exists n, st. split; [|exact Hpages].
  intros fuel Hfuel. apply Hrun. exact Hfuel.
Defined.

(** *** Seeds, sitemaps and the pages kept *)

Lemma uniq_spec (l : list jstring) :
  NoDup (uniq l) ∧ (∀ u, u ∈ uniq l ↔ u ∈ l) ∧ (length (uniq l) <= length l)%nat.
Proof.
  destruct (RetrieverFacts.foldl_set_add_spec l []) as (H1 & H2 & H3).
  change (foldl Retriever.set_add [] l) with (uniq l) in *.
  split_and!; [apply H1; constructor| |done].
  intros u. rewrite H2, elem_of_nil. split; [by intros [[]|?]|auto].
Qed.

Lemma length_omap_le {A B} (f : A → option B) (l : list A) :
  (length (omap f l) <= length l)%nat.
Proof.
  induction l as [|x l IH]; [done|].
  change (omap f (x :: l)) with (match f x with Some y => y :: omap f l | None => omap f l end).
  destruct (f x); simpl; lia.
Qed.

Lemma omap_cons_Some {A B} (f : A → option B) (x : A) (y : B) (l : list A) :
  f x = Some y → omap f (x :: l) = y :: omap f l.
Proof.
  intros H.
  change (omap f (x :: l)) with (match f x with Some y => y :: omap f l | None => omap f l end).
  by rewrite H.
Qed.

Lemma uniq_head (u : jstring) (l : list jstring) : head (uniq (u :: l)) = Some u.
Proof.
  assert (∀ l acc, head (foldl (λ acc x, if bool_decide (x ∈ acc) then acc else acc ++ [x])
                           (u :: acc) l) = Some u) as H.
  { clear l. induction l as [|x l IH]; intros acc; [done|]. cbn [foldl].
    case_bool_decide; [apply IH|]. apply (IH (acc ++ [x])). }
  unfold uniq. cbn [foldl]. rewrite bool_decide_eq_false_2 by apply not_elem_of_nil.
  apply (H l []).
Qed.

Section Crawling.
Variable P : Platform.
Variable senv : ScraperEnv.

(** X16. The seed queue has no duplicates; its urls are exactly those
    [normUrl] gives for the base, the twelve priority paths and the extra
    urls; it holds at most 13 urls more than there are extra urls; and it
    starts with the normalized base when [normUrl] accepts the base. *)
Theorem buildSeedQueue_seeds (baseDomain : jstring) :
  NoDup (buildSeedQueue P senv baseDomain)
  ∧ (∀ u, u ∈ buildSeedQueue P senv baseDomain
        ↔ ∃ href, href ∈ baseDomain :: priorityPaths ++ SCRAPER_EXTRA_URLS senv
                  ∧ normUrl P href baseDomain = Some u)
  ∧ (length (buildSeedQueue P senv baseDomain)
     <= 13 + length (SCRAPER_EXTRA_URLS senv))%nat
  ∧ (∀ u, normUrl P baseDomain baseDomain = Some u →
       head (buildSeedQueue P senv baseDomain) = Some u).
Proof.
  unfold buildSeedQueue.
  destruct (uniq_spec (omap (λ href, normUrl P href baseDomain)
                         (baseDomain :: priorityPaths ++ SCRAPER_EXTRA_URLS senv)))
    as (H1 & H2 & H3).
  split_and!; [done| | |].
  - intros u. rewrite H2. apply list_elem_of_omap.
  - etrans; [exact H3|]. etrans; [apply length_omap_le|]. simpl. lia.
  - intros u Hu. rewrite (omap_cons_Some _ _ u) by done. apply uniq_head.
Qed.

Lemma file_locs_normalized (base : jstring) (locs : list jstring) : ∀ queue out queue' out',
  file_locs P base locs queue out = (queue', out') →
  Forall (from_normUrl P) out → Forall (from_normUrl P) out'.
Proof.
  induction locs as [|loc locs IH]; intros queue out queue' out' E Hout; simpl in E.
  - by injection E as _ <-.
  - destruct (normUrl P loc base) as [n|] eqn:En; [|by eapply IH].
    destruct (_ || _); [by eapply IH|]. eapply IH; [exact E|].
    apply Forall_app. split; [done|]. apply Forall_singleton. by exists loc, base.
Qed.

(** What the sitemap loop fetches is new, at most 40 urls in all, and
    the page urls it collects went through [normUrl]. *)
Lemma sitemap_loop_fetches (base : jstring) (fuel : nat) :
  ∀ seen queue out fetched out' fetched',
  sitemap_loop P fuel base seen queue out fetched = Some (out', fetched') →
  (∃ extra, fetched' = fetched ++ extra
     ∧ NoDup extra
     ∧ (∀ u, u ∈ extra → u ∉ seen)
     ∧ (size seen + length extra <= max 40 (size seen))%nat)
  ∧ (Forall (from_normUrl P) out → Forall (from_normUrl P) out').
Proof.
  induction fuel as [|fuel IH]; intros seen queue out fetched out' fetched' E; [done|].
  assert (Hstop : out' = out → fetched' = fetched →
            (∃ extra, fetched' = fetched ++ extra ∧ NoDup extra
               ∧ (∀ u, u ∈ extra → u ∉ seen)
               ∧ (size seen + length extra <= max 40 (size seen))%nat)
            ∧ (Forall (from_normUrl P) out → Forall (from_normUrl P) out')).
  { intros -> ->. split; [|done]. exists []. rewrite app_nil_r.
    split_and!; [done|constructor|by intros ? ?%elem_of_nil|simpl; lia]. }
  destruct queue as [|sm queue]; [simpl in E; injection E as <- <-; by apply Hstop|].
  rewrite sitemap_loop_S in E.
  destruct (Z.ltb_spec (Z.of_nat (size seen)) 40) as [Hsz|];
    [|simpl in E; injection E as <- <-; by apply Hstop].
  simpl negb in E. cbv iota in E.
  case_bool_decide as Hin; [by apply IH in E|].
  assert (Hnew : ∀ queue1 out1,
            sitemap_loop P fuel base (seen ∪ {[sm]}) queue1 out1 (fetched ++ [sm])
            = Some (out', fetched') →
            (Forall (from_normUrl P) out → Forall (from_normUrl P) out1) →
            (∃ extra, fetched' = fetched ++ extra ∧ NoDup extra
               ∧ (∀ u, u ∈ extra → u ∉ seen)
               ∧ (size seen + length extra <= max 40 (size seen))%nat)
            ∧ (Forall (from_normUrl P) out → Forall (from_normUrl P) out')).
  { intros queue1 out1 E1 Hout1.
    apply IH in E1 as [(extra & -> & Hnd & Hfresh & Hlen) Hnorm].
    split; [|auto]. exists (sm :: extra). rewrite <- app_assoc.
    rewrite size_union, size_singleton in Hlen by set_solver.
    split_and!; [done| | |simpl; lia].
    - constructor; [|done]. intros Hsm. apply Hfresh in Hsm. set_solver.
    - intros u [->|Hu]%elem_of_cons; [done|]. apply Hfresh in Hu. set_solver. }
  cbv zeta in E.
  destruct (fetch_sitemap P sm) as [res|]; [|by eapply Hnew].
  destruct (negb (res_ok res)); [by eapply Hnew|].
  destruct (_ && _); [by eapply Hnew|].
  destruct (file_locs P base _ queue out) as [queue1 out1] eqn:Ef.
  eapply Hnew; [exact E|]. by eapply file_locs_normalized.
Qed.

(** X17. [fetchSitemapUrls] returns, given fuel enough; it fetches at
    most 40 sitemaps, none of them twice; the page urls it returns are
    distinct and went through [normUrl]; and when [new URL] rejects the
    base it throws before any fetch. *)
Theorem fetchSitemapUrls_bounded (baseDomain : jstring) (fetched0 : list jstring) :
  ∃ (n : nat) (r : outcome (list jstring)) (sitemaps : list jstring),
    (∀ fuel, (n <= fuel)%nat →
       fetchSitemapUrls P fuel baseDomain fetched0 = Some (r, fetched0 ++ sitemaps))
    ∧ NoDup sitemaps
    ∧ (length sitemaps <= 40)%nat
    ∧ match r with
      | Return urls => NoDup urls ∧ Forall (from_normUrl P) urls
      | Throw _ => sitemaps = []
      end.
Proof.
  unfold fetchSitemapUrls.
  destruct (resolve P (str "/sitemap.xml") baseDomain) as [a|];
    [destruct (resolve P (str "/wp-sitemap.xml") baseDomain) as [b|]|].
  - destruct (sitemap_loop_returns P baseDomain 40 [a; b] ∅ [] fetched0) as [n Hn]; [lia|].
    destruct (Hn n) as [[out f1] Hr]; [lia|].
    destruct (sitemap_loop_fetches _ _ _ _ _ _ _ _ Hr)
      as [(extra & -> & Hnd & _ & Hlen) Hnorm].
    rewrite size_empty in Hlen.
    exists n, (Return (uniq out)), extra.
    split; [|split; [done|split; [lia|]]].
    + intros fuel Hfuel.
      by rewrite (sitemap_loop_mono P baseDomain n fuel _ _ _ _ _ Hfuel Hr).
    + destruct (uniq_spec out) as (H1 & H2 & _). split; [done|].
      apply Forall_forall. intros u Hu%H2.
      specialize (Hnorm ltac:(constructor)). rewrite Forall_forall in Hnorm. auto.
  - exists 0%nat, (Throw (str "Invalid URL")), []. rewrite app_nil_r.
    split; [done|]. split; [constructor|]. split; [simpl; lia|done].
  - exists 0%nat, (Throw (str "Invalid URL")), []. rewrite app_nil_r.
    split; [done|]. split; [constructor|]. split; [simpl; lia|done].
Qed.

(** *** What the loop keeps *)

Lemma crawl_loop_inv (I : crawl_state → Prop) :
  (∀ st, I st → match crawl_step P senv st with Leave st' | Again st' => I st' end) →
  ∀ fuel st st', I st → crawl_loop P senv fuel st = Some st' → I st'.
Proof.
  intros Hstep. induction fuel as [|fuel IH]; intros st st' Hst E; [done|]. simpl in E.
  specialize (Hstep st Hst).
  destruct (crawl_step P senv st) as [st1|st1]; [exact (IH _ _ Hstep E)|].
  by injection E as <-.
Qed.

(** The urls a batch takes are new and come off the queue in order. *)
Lemma fill_batch_fresh (queue0 : list jstring) : ∀ visited0 batch queue' visited' batch',
  fill_batch senv queue0 visited0 batch = (queue', visited', batch') →
  ∃ added,
    batch' = batch ++ added
    ∧ visited' = visited0 ∪ list_to_set added
    ∧ NoDup added
    ∧ (∀ u, u ∈ added → (u ∉ visited0) ∧ (u ∈ queue0))
    ∧ (∀ u, u ∈ queue' → u ∈ queue0).
Proof.
  induction queue0 as [|url queue0 IH]; intros visited0 batch queue' visited' batch' E;
    simpl in E.
  - injection E as <- <- <-. exists []. rewrite app_nil_r. simpl.
    split_and!; [done|set_solver|constructor|by intros ? ?%elem_of_nil|done].
  - destruct (Z.ltb_spec (Z.of_nat (length batch)) (CONCURRENCY senv)).
    + destruct (negb (bool_decide (url ∈ visited0)) && canVisitMore senv visited0) eqn:Ec.
      * apply andb_true_iff in Ec as [Hnew _].
        apply negb_true_iff, bool_decide_eq_false in Hnew.
        destruct (IH _ _ _ _ _ E) as (added & -> & -> & Hnd & Hfresh & Hq).
        exists (url :: added). rewrite <- app_assoc. simpl. split_and!; [done|set_solver| | |].
        -- constructor; [|done]. intros Hin. apply Hfresh in Hin as [Hin _]. set_solver.
        -- intros u [->|Hu]%elem_of_cons; [split; [done|left]|].
           apply Hfresh in Hu as [Hu ?]. split; [set_solver|by right].
        -- intros u Hu. right. auto.
      * destruct (IH _ _ _ _ _ E) as (added & -> & -> & Hnd & Hfresh & Hq).
        exists added. split_and!; [done..| |].
        -- intros u Hu. apply Hfresh in Hu as [? ?]. split; [done|by right].
        -- intros u Hu. right. auto.
    + injection E as <- <- <-. exists []. rewrite app_nil_r. simpl.
      split_and!; [done|set_solver|constructor|by intros ? ?%elem_of_nil|done].
Qed.

Lemma length_kept_content (text : jstring) :
  Z.of_nat (length (slice text 0 8000)) = Z.min (Z.of_nat (length text)) 8000.
Proof. rewrite <- slice_min_end by lia. rewrite length_slice; lia. Qed.

(** A task keeps nothing, or the page of its url; the links it adds went
    through [normUrl]. *)
Lemma run_task_spec (visited : gset jstring) (url : jstring) (pages : list PageData)
    (discovered : list jstring) :
  ∃ new_pages more,
    run_task P visited url (pages, discovered) = (pages ++ new_pages, discovered ++ more)
    ∧ Forall (kept_page P) new_pages
    ∧ (page_url <$> new_pages) `sublist_of` [url]
    ∧ Forall (from_normUrl P) more.
Proof.
  unfold run_task. destruct (fetchPage P url) as [html|] eqn:Ef.
  - destruct (Nat.ltb_spec (length (ex_text (extractText P html))) 20) as [Hlt|Hge].
    + exists [], []. rewrite !app_nil_r. split_and!; [done|constructor|apply sublist_nil_l|constructor].
    + eexists [_], _. split_and!; [reflexivity| |simpl; reflexivity|].
      * apply Forall_singleton. exists html. simpl. done.
      * apply Forall_forall. intros n [_ Hn]%list_elem_of_filter.
        apply list_elem_of_omap in Hn as (href & _ & Hn). by exists href, url.
  - exists [], []. rewrite !app_nil_r. split_and!; [done|constructor|apply sublist_nil_l|constructor].
Qed.

Lemma run_tasks_spec (visited : gset jstring) (urls : list jstring) :
  ∀ (pages : list PageData) (discovered : list jstring),
  ∃ new_pages more,
    foldl (λ acc url, run_task P visited url acc) (pages, discovered) urls
    = (pages ++ new_pages, discovered ++ more)
    ∧ Forall (kept_page P) new_pages
    ∧ (page_url <$> new_pages) `sublist_of` urls
    ∧ Forall (from_normUrl P) more.
Proof.
  induction urls as [|u urls IH]; intros pages discovered.
  - exists [], []. rewrite !app_nil_r. split_and!; [done|constructor|constructor|constructor].
  - cbn [foldl]. destruct (run_task_spec visited u pages discovered)
      as (n1 & m1 & -> & Hk1 & Hs1 & Hm1).
    destruct (IH (pages ++ n1) (discovered ++ m1)) as (n2 & m2 & -> & Hk2 & Hs2 & Hm2).
    exists (n1 ++ n2), (m1 ++ m2). rewrite <- !app_assoc. split_and!; [done| | |].
    + by apply Forall_app.
    + rewrite fmap_app. by apply (sublist_app _ [u] _ urls).
    + by apply Forall_app.
Qed.

Lemma Forall_filter_2 {A} (Q : A → Prop) (R : A → Prop) `{!∀ x, Decision (R x)}
    (l : list A) :
  Forall Q l → Forall Q (filter R l).
Proof.
  rewrite !Forall_forall. intros Hall x [_ Hx]%list_elem_of_filter. auto.
Qed.
(** The invariant of the loop, whatever the budget: the queue holds urls
    that went through [normUrl], the pages kept are extractions of fetched
    html of 20 characters or more, and the page fetches are those urls
    marked visited, each fetched once. *)
Lemma crawl_step_sound (fetched1 : list jstring) (st : crawl_state) :
  crawl_sound P fetched1 st →
  match crawl_step P senv st with
  | Leave st' | Again st' => crawl_sound P fetched1 st'
  end.
Proof.
  set (I := crawl_sound P fetched1).
  intros (Hq & Hp & pf & Hf & Hnd & Hn & Hv). unfold crawl_step.
  destruct (cs_queue st) as [|q0 queue0] eqn:Eq.
  { unfold I, crawl_sound. rewrite Eq. eauto 10. }
  destruct (negb (canVisitMore senv (cs_visited st))).
  { unfold I, crawl_sound. rewrite Eq. eauto 10. }
  destruct (fill_batch senv (q0 :: queue0) (cs_visited st) [])
    as [[queue' visited'] batch] eqn:Ef.
  destruct (fill_batch_fresh _ _ _ _ _ _ Ef) as (added & Hb & Hv' & Hnd' & Hfresh & Hq').
  simpl in Hb. subst batch.
  assert (Forall (from_normUrl P) queue') as Hqn.
  { rewrite Forall_forall in Hq |- *. auto. }
  destruct added as [|u added].
  { unfold I, crawl_sound. simpl. split_and!; [done..|]. exists pf. rewrite Hv'.
    split_and!; [done..|set_solver]. }
  destruct (run_tasks_spec visited' (completion P (u :: added)) (cs_pages st) [])
    as (new_pages & more & -> & Hk & _ & Hm).
  unfold I, crawl_sound. simpl. split_and!.
  - rewrite !Forall_app. split_and!; [done|by apply Forall_filter_2..].
  - by apply Forall_app.
  - exists (pf ++ u :: added). rewrite Hf, <- app_assoc. split_and!; [done| | |].
    + apply NoDup_app. split_and!; [done| |done].
      intros x Hx Hx'. apply Hfresh in Hx' as [Hx' _]. rewrite Hv in Hx'. set_solver.
    + apply Forall_app. split; [done|]. rewrite Forall_forall in Hq |- *.
      intros x Hx. by apply Hq, Hfresh.
    + rewrite Hv', Hv. set_solver.
Qed.


Lemma crawl_step_distinct (Hcompletion : ∀ batch, completion P batch ≡ₚ batch)
    (st : crawl_state) :
  crawl_distinct st →
  match crawl_step P senv st with
  | Leave st' | Again st' => crawl_distinct st'
  end.
Proof.
  intros [Hnd Hv]. unfold crawl_step.
  destruct (cs_queue st) as [|q0 queue0] eqn:Eq; [done|].
  destruct (negb (canVisitMore senv (cs_visited st))); [done|].
  destruct (fill_batch senv (q0 :: queue0) (cs_visited st) [])
    as [[queue' visited'] batch] eqn:Ef.
  destruct (fill_batch_fresh _ _ _ _ _ _ Ef) as (added & Hb & Hv' & Hnd' & Hfresh & _).
  simpl in Hb. subst batch.
  destruct added as [|u added].
  { split; simpl; [done|]. intros x Hx. rewrite Hv'. apply Hv in Hx. set_solver. }
  destruct (run_tasks_spec visited' (completion P (u :: added)) (cs_pages st) [])
    as (new_pages & more & -> & _ & Hsub & _).
  assert (∀ x, x ∈ page_url <$> new_pages → x ∈ u :: added) as Hnew.
  { intros x Hx. rewrite <- (Hcompletion (u :: added)). by eapply sublist_subseteq. }
  split; simpl.
  - rewrite fmap_app. apply NoDup_app. split_and!; [done| |].
    + intros x Hx Hx'. apply Hnew, Hfresh in Hx' as [Hx' _]. auto.
    + eapply sublist_NoDup; [|exact Hsub]. by rewrite Hcompletion.
  - intros x. rewrite fmap_app, elem_of_app, Hv'. intros [Hx|Hx].
    + apply Hv in Hx. set_solver.
    + apply Hnew in Hx. set_solver.
Qed.

Lemma fetchSitemapUrls_normalized (fuel : nat) (base : jstring) (fetched0 : list jstring)
    (urls fetched1 : list jstring) :
  fetchSitemapUrls P fuel base fetched0 = Some (Return urls, fetched1) →
  Forall (from_normUrl P) urls.
Proof.
  unfold fetchSitemapUrls.
  destruct (resolve P (str "/sitemap.xml") base) as [a|]; [|done].
  destruct (resolve P (str "/wp-sitemap.xml") base) as [b|]; [|done].
  destruct (sitemap_loop _ _ _ _ _ _ _) as [[out f1]|] eqn:Hr; [|done].
  intros [= <- <-]. apply sitemap_loop_fetches in Hr as [_ Hnorm].
  destruct (uniq_spec out) as (_ & H2 & _).
  apply Forall_forall. intros u Hu%H2.
  specialize (Hnorm ltac:(constructor)). rewrite Forall_forall in Hnorm. auto.
Qed.

Lemma crawl_start_sound (fuel : nat) (base : jstring) (fetched0 : list jstring)
    (st0 : crawl_state) :
  crawl_start P senv fuel base fetched0 = Some st0 →
  crawl_sound P (cs_fetched st0) st0 ∧ crawl_distinct st0
  ∧ ∃ r, fetchSitemapUrls P fuel base fetched0 = Some (r, cs_fetched st0).
Proof.
  unfold crawl_start.
  destruct (fetchSitemapUrls P fuel base fetched0) as [[r f1]|] eqn:Es; [|done].
  intros [= <-]. simpl. split_and!.
  - split_and!; simpl.
    + apply Forall_app. split.
      * apply Forall_forall. intros u Hu. unfold buildSeedQueue in Hu.
        apply uniq_spec, list_elem_of_omap in Hu as (href & _ & Hu). by exists href, base.
      * destruct r as [urls|e]; [|constructor]. by eapply fetchSitemapUrls_normalized.
    + constructor.
    + exists []. rewrite app_nil_r. split_and!; [done|constructor|constructor|done].
  - split; simpl; [constructor|]. by intros u ?%elem_of_nil.
  - by exists r.
Qed.

(** X18. Every page [scrapesite] returns is the extraction of the html
    [fetchPage] got for its url: the cleaned text has 20 characters or
    more, the title is the extracted one, and the content is the first 8000
    characters of the text, so it is 20 to 8000 characters long and has a
    character that is not white space. *)
Theorem scrapesite_pages_kept (fuel : nat) (domain : jstring) (fetched0 : list jstring)
    (pages : list PageData) (fetched : list jstring) :
  scrapesite P senv fuel domain fetched0 = Some (pages, fetched) →
  Forall (λ p, kept_page P p
               ∧ 20 <= Z.of_nat (length (page_content p)) <= 8000
               ∧ has_text (page_content p)) pages.
Proof.
  intros E. pose proof (scrapesite_text P senv _ _ _ _ _ E) as Htext.
  unfold scrapesite in E.
  destruct (crawl_start _ _ _ _ _) as [st0|] eqn:E0; [|done].
  destruct (crawl_loop _ _ _ _) as [st|] eqn:El; [|done]. injection E as <- <-.
  apply crawl_start_sound in E0 as (H0 & _ & _).
  apply (crawl_loop_inv _ (crawl_step_sound (cs_fetched st0)) _ _ _ H0) in El
    as (_ & Hkept & _).
  rewrite Forall_forall in Htext, Hkept |- *. intros p Hp. split_and!; [auto| | |auto].
  - destruct (Hkept p Hp) as (html & _ & Hlen & _ & ->). rewrite length_kept_content. lia.
  - destruct (Hkept p Hp) as (html & _ & Hlen & _ & ->). rewrite length_kept_content. lia.
Qed.

(** X19. Whatever the page budget, none included: after the sitemap
    phase [scrapesite] hands to [fetch] only urls that [normUrl] returned,
    and none of them twice. *)
Theorem scrapesite_fetch_log (fuel : nat) (domain : jstring) (fetched0 : list jstring)
    (pages : list PageData) (fetched : list jstring) :
  scrapesite P senv fuel domain fetched0 = Some (pages, fetched) →
  ∃ r fetched1 page_fetches,
    fetchSitemapUrls P fuel (or_else domain (SITE_DOMAIN senv)) fetched0 = Some (r, fetched1)
    ∧ fetched = fetched1 ++ page_fetches
    ∧ NoDup page_fetches
    ∧ Forall (from_normUrl P) page_fetches.
Proof.
  intros E. unfold scrapesite in E.
  destruct (crawl_start _ _ _ _ _) as [st0|] eqn:E0; [|done].
  destruct (crawl_loop _ _ _ _) as [st|] eqn:El; [|done]. injection E as <- <-.
  apply crawl_start_sound in E0 as (H0 & _ & r & Hr).
  apply (crawl_loop_inv _ (crawl_step_sound (cs_fetched st0)) _ _ _ H0) in El
    as (_ & _ & pf & Hf & Hnd & Hn & _).
  by exists r, (cs_fetched st0), pf.
Qed.

(** When every task of a batch runs once, no two pages kept share a url,
    and each is the page of a url the loop fetched. *)
Lemma scrapesite_urls (fuel : nat) (domain : jstring) (fetched0 : list jstring)
    (pages : list PageData) (fetched : list jstring) :
  (∀ batch, completion P batch ≡ₚ batch) →
  scrapesite P senv fuel domain fetched0 = Some (pages, fetched) →
  NoDup (page_url <$> pages)
  ∧ ∃ page_fetches, (∃ fetched1, fetched = fetched1 ++ page_fetches)
      ∧ Forall (from_normUrl P) page_fetches
      ∧ ∀ p, p ∈ pages → page_url p ∈ page_fetches.
Proof.
  intros Hcompletion E. unfold scrapesite in E.
  destruct (crawl_start _ _ _ _ _) as [st0|] eqn:E0; [|done].
  destruct (crawl_loop _ _ _ _) as [st|] eqn:El; [|done]. injection E as <- <-.
  apply crawl_start_sound in E0 as (H0 & H0' & _).
  pose proof (crawl_loop_inv _ (crawl_step_sound (cs_fetched st0)) _ _ _ H0 El)
    as (_ & _ & pf & Hf & _ & Hn & Hv).
  pose proof (crawl_loop_inv _ (crawl_step_distinct Hcompletion) _ _ _ H0' El) as [Hnd Hin].
  split; [done|]. exists pf. split_and!; [by eexists|done|].
  intros p Hp.
  assert (page_url p ∈ cs_visited st) as Hvis.
  { apply Hin, list_elem_of_fmap. by exists p. }
  rewrite Hv in Hvis. by apply elem_of_list_to_set in Hvis.
Qed.

(** X20. When every task of a batch runs once, the pages [scrapesite]
    returns have pairwise distinct urls, each a url that [normUrl] returned
    and that the crawl fetched. *)
Theorem scrapesite_distinct_urls (fuel : nat) (domain : jstring) (fetched0 : list jstring)
    (pages : list PageData) (fetched : list jstring) :
  (∀ batch, completion P batch ≡ₚ batch) →
  scrapesite P senv fuel domain fetched0 = Some (pages, fetched) →
  NoDup (page_url <$> pages)
  ∧ Forall (λ p, from_normUrl P (page_url p) ∧ page_url p ∈ fetched) pages.
Proof.
  intros Hcompletion E.
  destruct (scrapesite_urls _ _ _ _ _ Hcompletion E) as (Hnd & pf & [f1 ->] & Hn & Hin).
  split; [done|]. apply Forall_forall. intros p Hp%Hin. split.
  - rewrite Forall_forall in Hn. auto.
  - apply elem_of_app. by right.
Qed.

(** X21. With a concurrency of 0 or less no batch is ever filled:
    [scrapesite] returns no page, and fetches nothing after the sitemap
    phase. *)
Theorem scrapesite_without_workers (domain : jstring) (fetched0 : list jstring) :
  CONCURRENCY senv <= 0 →
  ∃ (n : nat) (r : outcome (list jstring)) (fetched1 : list jstring),
    ∀ fuel, (n <= fuel)%nat →
      fetchSitemapUrls P fuel (or_else domain (SITE_DOMAIN senv)) fetched0
      = Some (r, fetched1)
      ∧ scrapesite P senv fuel domain fetched0 = Some ([], fetched1).
Proof.
  intros HC.
  destruct (crawl_start_returns P senv (or_else domain (SITE_DOMAIN senv)) fetched0)
    as (n & st0 & Hn).
  destruct (crawl_start_sound n _ _ _ (Hn n ltac:(lia))) as (_ & _ & r & Hr).
  assert (cs_pages st0 = []) as Hp0.
  { specialize (Hn n ltac:(lia)). unfold crawl_start in Hn.
    destruct (fetchSitemapUrls _ _ _ _) as [[? ?]|]; [|done]. by injection Hn as <-. }
  assert (∃ st, crawl_step P senv st0 = Leave st
                ∧ cs_pages st = [] ∧ cs_fetched st = cs_fetched st0) as (st & Hstep & Hp & Hf).
  { unfold crawl_step. destruct (cs_queue st0) as [|q0 queue0]; [by exists st0|].
    destruct (negb _); [by exists st0|]. simpl.
    destruct (Z.ltb_spec (Z.of_nat 0) (CONCURRENCY senv)); [lia|].
    eexists. split_and!; [reflexivity|exact Hp0|reflexivity]. }
  exists (S n), r, (cs_fetched st0). intros fuel Hfuel.
  assert (fetchSitemapUrls P fuel (or_else domain (SITE_DOMAIN senv)) fetched0
          = Some (r, cs_fetched st0)) as Hs.
  { specialize (Hn fuel ltac:(lia)). unfold crawl_start in Hn.
    destruct (fetchSitemapUrls P fuel _ _) as [[r' f']|] eqn:Es; [|done].
    injection Hn as Hn. apply (f_equal cs_fetched) in Hn as Hf'. simpl in Hf'. subst f'.
    f_equal. f_equal.
    unfold fetchSitemapUrls in Es, Hr.
    destruct (resolve P _ _); [|congruence]. destruct (resolve P _ _); [|congruence].
    destruct (sitemap_loop P n _ _ _ _ _) as [[o1 f1]|] eqn:E1; [|done].
    apply (sitemap_loop_mono P _ n fuel) in E1; [|lia]. rewrite E1 in Es. congruence. }
  split; [done|]. unfold scrapesite. rewrite Hn by lia.
  destruct fuel as [|fuel]; [lia|]. simpl. rewrite Hstep, Hp, Hf. done.
Qed.
End Crawling.

Lemma scrapesite_pages_kept_witness :
  ∃ pages fetched,
    scrapesite about_only five_pages 5 acme [] = Some (pages, fetched)
    ∧ length pages = 1%nat
    ∧ Forall (λ p, kept_page about_only p
                   ∧ 20 <= Z.of_nat (length (page_content p)) <= 8000
                   ∧ has_text (page_content p)) pages.
Proof.
  eexists _, _.
  assert (scrapesite about_only five_pages 5 acme [] = Some _) as E
    by (vm_compute; reflexivity).
  split; [exact E|]. split; [reflexivity|].
  exact (scrapesite_pages_kept about_only five_pages 5 acme [] _ _ E).
Defined.

Lemma scrapesite_fetch_log_witness :
  ∃ pages fetched r fetched1 page_fetches,
    scrapesite about_only five_pages 5 acme [] = Some (pages, fetched)
    ∧ fetchSitemapUrls about_only 5 (or_else acme (SITE_DOMAIN five_pages)) []
      = Some (r, fetched1)
    ∧ fetched = fetched1 ++ page_fetches
    ∧ NoDup page_fetches.
Proof.
  assert (scrapesite about_only five_pages 5 acme [] = Some _) as E
    by (vm_compute; reflexivity).
  destruct (scrapesite_fetch_log about_only five_pages 5 acme [] _ _ E)
    as (r & fetched1 & pf & H1 & H2 & H3 & _).
  eexists _, _, r, fetched1, pf. split; [exact E|]. split; [exact H1|]. split; [exact H2|exact H3].
Defined.

Lemma scrapesite_distinct_urls_witness :
  (∀ batch, completion about_only batch ≡ₚ batch)
  ∧ ∃ pages fetched,
      scrapesite about_only five_pages 5 acme [] = Some (pages, fetched)
      ∧ NoDup (page_url <$> pages).
Proof.
  assert (∀ batch, completion about_only batch ≡ₚ batch) as Hc by (intros batch; reflexivity).
  assert (scrapesite about_only five_pages 5 acme [] = Some _) as E
    by (vm_compute; reflexivity).
  split; [exact Hc|]. eexists _, _. split; [exact E|].
  exact (proj1 (scrapesite_distinct_urls about_only five_pages 5 acme [] _ _ Hc E)).
Defined.

Lemma scrapesite_without_workers_witness :
  CONCURRENCY no_workers <= 0
  ∧ ∃ (n : nat) (r : outcome (list jstring)) (fetched1 : list jstring),
      ∀ fuel, (n <= fuel)%nat →
        fetchSitemapUrls about_only fuel (or_else acme (SITE_DOMAIN no_workers)) []
        = Some (r, fetched1)
        ∧ scrapesite about_only no_workers fuel acme [] = Some ([], fetched1).
Proof.
  assert (CONCURRENCY no_workers <= 0) as HC by (simpl; lia).
  split; [exact HC|]. exact (scrapesite_without_workers about_only no_workers acme [] HC).
Defined.

(** *** The crawl returns *)

Section Returning.
Variable P : Platform.
Variable senv : ScraperEnv.

(** With a page budget, [scrapesite] returns, given fuel enough. *)
Lemma scrapesite_returns (domain : jstring) (fetched0 : list jstring) :
  0 < MAX_PAGES senv →
  (∀ batch, completion P batch ≡ₚ batch) →
  ∃ (n : nat) pages fetched, ∀ fuel, (n <= fuel)%nat →
    scrapesite P senv fuel domain fetched0 = Some (pages, fetched).
Proof.
  intros HM Hcompletion.
  destruct (crawl_start_returns P senv (or_else domain (SITE_DOMAIN senv)) fetched0)
    as (n0 & st0 & Hstart).
  assert (cs_visited st0 = ∅ ∧ cs_pages st0 = []) as [Hv0 Hp0].
  { specialize (Hstart n0 (Nat.le_refl _)). unfold crawl_start in Hstart.
    destruct (fetchSitemapUrls _ _ _ _) as [[r f1]|]; [|done]. by injection Hstart as <-. }
  assert (crawl_inv senv (cs_fetched st0) st0) as Hinv0.
  { split; [rewrite Hv0, size_empty; lia|]. exists []. rewrite app_nil_r, Hv0, Hp0.
    repeat split; [constructor|done]. }
  destruct (crawl_loop_returns P senv HM Hcompletion (cs_fetched st0)
              (S (Z.to_nat (MAX_PAGES senv))) st0 Hinv0) as [st Hloop].
  { rewrite Hv0, size_empty. lia. }
  exists (Nat.max n0 (S (Z.to_nat (MAX_PAGES senv)))), (cs_pages st), (cs_fetched st).
  intros fuel Hfuel. unfold scrapesite. rewrite Hstart by lia.
  assert (crawl_loop P senv fuel st0 = Some st) as Hloop'.
  { eapply crawl_loop_mono; [|exact Hloop]. lia. }
  by rewrite Hloop'.
Qed.

(** The pages [scrapesite] returns are kept pages. *)
Lemma scrapesite_kept (fuel : nat) (domain : jstring) (fetched0 : list jstring)
    (pages : list PageData) (fetched : list jstring) :
  scrapesite P senv fuel domain fetched0 = Some (pages, fetched) →
  Forall (kept_page P) pages.
Proof.
  intros E. unfold scrapesite in E.
  destruct (crawl_start _ _ _ _ _) as [st0|] eqn:E0; [|done].
  destruct (crawl_loop _ _ _ _) as [st|] eqn:El; [|done]. injection E as <- <-.
  apply crawl_start_sound in E0 as (H0 & _ & _).
  by apply (crawl_loop_inv P senv _ (crawl_step_sound P senv (cs_fetched st0)) _ _ _ H0) in El
    as (_ & Hkept & _).
Qed.
End Returning.
(** *** XML entities *)

Lemma replace_all_plain (pat rep s : jstring) (c : ascii) (rest : jstring) :
  pat = c :: rest → c ∉ s → replace_all pat rep s = s.
Proof.
  intros -> Hs. unfold replace_all. induction s as [|x s IH]; [done|].
  apply not_elem_of_cons in Hs as [Hx Hs]. cbn [replace_all_go starts_with].
  destruct (decide (c = x)); [done|]. by rewrite IH.
Qed.

Lemma length_replace_all_go (pat rep : jstring) :
  pat ≠ [] → (length rep <= length pat)%nat →
  ∀ s skip, (skip <= length s)%nat →
    (length (replace_all_go pat rep skip s) + skip <= length s)%nat.
Proof.
  intros Hpat Hrep. induction s as [|x s IH]; intros skip Hskip.
  - simpl in *. lia.
  - cbn [replace_all_go]. destruct skip as [|k].
    + destruct (starts_with pat (x :: s)) eqn:Est.
      * apply starts_with_app in Est as [post Epost].
        assert (pred (length pat) <= length s)%nat as Hle.
        { apply (f_equal length) in Epost. rewrite length_app in Epost. simpl in Epost. lia. }
        specialize (IH _ Hle). rewrite length_app. simpl.
        destruct pat; [done|]. simpl in *. lia.
      * specialize (IH 0%nat ltac:(lia)). simpl. lia.
    + simpl in Hskip. specialize (IH k ltac:(lia)). simpl. lia.
Qed.

Lemma length_replace_all (pat rep s : jstring) :
  pat ≠ [] → (length rep <= length pat)%nat →
  (length (replace_all pat rep s) <= length s)%nat.
Proof.
  intros Hpat Hrep. pose proof (length_replace_all_go pat rep Hpat Hrep s 0 ltac:(lia)).
  unfold replace_all. lia.
Qed.

(** X22. [decodeXml] leaves a string without an ampersand as it is and
    never makes a string longer; and, since it replaces [&amp;] first, it
    decodes an escaped entity twice: [&amp;lt;] followed by text without an
    ampersand becomes [<] followed by that text. *)
Theorem decodeXml_entities (s : jstring) :
  (amp ∉ s → decodeXml s = s)
  ∧ (length (decodeXml s) <= length s)%nat
  ∧ (amp ∉ s → decodeXml (str "&amp;lt;" ++ s) = str "<" ++ s).
Proof.
  assert (Hplain : ∀ t, amp ∉ t → decodeXml t = t).
  { intros t Ht. unfold decodeXml.
    rewrite (replace_all_plain (str "&amp;") _ t amp (str "amp;")) by done.
    rewrite (replace_all_plain (str "&lt;") _ t amp (str "lt;")) by done.
    rewrite (replace_all_plain (str "&gt;") _ t amp (str "gt;")) by done.
    rewrite (replace_all_plain (str "&quot;") _ t amp (str "quot;")) by done.
    by rewrite (replace_all_plain (str "&#39;") _ t amp (str "#39;")) by done. }
  split_and!.
  - apply Hplain.
  - unfold decodeXml.
    repeat (etrans; [apply length_replace_all; [discriminate|simpl; lia]|]). done.
  - intros Hs. unfold decodeXml.
    assert (replace_all (str "&amp;") (str "&") (str "&amp;lt;" ++ s) = str "&lt;" ++ s) as ->.
    { unfold replace_all. cbn.
      change (replace_all_go _ _ 0 s) with (replace_all (str "&amp;") (str "&") s).
      by rewrite (replace_all_plain (str "&amp;") _ s amp (str "amp;")). }
    assert (replace_all (str "&lt;") (str "<") (str "&lt;" ++ s) = str "<" ++ s) as ->.
    { unfold replace_all. cbn.
      change (replace_all_go _ _ 0 s) with (replace_all (str "&lt;") (str "<") s).
      by rewrite (replace_all_plain (str "&lt;") _ s amp (str "lt;")). }
    assert (amp ∉ str "<" ++ s) as Hs'.
    { intros [H|H]%elem_of_cons; [discriminate|done]. }
    rewrite (replace_all_plain (str "&gt;") _ _ amp (str "gt;")) by done.
    rewrite (replace_all_plain (str "&quot;") _ _ amp (str "quot;")) by done.
    by rewrite (replace_all_plain (str "&#39;") _ _ amp (str "#39;")) by done.
Qed.

End ScraperFacts.

(** ** Rebuild orchestration *)

Module RagFacts.

(** The failure for want of pages is raised before the store is touched. *)
Lemma build_without_pages (env : RagEnv) (B : BuildPlatform) (fuel : nat)
    (domain siteName : jstring) (d : Database) :
  build_from_pages env B fuel domain siteName [] d = Some (Throw (no_pages domain), d).
Proof. reflexivity. Qed.

(** The two checks of the body do not come in the same place: the zero-page
    check before the replace, the zero-chunk check after it has committed.
    Were a page without a chunk to reach the body, which the pages
    [scrapesite] returns never are, the body would throw "no chunks were
    generated" with the chunks of the domain deleted and the meta row
    rewritten with a chunk count of 0. *)
Theorem failed_build_wipes_index :
  ∃ d',
    build_from_pages default_env sample_platform 0 acme (str "Acme") blank_pages acme_db
    = Some (Throw (no_chunks acme), d')
    ∧ length (getRagChunks acme acme_db) = 2%nat
    ∧ getRagChunks acme d' = []
    ∧ (meta_chunkCount <$> getRagMeta acme acme_db) = Some 2%nat
    ∧ (meta_chunkCount <$> getRagMeta acme d') = Some 0%nat
    ∧ (meta_indexedAt <$> getRagMeta acme d') = Some (sql_now sample_platform)
    ∧ d' ≠ acme_db.
Proof.
  eexists. split; [vm_compute; reflexivity|].
  repeat split; try (vm_compute; reflexivity).
  intros E. apply (f_equal (λ d, length (rag_chunks d))) in E. vm_compute in E. discriminate.
Qed.

Section Build.
Variable env : RagEnv.
Variable B : BuildPlatform.

Lemma prepare_pages_chunks (fuel : nat) : ∀ (l : list PageData) prepared,
  Forall (λ p, has_text (page_content p)) l →
  prepare_pages env fuel l = Some prepared →
  length prepared = length l ∧ Forall (λ pp, prep_chunks pp ≠ []) prepared.
Proof.
  induction l as [|p l IH]; intros prepared Hl E; simpl in E.
  - by injection E as <-.
  - apply Forall_cons in Hl as [Hp Hl].
    destruct (Chunker.chunkText env fuel (page_content p)) as [chunks|] eqn:Ec; [|done].
    destruct (prepare_pages env fuel l) as [rest|]; [|done]. injection E as <-.
    destruct (IH rest Hl eq_refl) as [Hlen Hall]. split; [simpl; lia|].
    constructor; [|done]. simpl.
    eapply ChunkerFacts.chunkText_some_chunk; [|exact Ec]. by apply normalize_has_text.
Qed.

(** On pages with text the build fails only before the store is written
    or with the transaction rolled back. *)
Lemma build_from_pages_failure (fuel : nat) (domain siteName : jstring) (l : list PageData)
    (d d' : Database) (e : jstring) :
  Forall (λ p, has_text (page_content p)) l →
  build_from_pages env B fuel domain siteName l d = Some (Throw e, d') → d' = d.
Proof.
  intros Hl. unfold build_from_pages. destruct l as [|p l]; [by intros [= _ <-]|].
  destruct (prepare_pages env fuel (p :: l)) as [prepared|] eqn:Ep; [|done].
  destruct (prepare_pages_chunks fuel _ _ Hl Ep) as [Hlen Hall].
  unfold replaceRagChunks.
  destruct (insert_pages _ _ _ _ _ _) as [[[rows pc] cc]|] eqn:Ei; [|by intros [= _ <-]].
  apply insert_pages_count in Ei; [|done]. simpl in Hlen.
  destruct (decide _) as [E0|]; [simpl in E0; lia|done].
Qed.

(** Through the crawler of the repository, a build that throws leaves the
    store as it found it: the pages the crawler keeps have text, so each
    gives a chunk and the failure for want of chunks does not arise. *)
Lemma buildRagIndex_failure (fuel : nat) (domain siteName : jstring) (w w' : World)
    (e : jstring) :
  buildRagIndex env B fuel domain siteName w = Some (Throw e, w') → db w' = db w.
Proof.
  unfold buildRagIndex.
  destruct (scrapesite _ _ _ _ _) as [[l fetched]|] eqn:Es; [|done].
  apply ScraperFacts.scrapesite_text in Es.
  destruct (build_from_pages _ _ _ _ _ _ _) as [[r d']|] eqn:Eb; [|done].
  intros [= -> <-]. simpl. by eapply build_from_pages_failure.
Qed.
End Build.




(** C7. When the stored metadata of the domain has a chunk count above 0
    and [force] is false, [ensureRagIndex] returns, whatever the fuel,
    [built = false] with the stored page count, chunk count and time of
    indexing, and the world it leaves is the one it found: the same store
    (chunks, metadata, facts) and the same log of requests, so nothing was
    fetched. *)
Theorem ensureRagIndex_cached (env : RagEnv) (B : BuildPlatform) (fuel : nat)
    (domain siteName : jstring) (w : World) (meta : RagMeta) :
  getRagMeta domain (db w) = Some meta →
  (0 < meta_chunkCount meta)%nat →
  ∃ r,
    ensureRagIndex env B fuel domain siteName false w = Some (Return r, w)
    ∧ er_built r = false
    ∧ er_domain r = domain
    ∧ er_pageCount r = meta_pageCount meta
    ∧ er_chunkCount r = meta_chunkCount meta
    ∧ er_indexedAt r = meta_indexedAt meta.
Proof.
  intros Hmeta Hcount. unfold ensureRagIndex. rewrite Hmeta. simpl.
  destruct (Nat.ltb_spec 0 (meta_chunkCount meta)); [|lia].
  eexists. split; [reflexivity|]. repeat split.
Qed.

Lemma ensureRagIndex_cached_witness :
  getRagMeta acme acme_db
  = Some {| meta_siteName := Some (str "Acme"); meta_pageCount := 2;
            meta_chunkCount := 2; meta_indexedAt := str "2026-01-01 01:00:00" |}
  ∧ ∃ r,
      ensureRagIndex default_env sample_platform 0 acme (str "Acme") false
        {| db := acme_db; requests := [] |}
      = Some (Return r, {| db := acme_db; requests := [] |})
      ∧ er_built r = false.
Proof.
  assert (getRagMeta acme (db {| db := acme_db; requests := [] |})
          = Some {| meta_siteName := Some (str "Acme"); meta_pageCount := 2;
                    meta_chunkCount := 2; meta_indexedAt := str "2026-01-01 01:00:00" |})
    as Hmeta by (vm_compute; reflexivity).
  split; [exact Hmeta|].
  destruct (ensureRagIndex_cached default_env sample_platform 0 acme (str "Acme")
              {| db := acme_db; requests := [] |} _ Hmeta ltac:(simpl; lia))
    as (r & H1 & H2 & _).
  exists r. split; [exact H1|exact H2].
Defined.

(** With [force] the same call crawls: the log of requests grows. *)
Example ensureRagIndex_forced_fetches :
  ∃ r w',
    ensureRagIndex default_env sample_platform 5 acme (str "Acme") true
      {| db := acme_db; requests := [] |} = Some (r, w')
    ∧ length (requests w') = 4%nat.
Proof. eexists _, _. split; vm_compute; reflexivity. Qed.

(** *** What a build and a call of [ensureRagIndex] leave behind *)

Section Outcome.
Variable env : RagEnv.
Variable B : BuildPlatform.

Lemma prepare_pages_urls (fuel : nat) : ∀ (l : list PageData) prepared,
  prepare_pages env fuel l = Some prepared → prep_url <$> prepared = page_url <$> l.
Proof.
  induction l as [|p l IH]; intros prepared E; simpl in E.
  - by injection E as <-.
  - destruct (Chunker.chunkText env fuel (page_content p)) as [chunks|]; [|done].
    destruct (prepare_pages env fuel l) as [rest|]; [|done]. injection E as <-.
    rewrite !fmap_cons. simpl. f_equal. by apply IH.
Qed.

(** What a build from pages with text and distinct urls leaves behind. *)
Lemma build_from_pages_returns (fuel : nat) (domain siteName : jstring) (l : list PageData)
    (d d' : Database) (o : outcome BuildResult) :
  l ≠ [] →
  Forall (λ p, has_text (page_content p)) l →
  NoDup (page_url <$> l) →
  build_from_pages env B fuel domain siteName l d = Some (o, d') →
  ∃ res, o = Return res
    ∧ br_domain res = domain ∧ br_siteName res = siteName
    ∧ br_pageCount res = length l
    ∧ (length l <= br_chunkCount res)%nat
    ∧ getRagMeta domain d'
      = Some {| meta_siteName := Some siteName; meta_pageCount := length l;
                meta_chunkCount := br_chunkCount res; meta_indexedAt := sql_now B |}
    ∧ length (getRagChunks domain d') = br_chunkCount res
    ∧ getSiteFacts domain d' = Some (extractFactsObject B l)
    ∧ (∀ other, other ≠ domain →
         getRagChunks other d' = getRagChunks other d
         ∧ getRagMeta other d' = getRagMeta other d
         ∧ getSiteFacts other d' = getSiteFacts other d).
Proof.
  intros Hne Htext Hnd. unfold build_from_pages. destruct l as [|p0 l0] eqn:El; [done|].
  rewrite <- El in *. clear Hne.
  destruct (prepare_pages env fuel l) as [prepared|] eqn:Ep; [|done].
  destruct (prepare_pages_chunks env fuel _ _ Htext Ep) as [Hlen Hall].
  rewrite <- (prepare_pages_urls _ _ _ Ep) in Hnd.
  pose proof (replaceRagChunks_other (sql_now B) domain (Some siteName) prepared d) as Hframe.
  pose proof (getRagChunks_after_replace (sql_now B) domain (Some siteName) prepared d Hnd)
    as Hrows.
  rewrite replaceRagChunks_ok in Hframe, Hrows |- * by done. cbn [snd] in Hframe, Hrows.
  set (d1 := {| site_facts := site_facts d; rag_chunks := _; rag_meta := _ |}) in *.
  assert (length l <= length (new_rows (sql_now B) domain prepared))%nat as Hcount.
  { pose proof (insert_pages_ok (sql_now B) domain prepared [] 0 0 Hnd) as Hok.
    rewrite <- Hlen.
    apply (insert_pages_count _ _ _ _ _ _ _ _ _ Hall) in Hok; [simpl in Hok; lia|].
    by intros r ?%elem_of_nil. }
  cbn [chunkCount pageCount].
  destruct (decide _) as [E0|_]; [subst l; simpl in Hcount; lia|].
  intros [= <- <-]. eexists. split; [reflexivity|]. cbn [br_domain br_siteName br_pageCount br_chunkCount].
  split_and!; [done|done|done|lia| | | |].
  - unfold getRagMeta, putSiteFacts, d1. cbn [rag_meta]. by rewrite lookup_insert_eq, Hlen.
  - change (getRagChunks domain (putSiteFacts (sql_now B) domain (extractFactsObject B l) d1))
      with (getRagChunks domain d1).
    by rewrite Hrows, merge_sort_Permutation.
  - unfold getSiteFacts, putSiteFacts. cbn [site_facts]. by rewrite lookup_insert_eq.
  - intros other Hother. destruct (Hframe other Hother) as (H1 & H2 & H3).
    split_and!; [exact H1|exact H2|].
    unfold getSiteFacts, putSiteFacts. cbn [site_facts]. rewrite lookup_insert_ne by done.
    apply H3.
Qed.

Lemma prepare_pages_returns : ∀ (l : list PageData),
  0 <= CHUNK_OVERLAP env < CHUNK_SIZE env →
  Forall (λ p, Z.of_nat (length (page_content p)) <= 8000) l →
  ∃ prepared, ∀ fuel, (Z.to_nat 8000 <= fuel)%nat → prepare_pages env fuel l = Some prepared.
Proof.
  intros l HO. induction 1 as [|p l Hp Hl [rest IH]].
  - by exists [].
  - destruct (ChunkerFacts.chunkText_returns env (page_content p) HO) as [chunks Hc].
    eexists. intros fuel Hfuel. simpl. rewrite Hc, IH by (try done;
      pose proof (ChunkerFacts.length_normalize (page_content p)); lia). reflexivity.
Qed.

(** With [0 <= CHUNK_OVERLAP < CHUNK_SIZE] and a page budget the build
    completes, given fuel enough, with one result. *)
Lemma buildRagIndex_returns (domain siteName : jstring) (w : World) :
  (∀ batch, completion (crawl B) batch ≡ₚ batch) →
  0 <= CHUNK_OVERLAP env < CHUNK_SIZE env →
  0 < MAX_PAGES (senv B) →
  ∃ (n : nat) o w', ∀ fuel, (n <= fuel)%nat →
    buildRagIndex env B fuel domain siteName w = Some (o, w').
Proof.
  intros Hcompletion HO HM.
  destruct (ScraperFacts.scrapesite_returns (crawl B) (senv B) domain (requests w) HM Hcompletion)
    as (n & pages & fetched & Hs).
  pose proof (ScraperFacts.scrapesite_kept _ _ _ _ _ _ _ (Hs n (Nat.le_refl _))) as Hkept.
  destruct (prepare_pages_returns pages HO) as [prepared Hp].
  { rewrite Forall_forall in Hkept |- *. intros p Hp.
    destruct (Hkept p Hp) as (html & _ & _ & _ & ->).
    rewrite ScraperFacts.length_kept_content. lia. }
  assert (∃ r, ∀ fuel, (Z.to_nat 8000 <= fuel)%nat →
            build_from_pages env B fuel domain siteName pages (db w) = Some r) as [[o d'] Hb].
  { unfold build_from_pages. destruct pages as [|p0 l0]; [by eexists|].
    destruct (replaceRagChunks (sql_now B) domain (Some siteName) prepared (db w))
      as [[stats|e] d1] eqn:Er.
    - destruct (decide (chunkCount stats = 0%nat)) as [E0|Hne].
      + eexists. intros fuel Hfuel. rewrite Hp, Er by done.
        rewrite decide_True by done. reflexivity.
      + eexists. intros fuel Hfuel. rewrite Hp, Er by done.
        rewrite decide_False by done. reflexivity.
    - eexists. intros fuel Hfuel. rewrite Hp, Er by done. reflexivity. }
  exists (Nat.max n (Z.to_nat 8000)), o, {| db := d'; requests := fetched |}.
  intros fuel Hfuel. unfold buildRagIndex. rewrite Hs, Hb by lia. done.
Qed.

(** X23. When every task of a batch runs once: with
    [0 <= CHUNK_OVERLAP < CHUNK_SIZE] and a page budget above 0,
    [buildRagIndex] completes, with one result for all fuel from some
    amount on; and whenever it completes, it has either thrown "no pages
    were scraped" with the store unchanged, which it does exactly when the
    crawl kept no page, or returned the number of pages kept and a chunk
    count at least that number, leaving a meta row with these counts, that
    many chunks for [getRagChunks], the facts extracted from the pages, and
    the other domains as they were. It throws neither for a primary key
    nor for want of chunks. *)
Theorem buildRagIndex_outcome (domain siteName : jstring) (w : World) :
  (∀ batch, completion (crawl B) batch ≡ₚ batch) →
  (0 <= CHUNK_OVERLAP env < CHUNK_SIZE env → 0 < MAX_PAGES (senv B) →
     ∃ (n : nat) o w', ∀ fuel, (n <= fuel)%nat →
       buildRagIndex env B fuel domain siteName w = Some (o, w'))
  ∧ (∀ fuel o w',
       buildRagIndex env B fuel domain siteName w = Some (o, w') →
       ∃ pages,
         scrapesite (crawl B) (senv B) fuel domain (requests w) = Some (pages, requests w')
         ∧ match o with
           | Throw e => pages = [] ∧ e = no_pages domain ∧ db w' = db w
           | Return res =>
               pages ≠ []
               ∧ br_pageCount res = length pages
               ∧ (length pages <= br_chunkCount res)%nat
               ∧ getRagMeta domain (db w')
                 = Some {| meta_siteName := Some siteName; meta_pageCount := length pages;
                           meta_chunkCount := br_chunkCount res;
                           meta_indexedAt := sql_now B |}
               ∧ length (getRagChunks domain (db w')) = br_chunkCount res
               ∧ getSiteFacts domain (db w') = Some (extractFactsObject B pages)
               ∧ (∀ other, other ≠ domain →
                    getRagChunks other (db w') = getRagChunks other (db w)
                    ∧ getRagMeta other (db w') = getRagMeta other (db w)
                    ∧ getSiteFacts other (db w') = getSiteFacts other (db w))
           end).
Proof.
  intros Hcompletion. split; [by apply buildRagIndex_returns|].
  intros fuel o w'. unfold buildRagIndex.
  destruct (scrapesite _ _ _ _ _) as [[l fetched]|] eqn:Es; [|done].
  pose proof (ScraperFacts.scrapesite_text _ _ _ _ _ _ _ Es) as Htext.
  destruct (ScraperFacts.scrapesite_urls _ _ _ _ _ _ _ Hcompletion Es) as [Hnd _].
  destruct (build_from_pages _ _ _ _ _ _ _) as [[r d']|] eqn:Eb; [|done].
  intros [= <- <-]. exists l. split; [done|]. simpl.
  destruct (decide (l = [])) as [->|Hne].
  - simpl in Eb. by injection Eb as <- <-.
  - destruct (build_from_pages_returns _ _ _ _ _ _ _ Hne Htext Hnd Eb)
      as (res & -> & _ & _ & H1 & H2 & H3 & H4 & H5 & H6).
    split_and!; done.
Qed.

(** A build that returns has written the meta row with the counts it
    reports, and the chunk count is not 0. *)
Lemma build_from_pages_meta (fuel : nat) (domain siteName : jstring) (l : list PageData)
    (d d' : Database) (res : BuildResult) :
  build_from_pages env B fuel domain siteName l d = Some (Return res, d') →
  (0 < br_chunkCount res)%nat
  ∧ br_domain res = domain ∧ br_siteName res = siteName
  ∧ getRagMeta domain d'
    = Some {| meta_siteName := Some siteName; meta_pageCount := br_pageCount res;
              meta_chunkCount := br_chunkCount res; meta_indexedAt := sql_now B |}.
Proof.
  unfold build_from_pages. destruct l as [|p0 l0]; [done|].
  destruct (prepare_pages env fuel (p0 :: l0)) as [prepared|]; [|done].
  destruct (replaceRagChunks _ _ _ _ _) as [[stats|e] d1] eqn:Er; [|done].
  apply replaceRagChunks_returns in Er as (-> & -> & _). cbn [chunkCount pageCount].
  destruct (decide _) as [|Hne]; [done|]. intros [= <- <-].
  cbn [br_domain br_siteName br_pageCount br_chunkCount].
  split_and!; [lia|done|done|].
  unfold getRagMeta, putSiteFacts. cbn [rag_meta]. by rewrite lookup_insert_eq.
Qed.

Lemma ensureRagIndex_returns (fuel : nat) (domain siteName : jstring) (force : bool)
    (w w' : World) (r : EnsureResult) :
  ensureRagIndex env B fuel domain siteName force w = Some (Return r, w') →
  (0 < er_chunkCount r)%nat
  ∧ er_domain r = domain
  ∧ ∃ meta, getRagMeta domain (db w') = Some meta
      ∧ meta_pageCount meta = er_pageCount r
      ∧ meta_chunkCount meta = er_chunkCount r
      ∧ if er_built r
        then er_indexedAt r = iso_now B ∧ meta_indexedAt meta = sql_now B
             ∧ er_siteName r = siteName
        else w' = w ∧ force = false ∧ er_indexedAt r = meta_indexedAt meta.
Proof.
  assert (Hrebuild : rebuild env B fuel domain siteName w = Some (Return r, w') →
            (0 < er_chunkCount r)%nat ∧ er_domain r = domain
            ∧ ∃ meta, getRagMeta domain (db w') = Some meta
                ∧ meta_pageCount meta = er_pageCount r
                ∧ meta_chunkCount meta = er_chunkCount r
                ∧ if er_built r
                  then er_indexedAt r = iso_now B ∧ meta_indexedAt meta = sql_now B
                       ∧ er_siteName r = siteName
                  else w' = w ∧ force = false ∧ er_indexedAt r = meta_indexedAt meta).
  { unfold rebuild, buildRagIndex.
    destruct (scrapesite _ _ _ _ _) as [[l fetched]|]; [|done].
    destruct (build_from_pages _ _ _ _ _ _ _) as [[[res|e] d']|] eqn:Eb; [|done..].
    intros [= <- <-]. apply build_from_pages_meta in Eb as (H1 & H2 & H3 & H4).
    cbn [er_chunkCount er_domain er_pageCount er_built er_indexedAt er_siteName db].
    split_and!; [done..|]. eexists. split; [exact H4|]. done. }
  unfold ensureRagIndex. destruct (getRagMeta domain (db w)) as [meta|] eqn:Em; [|done].
  destruct force; [done|]. cbn [negb andb].
  destruct (Nat.ltb_spec 0 (meta_chunkCount meta)); [|done].
  intros [= <- <-]. cbn [er_chunkCount er_domain er_pageCount er_built er_indexedAt].
  split_and!; [done..|]. exists meta. done.
Qed.

(** X24. A result of [ensureRagIndex] has a chunk count above 0, and the
    store it leaves holds a meta row of the domain with the page and chunk
    counts reported. A result with [built = false] came without [force],
    left the world as it was and reports the stored time of indexing; one
    with [built = true] reports the ISO time of the call, while the meta
    row holds the time in SQLite's format. *)
Theorem ensureRagIndex_counts (fuel : nat) (domain siteName : jstring) (force : bool)
    (w w' : World) (r : EnsureResult) :
  ensureRagIndex env B fuel domain siteName force w = Some (Return r, w') →
  (0 < er_chunkCount r)%nat
  ∧ er_domain r = domain
  ∧ (meta_pageCount <$> getRagMeta domain (db w')) = Some (er_pageCount r)
  ∧ (meta_chunkCount <$> getRagMeta domain (db w')) = Some (er_chunkCount r)
  ∧ (er_built r = true →
       er_indexedAt r = iso_now B
       ∧ (meta_indexedAt <$> getRagMeta domain (db w')) = Some (sql_now B))
  ∧ (er_built r = false →
       w' = w ∧ force = false
       ∧ (meta_indexedAt <$> getRagMeta domain (db w')) = Some (er_indexedAt r)).
Proof.
  intros (H1 & H2 & meta & Hm & H3 & H4 & H5)%ensureRagIndex_returns.
  rewrite Hm. simpl. split_and!; [done|done|by f_equal|by f_equal| |].
  - intros Hb. rewrite Hb in H5. destruct H5 as (? & ? & _). split; [done|by f_equal].
  - intros Hb. rewrite Hb in H5. destruct H5 as (? & ? & ?). split_and!; [done|done|by f_equal].
Qed.

(** X25. After [ensureRagIndex] has returned, an unforced call for the
    same domain returns [built = false] with the same counts and leaves the
    world as it is, so it fetches nothing, whatever its fuel and site
    name. *)
Theorem ensureRagIndex_then_cached (fuel fuel' : nat) (domain siteName siteName' : jstring)
    (force : bool) (w w' : World) (r : EnsureResult) :
  ensureRagIndex env B fuel domain siteName force w = Some (Return r, w') →
  ∃ r',
    ensureRagIndex env B fuel' domain siteName' false w' = Some (Return r', w')
    ∧ er_built r' = false
    ∧ er_pageCount r' = er_pageCount r
    ∧ er_chunkCount r' = er_chunkCount r.
Proof.
  intros (H1 & H2 & meta & Hm & H3 & H4 & _)%ensureRagIndex_returns.
  unfold ensureRagIndex. rewrite Hm. cbn [negb andb].
  destruct (Nat.ltb_spec 0 (meta_chunkCount meta)); [|lia].
  eexists. split; [reflexivity|]. done.
Qed.


(** X26. With [force], or when the store has no meta row of the domain or
    one with a chunk count of 0, [ensureRagIndex] crawls: the requests of
    the world it leaves are those of [scrapesite]. A result then has
    [built = true] and the ISO time of the call, and a failure leaves the
    store unchanged. *)
Theorem ensureRagIndex_rebuilds (fuel : nat) (domain siteName : jstring) (force : bool)
    (w w' : World) (o : outcome EnsureResult) :
  force = true ∨ from_option meta_chunkCount 0%nat (getRagMeta domain (db w)) = 0%nat →
  ensureRagIndex env B fuel domain siteName force w = Some (o, w') →
  (∃ pages, scrapesite (crawl B) (senv B) fuel domain (requests w)
            = Some (pages, requests w'))
  ∧ match o with
    | Return r => er_built r = true ∧ er_indexedAt r = iso_now B
    | Throw _ => db w' = db w
    end.
Proof.
  intros Hwhy E.
  assert (rebuild env B fuel domain siteName w = Some (o, w')) as Er.
  { unfold ensureRagIndex in E. destruct (getRagMeta domain (db w)) as [meta|]; [|done].
    destruct Hwhy as [->|Hz]; [done|]. simpl in Hz. rewrite Hz in E.
    by rewrite andb_false_r in E. }
  clear E. unfold rebuild in Er.
  destruct (buildRagIndex env B fuel domain siteName w) as [[[res|e] w1]|] eqn:Eb; [| |done].
  - injection Er as <- <-. split; [|done]. unfold buildRagIndex in Eb.
    destruct (scrapesite _ _ _ _ _) as [[l fetched]|]; [|done].
    destruct (build_from_pages _ _ _ _ _ _ _) as [[? ?]|]; [|done].
    injection Eb as _ <-. by exists l.
  - injection Er as <- <-. split; [|by eapply buildRagIndex_failure].
    unfold buildRagIndex in Eb.
    destruct (scrapesite _ _ _ _ _) as [[l fetched]|]; [|done].
    destruct (build_from_pages _ _ _ _ _ _ _) as [[? ?]|]; [|done].
    injection Eb as _ <-. by exists l.
Qed.
End Outcome.

Lemma buildRagIndex_outcome_witness :
  (∀ batch, completion (crawl working_platform) batch ≡ₚ batch)
  ∧ (∃ (n : nat) o w', ∀ fuel, (n <= fuel)%nat →
       buildRagIndex default_env working_platform fuel acme (str "Acme")
         {| db := empty_db; requests := [] |} = Some (o, w'))
  ∧ ∃ res w',
      buildRagIndex default_env working_platform 5 acme (str "Acme")
        {| db := empty_db; requests := [] |} = Some (Return res, w')
      ∧ br_pageCount res = 1%nat
      ∧ length (getRagChunks acme (db w')) = br_chunkCount res.
Proof.
  assert (∀ batch, completion (crawl working_platform) batch ≡ₚ batch) as Hc
    by (intros batch; reflexivity).
  destruct (buildRagIndex_outcome default_env working_platform acme (str "Acme")
              {| db := empty_db; requests := [] |} Hc) as [Hruns Hout].
  split; [exact Hc|]. split; [apply Hruns; simpl; lia|]. eexists _, _.
  assert (buildRagIndex default_env working_platform 5 acme (str "Acme")
            {| db := empty_db; requests := [] |} = Some (Return _, _)) as E
    by (vm_compute; reflexivity).
  split; [exact E|]. split; [reflexivity|].
  destruct (Hout 5%nat _ _ E) as (pages & _ & _ & _ & _ & _ & Hrows & _).
  exact Hrows.
Defined.

Lemma ensureRagIndex_counts_witness :
  ∃ r w',
    ensureRagIndex default_env working_platform 5 acme (str "Acme") true
      {| db := acme_db; requests := [] |} = Some (Return r, w')
    ∧ (0 < er_chunkCount r)%nat
    ∧ (meta_chunkCount <$> getRagMeta acme (db w')) = Some (er_chunkCount r).
Proof.
  eexists _, _.
  assert (ensureRagIndex default_env working_platform 5 acme (str "Acme") true
            {| db := acme_db; requests := [] |} = Some (Return _, _)) as E
    by (vm_compute; reflexivity).
  split; [exact E|].
  destruct (ensureRagIndex_counts default_env working_platform 5 acme (str "Acme") true _ _ _ E)
    as (H1 & _ & _ & H2 & _).
  split; [exact H1|exact H2].
Defined.

Lemma ensureRagIndex_then_cached_witness :
  ∃ r w',
    ensureRagIndex default_env working_platform 5 acme (str "Acme") true
      {| db := acme_db; requests := [] |} = Some (Return r, w')
    ∧ ∃ r', ensureRagIndex default_env working_platform 0 acme (str "Acme") false w'
            = Some (Return r', w')
            ∧ er_built r' = false.
Proof.
  eexists _, _.
  assert (ensureRagIndex default_env working_platform 5 acme (str "Acme") true
            {| db := acme_db; requests := [] |} = Some (Return _, _)) as E
    by (vm_compute; reflexivity).
  split; [exact E|].
  destruct (ensureRagIndex_then_cached default_env working_platform 5 0 acme (str "Acme")
              (str "Acme") true _ _ _ E) as (r' & H1 & H2 & _).
  exists r'. split; [exact H1|exact H2].
Defined.

Lemma ensureRagIndex_rebuilds_witness :
  ∃ r w',
    ensureRagIndex default_env working_platform 5 acme (str "Acme") true
      {| db := acme_db; requests := [] |} = Some (Return r, w')
    ∧ er_built r = true.
Proof.
  eexists _, _.
  assert (ensureRagIndex default_env working_platform 5 acme (str "Acme") true
            {| db := acme_db; requests := [] |} = Some (Return _, _)) as E
    by (vm_compute; reflexivity).
  split; [exact E|].
  exact (proj1 (proj2 (ensureRagIndex_rebuilds default_env working_platform 5 acme (str "Acme")
                         true _ _ _ (or_introl eq_refl) E))).
Defined.


End RagFacts.

(** ** Index state of the server *)

Module ServerFacts.
Import Server RagFacts.

Section Refresh.
Variable env : RagEnv.
Variable B : BuildPlatform.

End Refresh.


End ServerFacts.
